(** * The CRF layer of the BiLSTM-CRF tagger (model.py)

    A shallow embedding of [log_sum_exp], [argmax], the constructor's
    transition tensor, [forward_alg], [score_sentences] and
    [viterbi_decode] over exact real arithmetic.

    Conventions of the embedding.
    - A 1-D tensor is a [list R], a 2-D tensor a list of rows.  An index
      tensor (LongTensor) is a [list Z], so that negative indices exist.
    - A Python exception is a value [Raise e] of the result type [res].
    - Device moves, [.data], [.cpu()], [.numpy()], [.clone()] and the
      [requires_grad] plumbing keep the numbers; they are the identity here.
    - [torch.max] along a dimension returns the first maximal entry.
    - [self] holds what the constructor assigns.  The methods
      [forward_alg] and [viterbi_decode] read attributes that no line of
      model.py assigns ([size_tag], [tagset_size], [tag_to_ix], [use_gpu])
      and so raise; [viterbi_decode] has two more statements that cannot
      run (lines 300 and 309).  The definitions under the methods' names
      are the methods as written.  The definitions with [_repaired] in
      their name are not the source: they are the recursions the methods
      spell out, with [size_tag] and [tagset_size] read as [n_tag],
      [tag_to_ix] as [tag2idx], line 300 as [forward_var = init_vvars] and
      line 309 as a tensor of the same numbers. *)

From Stdlib Require Import Reals List Lia Lra ZArith Arith Bool.
Import ListNotations.
Open Scope R_scope.

(** ** Exceptions *)

Inductive exn : Type :=
| IndexError      (* an index outside a dimension, or index tensors that do not broadcast *)
| RuntimeError    (* operand shapes that do not broadcast *)
| AssertionError  (* a failed [assert] *)
| AttributeError  (* an attribute the object does not have *)
| TypeError.      (* a call with a keyword the callee does not take *)

Inductive res (A : Type) : Type :=
| Ok (a : A)
| Raise (e : exn).
Arguments Ok {A} a.
Arguments Raise {A} e.

Definition bind {A B : Type} (c : res A) (k : A -> res B) : res B :=
  match c with
  | Ok a => k a
  | Raise e => Raise e
  end.

Notation "x <- c ;; k" := (bind c (fun x => k))
  (at level 61, c at next level, right associativity).
Notation "' p <- c ;; k" := (bind c (fun x => match x with p => k end))
  (at level 61, p pattern, c at next level, right associativity).

Fixpoint mapM {A B : Type} (f : A -> res B) (l : list A) : res (list B) :=
  match l with
  | [] => Ok []
  | a :: l' => b <- f a ;; bs <- mapM f l' ;; Ok (b :: bs)
  end.

(** ** Tensors *)

Abbreviation vec := (list R).
Abbreviation mat := (list (list R)).

Fixpoint zipWith {A B C : Type} (f : A -> B -> C) (u : list A) (v : list B) : list C :=
  match u, v with
  | a :: u', b :: v' => f a b :: zipWith f u' v'
  | _, _ => []
  end.

Fixpoint sum (v : vec) : R :=
  match v with
  | [] => 0
  | x :: v' => x + sum v'
  end.

(** [torch.sum] of a 2-D tensor: every entry. *)
Definition sum_all (m : mat) : R := sum (map sum m).

(** In-place write [v[i] = x]; the index is in range at every use. *)
Fixpoint upd {A : Type} (i : nat) (x : A) (v : list A) : list A :=
  match v, i with
  | [], _ => []
  | _ :: v', O => x :: v'
  | y :: v', S i' => y :: upd i' x v'
  end.

(** Elementwise operation on two 1-D tensors, with broadcasting of a
    dimension of size 1. *)
Definition bvec (f : R -> R -> R) (u v : vec) : res vec :=
  if (length u =? length v)%nat then Ok (zipWith f u v)
  else if (length u =? 1)%nat then Ok (map (f (nth 0 u 0)) v)
  else if (length v =? 1)%nat then Ok (map (fun x => f x (nth 0 v 0)) u)
  else Raise RuntimeError.

Fixpoint mapM2 {A B C : Type} (f : A -> B -> res C) (u : list A) (v : list B)
  : res (list C) :=
  match u, v with
  | a :: u', b :: v' => c <- f a b ;; cs <- mapM2 f u' v' ;; Ok (c :: cs)
  | _, _ => Ok []
  end.

(** Elementwise operation on two 2-D tensors, with broadcasting.  A tensor
    with no row carries no column count here; no operand of the methods
    below meets one with a single row. *)
Definition bmat (f : R -> R -> R) (a b : mat) : res mat :=
  if (length a =? length b)%nat then mapM2 (bvec f) a b
  else if (length a =? 1)%nat then mapM (fun rb => bvec f (nth 0 a []) rb) b
  else if (length b =? 1)%nat then mapM (fun ra => bvec f ra (nth 0 b [])) a
  else Raise RuntimeError.

(** Index of the first maximal entry ([torch.max] along a dimension). *)
Fixpoint argmax_list (v : vec) : nat :=
  match v with
  | [] => O
  | x :: v' =>
      match v' with
      | [] => O
      | _ => let k := argmax_list v' in
             if Rlt_dec x (nth k v' 0) then S k else O
      end
  end.

(** Value of the maximal entry ([torch.max] along a dimension). *)
Fixpoint max_list (v : vec) : R :=
  match v with
  | [] => 0
  | x :: v' =>
      match v' with
      | [] => x
      | _ => Rmax x (max_list v')
      end
  end.

(** ** The helpers of model.py *)

(** [argmax(vec)]: [torch.max(vec, 1)] needs a non-empty dimension 1, and
    [tolist()[0]] a first row. *)
Definition argmax (vec : mat) : res nat :=
  match vec with
  | [] => Raise IndexError
  | row :: _ =>
      match row with
      | [] => Raise IndexError
      | _ => Ok (argmax_list row)
      end
  end.

(** [log_sum_exp(vec)] *)
Definition log_sum_exp (vec : mat) : res R :=
  i <- argmax vec ;;
  let max_score := nth i (nth 0 vec []) 0 in
  (* max_score_broadcast has shape (1, vec.size()[1]) *)
  d <- bmat Rminus vec [repeat max_score (length (nth 0 vec []))] ;;
  Ok (max_score + ln (sum_all (map (map exp) d))).

(** ** The model object

    The fields of [self] that the CRF methods read: the tag count, the
    indices [tag2idx[START_TAG]] and [tag2idx[STOP_TAG]], and the learned
    transition tensor; [transitions[i][j]] scores the move to [i] from [j]. *)

Record BiLSTM_CRF : Type := {
  n_tag : nat;
  START : nat;
  STOP : nat;
  transitions : mat
}.

(** What the constructor establishes: [transitions] is [n_tag] x [n_tag] and
    the two sentinel tags are distinct indices of it. *)
Record wf (self : BiLSTM_CRF) : Prop := {
  wf_start : (START self < n_tag self)%nat;
  wf_stop : (STOP self < n_tag self)%nat;
  wf_distinct : START self <> STOP self;
  wf_rows : length (transitions self) = n_tag self;
  wf_cols : Forall (fun row => length row = n_tag self) (transitions self)
}.

(** The constructor's writes [transitions[START, :] = -10000] and
    [transitions[:, STOP] = -10000]. *)
Definition sentinels (self : BiLSTM_CRF) : Prop :=
  forall i j, (i < n_tag self)%nat -> (j < n_tag self)%nat ->
    (i = START self \/ j = STOP self) ->
    nth j (nth i (transitions self) []) 0 = -10000.

(** ** forward_alg *)

(** Reading an attribute that no line of model.py assigns: [size_tag],
    [tagset_size], [tag_to_ix], [use_gpu].  The constructor assigns
    [n_tag] and [tag2idx]; [nn.Module.__getattr__] raises for the rest. *)
Definition unset_attribute {A : Type} : res A := Raise AttributeError.

(** [v[i] = x] with the bounds check of tensor indexing. *)
Definition setitem (i : nat) (x : R) (v : vec) : res vec :=
  if (i <? length v)%nat then Ok (upd i x v) else Raise IndexError.

(** Lines 242-245 for the value [size_tag] of the attribute of that name
    and the index [start] of START_TAG: a 1 x [size_tag] tensor of -10000,
    then [init_alphas[0][start] = 0.]. *)
Definition init_alphas (size_tag start : nat) : res mat :=
  row <- setitem start 0 (repeat (-10000) size_tag) ;;
  Ok [row].

(** [torch.max(t, dim=1)], the values. *)
Definition max_dim1 (t : mat) : res vec :=
  mapM (fun row => match row with
                   | [] => Raise IndexError
                   | _ => Ok (max_list row)
                   end) t.

(** Lines 263-270: the log-sum-exp of every row of [tag_var], as a
    1 x rows tensor. *)
Definition inline_log_sum_exp (tag_var : mat) : res mat :=
  max_tag_var <- max_dim1 tag_var ;;
  tag_var' <- bmat Rminus tag_var (map (fun m => [m]) max_tag_var) ;;
  let logs := map (fun row => ln (sum (map exp row))) tag_var' in
  Ok [zipWith Rplus max_tag_var logs].

(** One round of the loop over [feats] (lines 255-270). *)
Definition forward_step (self : BiLSTM_CRF) (forward_var : mat) (feat : vec)
  : res mat :=
  let emit_score := map (fun x => [x]) feat in
  s <- bmat Rplus forward_var (transitions self) ;;
  tag_var <- bmat Rplus s emit_score ;;
  inline_log_sum_exp tag_var.

Fixpoint forward_loop (self : BiLSTM_CRF) (forward_var : mat) (feats : mat)
  : res mat :=
  match feats with
  | [] => Ok forward_var
  | feat :: rest =>
      forward_var' <- forward_step self forward_var feat ;;
      forward_loop self forward_var' rest
  end.

(** Lines 248-274, from [init_alphas] on. *)
Definition forward_alg_from (self : BiLSTM_CRF) (init_alphas : mat)
    (feats : mat) : res R :=
  forward_var <- forward_loop self init_alphas feats ;;
  t <- bmat Rplus forward_var [nth (STOP self) (transitions self) []] ;;
  let terminal_var := [concat t] in
  log_sum_exp terminal_var.

(** Lines 242-274 as written: line 242 reads [self.size_tag]. *)
Definition forward_alg (self : BiLSTM_CRF) (feats : mat) : res R :=
  size_tag <- unset_attribute ;;
  init_alphas <- init_alphas size_tag (START self) ;;
  forward_alg_from self init_alphas feats.

(** Not the source: [forward_alg] with [self.size_tag] read as
    [self.n_tag]. *)
Definition forward_alg_repaired (self : BiLSTM_CRF) (feats : mat) : res R :=
  init_alphas <- init_alphas (n_tag self) (START self) ;;
  forward_alg_from self init_alphas feats.

(** ** score_sentences *)

(** An entry of an index tensor against a dimension of size [n]: negative
    values count from the end. *)
Definition norm_index (n : nat) (i : Z) : res nat :=
  if ((0 <=? i) && (i <? Z.of_nat n))%Z then Ok (Z.to_nat i)
  else if ((- Z.of_nat n <=? i) && (i <? 0))%Z then Ok (Z.to_nat (i + Z.of_nat n))
  else Raise IndexError.

(** Two index tensors are broadcast against each other. *)
Definition bidx (I J : list Z) : res (list (Z * Z)) :=
  if (length I =? length J)%nat then Ok (combine I J)
  else if (length I =? 1)%nat then Ok (map (fun j => (nth 0 I 0%Z, j)) J)
  else if (length J =? 1)%nat then Ok (map (fun i => (i, nth 0 J 0%Z)) I)
  else Raise IndexError.

(** [t[I, J]] for a 2-D tensor [t]. *)
Definition index2 (t : mat) (I J : list Z) : res vec :=
  ps <- bidx I J ;;
  mapM (fun p => i <- norm_index (length t) (fst p) ;;
                 j <- norm_index (length (nth 0 t [])) (snd p) ;;
                 Ok (nth j (nth i t []) 0)) ps.

(** Lines 279-285. *)
Definition score_sentences (self : BiLSTM_CRF) (feats : mat) (tags : list Z)
  : res R :=
  let r := map Z.of_nat (seq 0 (length feats)) in
  let pad_start_tags := Z.of_nat (START self) :: tags in
  let pad_stop_tags := tags ++ [Z.of_nat (STOP self)] in
  a <- index2 (transitions self) pad_stop_tags pad_start_tags ;;
  b <- index2 feats r tags ;;
  Ok (sum a + sum b).

(** ** viterbi_decode *)

(** Not the source: [init_vvars] of lines 296-297 with [tagset_size] read
    as [n_tag] and [tag_to_ix] as [tag2idx]. *)
Definition init_vvars_repaired (self : BiLSTM_CRF) : vec :=
  upd (START self) 0 (repeat (-10000) (n_tag self)).

(** [v.view(1, -1).expand(n, n)] *)
Definition expand (v : vec) (n : nat) : res mat :=
  if (length v =? n)%nat then Ok (repeat v n)
  else if (length v =? 1)%nat then Ok (repeat (repeat (nth 0 v 0) n) n)
  else Raise RuntimeError.

(** [torch.max(t, dim=1)], the indices. *)
Definition argmax_dim1 (t : mat) : res (list nat) :=
  mapM (fun row => match row with
                   | [] => Raise IndexError
                   | _ => Ok (argmax_list row)
                   end) t.

(** Line 309, [torch.FloatTensor(viterbivars_t, require_grad=True,
    device=...)]: the constructor takes no keyword [require_grad]. *)
Definition float_tensor_kw (v : vec) : res vec := Raise TypeError.

(** One round of the loop over [feats] as written (lines 304-314), for the
    value [tagset_size] of the attribute of that name. *)
Definition viterbi_step (tagset_size : nat) (self : BiLSTM_CRF)
    (forward_var : vec) (feat : vec) : res (vec * list nat) :=
  e <- expand forward_var tagset_size ;;
  next_tag_var <- bmat Rplus e (transitions self) ;;
  bptrs_t <- argmax_dim1 next_tag_var ;;
  viterbivars_t <-
    float_tensor_kw (zipWith (fun row b => nth b row 0) next_tag_var bptrs_t) ;;
  forward_var' <- bvec Rplus viterbivars_t feat ;;
  Ok (forward_var', bptrs_t).

Fixpoint viterbi_loop (tagset_size : nat) (self : BiLSTM_CRF)
    (forward_var : vec) (backpointers : list (list nat)) (feats : mat)
  : res (vec * list (list nat)) :=
  match feats with
  | [] => Ok (forward_var, backpointers)
  | feat :: rest =>
      ' (forward_var', bptrs_t) <-
          viterbi_step tagset_size self forward_var feat ;;
      viterbi_loop tagset_size self forward_var' (backpointers ++ [bptrs_t])
                   rest
  end.

(** Not the source: one round of the loop with [tagset_size] read as
    [n_tag] and line 309 as a tensor of the numbers of [viterbivars_t]. *)
Definition viterbi_step_repaired (self : BiLSTM_CRF) (forward_var : vec) (feat : vec)
  : res (vec * list nat) :=
  e <- expand forward_var (n_tag self) ;;
  next_tag_var <- bmat Rplus e (transitions self) ;;
  bptrs_t <- argmax_dim1 next_tag_var ;;
  let viterbivars_t := zipWith (fun row b => nth b row 0) next_tag_var bptrs_t in
  forward_var' <- bvec Rplus viterbivars_t feat ;;
  Ok (forward_var', bptrs_t).

Fixpoint viterbi_loop_repaired (self : BiLSTM_CRF) (forward_var : vec)
    (backpointers : list (list nat)) (feats : mat)
  : res (vec * list (list nat)) :=
  match feats with
  | [] => Ok (forward_var, backpointers)
  | feat :: rest =>
      ' (forward_var', bptrs_t) <- viterbi_step_repaired self forward_var feat ;;
      viterbi_loop_repaired self forward_var' (backpointers ++ [bptrs_t]) rest
  end.

(** The loop [for bptrs_t in reversed(backpointers)]. *)
Fixpoint follow (bps : list (list nat)) (best_tag_id : nat)
    (best_path : list nat) : list nat :=
  match bps with
  | [] => best_path
  | bptrs_t :: rest =>
      let b := nth best_tag_id bptrs_t O in
      follow rest b (best_path ++ [b])
  end.

(** Line 300 as written, [forward_var = init_vvars.re]: a tensor has no
    attribute [re]. *)
Definition tensor_re (t : vec) : res vec := Raise AttributeError.

(** Lines 292-333 as written.  Line 296 reads [self.tagset_size], line 297
    [self.tag_to_ix], line 301 [self.use_gpu]; line 300 asks a tensor for
    [re].  With no row in [feats] the loop leaves [forward_var] 2-D of
    shape (1, tagset_size), and the two writes into [terminal_var.data]
    index a dimension of size 1 with two distinct indices. *)
Definition viterbi_decode (self : BiLSTM_CRF) (feats : mat)
  : res (R * list nat) :=
  tagset_size <- unset_attribute ;;
  start <- unset_attribute ;;
  init_vvars <- setitem start 0 (repeat (-10000) tagset_size) ;;
  forward_var <- tensor_re init_vvars ;;
  use_gpu <- (unset_attribute : res bool) ;;
  match feats with
  | [] => Raise IndexError
  | _ =>
      ' (forward_var, backpointers) <-
          viterbi_loop tagset_size self forward_var [] feats ;;
      terminal_var <-
          bvec Rplus forward_var (nth (STOP self) (transitions self) []) ;;
      terminal_var <- setitem (STOP self) (-10000) terminal_var ;;
      terminal_var <- setitem (START self) (-10000) terminal_var ;;
      best_tag_id <- argmax [terminal_var] ;;
      let path_score := nth best_tag_id terminal_var 0 in
      let best_path := follow (rev backpointers) best_tag_id [best_tag_id] in
      let start := last best_path O in
      let best_path := removelast best_path in
      if (start =? START self)%nat
      then Ok (path_score, rev best_path)
      else Raise AssertionError
  end.

(** Not the source: lines 303-333 with the repaired round of the loop, for
    a given start of [forward_var].  With no row in [feats] the loop leaves
    [forward_var] as it starts, 2-D of shape (1, n_tag); the two writes
    into [terminal_var.data] then index a dimension of size 1 with two
    distinct indices, and one of them is out of range
    ([viterbi_decode_st_agrees] derives this case from the writes
    themselves). *)
Definition viterbi_from_repaired (self : BiLSTM_CRF) (forward_var : vec) (feats : mat)
  : res (R * list nat) :=
  match feats with
  | [] => Raise IndexError
  | _ =>
      ' (forward_var, backpointers) <-
          viterbi_loop_repaired self forward_var [] feats ;;
      terminal_var <-
          bvec Rplus forward_var (nth (STOP self) (transitions self) []) ;;
      terminal_var <- setitem (STOP self) (-10000) terminal_var ;;
      terminal_var <- setitem (START self) (-10000) terminal_var ;;
      best_tag_id <- argmax [terminal_var] ;;
      let path_score := nth best_tag_id terminal_var 0 in
      let best_path := follow (rev backpointers) best_tag_id [best_tag_id] in
      let start := last best_path O in
      let best_path := removelast best_path in
      if (start =? START self)%nat
      then Ok (path_score, rev best_path)
      else Raise AssertionError
  end.

(** Not the source: the decoder the method spells out, with the
    attributes read as above, line 300 as [forward_var = init_vvars] and
    line 309 as a tensor of the numbers of [viterbivars_t]. *)
Definition viterbi_decode_repaired (self : BiLSTM_CRF) (feats : mat)
  : res (R * list nat) :=
  viterbi_from_repaired self (init_vvars_repaired self) feats.

(** ** Closed forms used by the proofs *)

(** The log-sum-exp of a row in its shifted form. *)
Definition shifted (row : vec) : R :=
  max_list row + ln (sum (map exp (map (fun x => x - max_list row) row))).

(** What both embeddings of log-sum-exp return on a row. *)
Definition lse_of_row (row : vec) : res R :=
  match row with
  | [] => Raise IndexError
  | _ => Ok (shifted row)
  end.

(** [forward_var + transitions + emit_score] on a 1 x n_tag [forward_var]
    and a [feat] of n_tag entries: entry (i, j) is
    [forward_var[j] + transitions[i][j] + feat[i]]. *)
Definition tag_var_of (self : BiLSTM_CRF) (fv feat : vec) : mat :=
  zipWith (fun row e => map (fun x => x + e) row)
          (map (zipWith Rplus fv) (transitions self)) feat.

Definition alpha_step (self : BiLSTM_CRF) (fv feat : vec) : vec :=
  map shifted (tag_var_of self fv feat).

Fixpoint alphas (self : BiLSTM_CRF) (fv : vec) (feats : mat) : vec :=
  match feats with
  | [] => fv
  | feat :: rest => alphas self (alpha_step self fv feat) rest
  end.

(** ** The gold score in the words of the specification

    The gold sequence is padded with START in front and STOP behind; every
    consecutive pair (from, to) of the padded sequence contributes
    [transitions[to][from]], every position [t] contributes
    [feats[t][tags[t]]]. *)
Definition padded (self : BiLSTM_CRF) (tags : list nat) : list nat :=
  START self :: tags ++ [STOP self].

Definition pairs (p : list nat) : list (nat * nat) := combine p (tl p).

Definition transition_sum (self : BiLSTM_CRF) (p : list nat) : R :=
  sum (map (fun ft => nth (fst ft) (nth (snd ft) (transitions self) []) 0)
           (pairs p)).

Definition emission_sum (feats : mat) (tags : list nat) : R :=
  sum (zipWith (fun row t => nth t row 0) feats tags).

Definition gold (self : BiLSTM_CRF) (feats : mat) (tags : list nat) : R :=
  transition_sum self (padded self tags) + emission_sum feats tags.

(** The same score read along the path: from [prev], one transition and one
    emission per position, and the transition into STOP at the end. *)
Fixpoint walk (self : BiLSTM_CRF) (prev : nat) (feats : mat) (tags : list nat)
  : R :=
  match feats, tags with
  | feat :: fs, t :: ts =>
      nth prev (nth t (transitions self) []) 0 + nth t feat 0
      + walk self t fs ts
  | _, _ => nth prev (nth (STOP self) (transitions self) []) 0
  end.

(** A negative index counted from the end of a dimension of size [n]. *)
Definition wrap (n : nat) (i : Z) : Z :=
  if (i <? 0)%Z then (i + Z.of_nat n)%Z else i.

(** ** Closed forms of the Viterbi recursion *)

(** [next_tag_var]: entry (i, j) is [forward_var[j] + transitions[i][j]]. *)
Definition next_of (self : BiLSTM_CRF) (fv : vec) : mat :=
  map (zipWith Rplus fv) (transitions self).

Definition delta_step (self : BiLSTM_CRF) (fv feat : vec) : vec :=
  zipWith Rplus (map max_list (next_of self fv)) feat.

Definition bptrs_of (self : BiLSTM_CRF) (fv : vec) : list nat :=
  map argmax_list (next_of self fv).

Fixpoint deltas (self : BiLSTM_CRF) (fv : vec) (feats : mat) : vec :=
  match feats with
  | [] => fv
  | feat :: rest => deltas self (delta_step self fv feat) rest
  end.

Fixpoint bps_of (self : BiLSTM_CRF) (fv : vec) (feats : mat)
  : list (list nat) :=
  match feats with
  | [] => []
  | feat :: rest => bptrs_of self fv :: bps_of self (delta_step self fv feat) rest
  end.

(** The tags met when the back pointers are followed from tag [i], latest
    step first. *)
Fixpoint back (bps : list (list nat)) (i : nat) : list nat :=
  match bps with
  | [] => [i]
  | bptrs_t :: rest => i :: back rest (nth i bptrs_t O)
  end.

(** The tags of [back], earliest first: the tag the walk ends on, then the
    decoded tags. *)
Fixpoint fchain (bps : list (list nat)) (best : nat) : list nat :=
  match bps with
  | [] => [best]
  | bptrs_t :: rest =>
      let c := fchain rest best in
      nth (hd O c) bptrs_t O :: c
  end.

(** [terminal_var] after the two writes. *)
Definition terminal_of (self : BiLSTM_CRF) (fv : vec) : vec :=
  upd (START self) (-10000)
      (upd (STOP self) (-10000)
           (zipWith Rplus fv (nth (STOP self) (transitions self) []))).

(** A tag that is neither of the two sentinels. *)
Definition real_tag (self : BiLSTM_CRF) (t : nat) : Prop :=
  (t < n_tag self)%nat /\ t <> START self /\ t <> STOP self.

Definition sentinel (self : BiLSTM_CRF) (t : nat) : Prop :=
  t = START self \/ t = STOP self.

(** Every emission score, and every transition score that the constructor
    does not pin to -10000, lies within [-B, B]. *)
Definition bounded (self : BiLSTM_CRF) (feats : mat) (B : R) : Prop :=
  0 <= B
  /\ (forall i j, (i < n_tag self)%nat -> (j < n_tag self)%nat ->
        i <> START self -> j <> STOP self ->
        - B <= nth j (nth i (transitions self) []) 0 <= B)
  /\ Forall (Forall (fun x => - B <= x <= B)) feats.

(** ** Runs on integer scores

    The same recursion over [Z], where comparisons compute: on scores that
    are integers the real-valued model above is the image of this one. *)
Module ZRun.

Record model : Type := {
  z_n_tag : nat;
  z_START : nat;
  z_STOP : nat;
  z_transitions : list (list Z)
}.

Definition inject (m : model) : BiLSTM_CRF := {|
  n_tag := z_n_tag m;
  START := z_START m;
  STOP := z_STOP m;
  transitions := map (map IZR) (z_transitions m)
|}.

Fixpoint zargmax (v : list Z) : nat :=
  match v with
  | [] => O
  | x :: v' =>
      match v' with
      | [] => O
      | _ => let k := zargmax v' in
             if (x <? nth k v' 0)%Z then S k else O
      end
  end.

Definition zmax (v : list Z) : Z := nth (zargmax v) v 0%Z.

Definition znext (m : model) (fv : list Z) : list (list Z) :=
  map (zipWith Z.add fv) (z_transitions m).

Definition zdelta_step (m : model) (fv feat : list Z) : list Z :=
  zipWith Z.add (map zmax (znext m fv)) feat.

Definition zbptrs (m : model) (fv : list Z) : list nat :=
  map zargmax (znext m fv).

Fixpoint zdeltas (m : model) (fv : list Z) (feats : list (list Z)) : list Z :=
  match feats with
  | [] => fv
  | feat :: rest => zdeltas m (zdelta_step m fv feat) rest
  end.

Fixpoint zbps (m : model) (fv : list Z) (feats : list (list Z))
  : list (list nat) :=
  match feats with
  | [] => []
  | feat :: rest => zbptrs m fv :: zbps m (zdelta_step m fv feat) rest
  end.

Definition zinit (m : model) : list Z :=
  upd (z_START m) 0%Z (repeat (-10000)%Z (z_n_tag m)).

Definition zterminal (m : model) (fv : list Z) : list Z :=
  upd (z_START m) (-10000)%Z
       (upd (z_STOP m) (-10000)%Z
             (zipWith Z.add fv (nth (z_STOP m) (z_transitions m) []))).

Definition zwf (m : model) : bool :=
  (z_START m <? z_n_tag m)%nat && (z_STOP m <? z_n_tag m)%nat
  && negb (z_START m =? z_STOP m)%nat
  && (length (z_transitions m) =? z_n_tag m)%nat
  && forallb (fun row => (length row =? z_n_tag m)%nat) (z_transitions m).

(** The decoder on integer scores, for an emission matrix with at least
    one row, all rows of [z_n_tag] entries. *)
Definition zdecode (m : model) (feats : list (list Z))
  : res (Z * list nat) :=
  let terminal_var := zterminal m (zdeltas m (zinit m) feats) in
  let best := zargmax terminal_var in
  let chain := back (rev (zbps m (zinit m) feats)) best in
  if (last chain O =? z_START m)%nat
  then Ok (nth best terminal_var 0%Z, rev (removelast chain))
  else Raise AssertionError.

End ZRun.

(** ** The tensors that are written in place

    The methods write into four tensors: [init_alphas[0][START] = 0.],
    [init_vvars[0][START] = 0] and the two writes into
    [terminal_var.data].  Here the tensors live in a store; a tensor handle
    is the address of its storage, [.data] and views share the address of
    the tensor they come from, and an operation that builds a tensor from
    its operands ([torch.Tensor(...)], [clone], [+]) allocates a new
    address.  The module, [feats] and [tags] are handed over as handles. *)
Module Store.

Inductive cell : Type :=
| T1 (v : vec)    (* a 1-D tensor *)
| T2 (m : mat).   (* a 2-D tensor *)

Definition heap : Type := list cell.

Definition M (A : Type) : Type := heap -> res A * heap.

Definition ret {A : Type} (a : A) : M A := fun h => (Ok a, h).

Definition mbind {A B : Type} (c : M A) (k : A -> M B) : M B :=
  fun h => match c h with
           | (Ok a, h') => k a h'
           | (Raise e, h') => (Raise e, h')
           end.

Notation "x <~ c ;; k" := (mbind c (fun x => k))
  (at level 61, c at next level, right associativity).

(** A computation on values: it reads and writes no tensor. *)
Definition lift {A : Type} (r : res A) : M A := fun h => (r, h).

Definition new (c : cell) : M nat := fun h => (Ok (length h), h ++ [c]).

Definition get (a : nat) : M cell := fun h => (Ok (nth a h (T1 [])), h).

(** [t[i] = x]: an entry of a 1-D tensor, a whole row of a 2-D tensor. *)
Definition setitem1 (a i : nat) (x : R) : M unit :=
  fun h => match nth a h (T1 []) with
           | T1 v =>
               if (i <? length v)%nat
               then (Ok tt, upd a (T1 (upd i x v)) h)
               else (Raise IndexError, h)
           | T2 m =>
               if (i <? length m)%nat
               then (Ok tt, upd a (T2 (upd i (map (fun _ => x) (nth i m [])) m)) h)
               else (Raise IndexError, h)
           end.

(** [t[i][j] = x] *)
Definition setitem2 (a i j : nat) (x : R) : M unit :=
  fun h => match nth a h (T1 []) with
           | T1 _ => (Raise IndexError, h)
           | T2 m =>
               if ((i <? length m) && (j <? length (nth i m [])))%nat
               then (Ok tt, upd a (T2 (upd i (upd j x (nth i m [])) m)) h)
               else (Raise IndexError, h)
           end.

(** The rows of a tensor read as 2-D. *)
Definition rows (c : cell) : mat :=
  match c with
  | T1 v => [v]
  | T2 m => m
  end.

(** [self], with a handle for [self.transitions]. *)
Record module_ref : Type := {
  r_n_tag : nat;
  r_START : nat;
  r_STOP : nat;
  r_transitions : nat
}.

Definition self_of (s : module_ref) (A : mat) : BiLSTM_CRF := {|
  n_tag := r_n_tag s;
  START := r_START s;
  STOP := r_STOP s;
  transitions := A
|}.

(** Lines 242-274 for the value [size_tag] of the attribute of that
    name. *)
Definition forward_alg_from_st (size_tag : nat) (s : module_ref) (feats : nat)
  : M R :=
  init_alphas <~ new (T2 [repeat (-10000) size_tag]) ;;
  _ <~ setitem2 init_alphas 0 (r_START s) 0 ;;
  ia <~ get init_alphas ;;
  forward_var <~ new ia ;;
  fv <~ get forward_var ;;
  A <~ get (r_transitions s) ;;
  F <~ get feats ;;
  let self := self_of s (rows A) in
  lift (forward_var <- forward_loop self (rows fv) (rows F) ;;
        t <- bmat Rplus forward_var [nth (STOP self) (transitions self) []] ;;
        log_sum_exp [concat t]).

(** [forward_alg] as written: line 242 reads [self.size_tag] before the
    tensor is built. *)
Definition forward_alg_st (s : module_ref) (feats : nat) : M R :=
  size_tag <~ lift unset_attribute ;;
  forward_alg_from_st size_tag s feats.

(** Not the source: [self.size_tag] read as [self.n_tag]. *)
Definition forward_alg_repaired_st (s : module_ref) (feats : nat) : M R :=
  forward_alg_from_st (r_n_tag s) s feats.

Definition score_sentences_st (s : module_ref) (feats : nat) (tags : list Z)
  : M R :=
  A <~ get (r_transitions s) ;;
  F <~ get feats ;;
  lift (score_sentences (self_of s (rows A)) (rows F) tags).

(** Not the source: lines 303-333 with the repaired round of the loop, for
    a given start of [forward_var].  With no row in [feats], [forward_var]
    is still the 2-D tensor it starts as after the loop and [terminal_var]
    is 2-D; otherwise it is 1-D.  Past the two writes only the 1-D case
    goes on: on a 2-D [terminal_var] one of them has raised, the two
    sentinel indices being distinct. *)
Definition viterbi_from_repaired_st (s : module_ref) (feats : nat) (forward_var : vec)
  : M (R * list nat) :=
  A <~ get (r_transitions s) ;;
  F <~ get feats ;;
  let self := self_of s (rows A) in
  lp <~ lift (viterbi_loop_repaired self forward_var [] (rows F)) ;;
  tv <~ lift (bvec Rplus (fst lp) (nth (STOP self) (transitions self) [])) ;;
  terminal_var <~ new (match rows F with [] => T2 [tv] | _ => T1 tv end) ;;
  _ <~ setitem1 terminal_var (STOP self) (-10000) ;;
  _ <~ setitem1 terminal_var (START self) (-10000) ;;
  t <~ get terminal_var ;;
  lift (match t with
        | T2 _ => Raise IndexError
        | T1 terminal_var =>
            best_tag_id <- argmax [terminal_var] ;;
            let path_score := nth best_tag_id terminal_var 0 in
            let best_path := follow (rev (snd lp)) best_tag_id [best_tag_id] in
            let start := last best_path O in
            let best_path := removelast best_path in
            if (start =? START self)%nat
            then Ok (path_score, rev best_path)
            else Raise AssertionError
        end).

(** Not the source: the decoder with the attributes read as the
    constructor names them, line 300 as [forward_var = init_vvars] and the
    repaired round of the loop. *)
Definition viterbi_decode_repaired_st (s : module_ref) (feats : nat)
  : M (R * list nat) :=
  init_vvars <~ new (T2 [repeat (-10000) (r_n_tag s)]) ;;
  _ <~ setitem2 init_vvars 0 (r_START s) 0 ;;
  iv <~ get init_vvars ;;
  viterbi_from_repaired_st s feats (concat (rows iv)).

(** [viterbi_decode] as written (lines 292-333): line 296 reads
    [self.tagset_size] before the tensor is built, line 297
    [self.tag_to_ix], line 300 asks the tensor for [re], line 301 reads
    [self.use_gpu], and the loop is the one as written. *)
Definition viterbi_decode_st (s : module_ref) (feats : nat)
  : M (R * list nat) :=
  tagset_size <~ lift unset_attribute ;;
  init_vvars <~ new (T2 [repeat (-10000) tagset_size]) ;;
  start <~ lift unset_attribute ;;
  _ <~ setitem2 init_vvars 0 start 0 ;;
  iv <~ get init_vvars ;;
  forward_var <~ lift (tensor_re (concat (rows iv))) ;;
  use_gpu <~ lift (unset_attribute : res bool) ;;
  A <~ get (r_transitions s) ;;
  F <~ get feats ;;
  let self := self_of s (rows A) in
  lp <~ lift (viterbi_loop tagset_size self forward_var [] (rows F)) ;;
  tv <~ lift (bvec Rplus (fst lp) (nth (STOP self) (transitions self) [])) ;;
  terminal_var <~ new (match rows F with [] => T2 [tv] | _ => T1 tv end) ;;
  _ <~ setitem1 terminal_var (STOP self) (-10000) ;;
  _ <~ setitem1 terminal_var (START self) (-10000) ;;
  t <~ get terminal_var ;;
  lift (match t with
        | T2 _ => Raise IndexError
        | T1 terminal_var =>
            best_tag_id <- argmax [terminal_var] ;;
            let path_score := nth best_tag_id terminal_var 0 in
            let best_path := follow (rev (snd lp)) best_tag_id [best_tag_id] in
            let start := last best_path O in
            let best_path := removelast best_path in
            if (start =? START self)%nat
            then Ok (path_score, rev best_path)
            else Raise AssertionError
        end).

(** A computation that leaves the first [n] cells of the store as they
    are, never shrinks the store, and returns a value in [Q]. *)
Definition preserves {A : Type} (n : nat) (c : M A) (Q : A -> Prop) : Prop :=
  forall h, (n <= length h)%nat ->
    firstn n (snd (c h)) = firstn n h
    /\ (length h <= length (snd (c h)))%nat
    /\ (forall a, fst (c h) = Ok a -> Q a).

End Store.

(** ** A concrete model

    Three tags, START = 0, one real tag, STOP = 2, and [transitions] as the
    constructor leaves it: zero, with the row into START and the column out
    of STOP at -10000. *)
Definition demo : BiLSTM_CRF := {|
  n_tag := 3;
  START := 0;
  STOP := 2;
  transitions := [[-10000; -10000; -10000];
                  [0; 0; -10000];
                  [0; 0; -10000]]
|}.

Definition demo_z : ZRun.model := {|
  ZRun.z_n_tag := 3;
  ZRun.z_START := 0;
  ZRun.z_STOP := 2;
  ZRun.z_transitions :=
    [[-10000; -10000; -10000]; [0; 0; -10000]; [0; 0; -10000]]%Z
|}.

(** ** The scenario of the specification

    Tags START = 0, O = 1, STOP = 2; two positions; O is emitted with score
    1 at position 0 and 2 at position 1, the sentinel columns of the
    emission matrix are 0.  [scenario] has the transition matrix as the
    scenario words it (zero, [A[STOP][O] = 5], [A[O][START] = 5], the other
    entries of the START column and of the STOP row at -10000);
    [scenario_ctor] has the two scores of 5 on the matrix the constructor
    builds (row START and column STOP at -10000). *)
Definition scenario_z : ZRun.model := {|
  ZRun.z_n_tag := 3;
  ZRun.z_START := 0;
  ZRun.z_STOP := 2;
  ZRun.z_transitions := [[-10000; 0; 0]; [5; 0; 0]; [-10000; 5; -10000]]%Z
|}.

Definition scenario_ctor_z : ZRun.model := {|
  ZRun.z_n_tag := 3;
  ZRun.z_START := 0;
  ZRun.z_STOP := 2;
  ZRun.z_transitions :=
    [[-10000; -10000; -10000]; [5; 0; -10000]; [0; 5; -10000]]%Z
|}.

Definition scenario : BiLSTM_CRF := {|
  n_tag := 3;
  START := 0;
  STOP := 2;
  transitions := [[-10000; 0; 0]; [5; 0; 0]; [-10000; 5; -10000]]
|}.

Definition scenario_ctor : BiLSTM_CRF := {|
  n_tag := 3;
  START := 0;
  STOP := 2;
  transitions := [[-10000; -10000; -10000]; [5; 0; -10000]; [0; 5; -10000]]
|}.

Definition scenario_feats : mat := [[0; 1; 0]; [0; 2; 0]].

(** ** A model with two real tags

    Four tags, START = 0, the real tags 1 and 2, STOP = 3; the row into
    START and the column out of STOP at -10000.  Over two positions the
    four sequences of real tags score 8, 9, 6 and 7. *)
Definition quad_z : ZRun.model := {|
  ZRun.z_n_tag := 4;
  ZRun.z_START := 0;
  ZRun.z_STOP := 3;
  ZRun.z_transitions := [[-10000; -10000; -10000; -10000];
                         [1; 2; 0; -10000];
                         [0; 3; 1; -10000];
                         [0; 1; 2; -10000]]%Z
|}.

Definition quad : BiLSTM_CRF := {|
  n_tag := 4;
  START := 0;
  STOP := 3;
  transitions := [[-10000; -10000; -10000; -10000];
                  [1; 2; 0; -10000];
                  [0; 3; 1; -10000];
                  [0; 1; 2; -10000]]
|}.

Definition quad_feats : mat := [[0; 1; 2; 0]; [0; 3; 2; 0]].

(** ** A model with a steep transition

    [demo] with a score of 20001 for staying on the real tag. *)
Definition steep_z : ZRun.model := {|
  ZRun.z_n_tag := 3;
  ZRun.z_START := 0;
  ZRun.z_STOP := 2;
  ZRun.z_transitions :=
    [[-10000; -10000; -10000]; [0; 20001; -10000]; [0; 0; -10000]]%Z
|}.

Definition steep : BiLSTM_CRF := {|
  n_tag := 3;
  START := 0;
  STOP := 2;
  transitions := [[-10000; -10000; -10000];
                  [0; 20001; -10000];
                  [0; 0; -10000]]
|}.

(** ** The constructor's transition tensor

    Lines 140-142, for the tag count [n] and the indices [s] and [p] that
    [tag2idx] gives to START_TAG and STOP_TAG. *)
Definition zeros (r c : nat) : mat := repeat (repeat 0 c) r.

(** [t.data[i, :] = x] *)
Definition set_row (i : nat) (x : R) (t : mat) : res mat :=
  if (i <? length t)%nat
  then Ok (upd i (map (fun _ => x) (nth i t [])) t)
  else Raise IndexError.

(** [t.data[:, j] = x] *)
Definition set_col (j : nat) (x : R) (t : mat) : res mat :=
  if (j <? length (nth 0 t []))%nat
  then Ok (map (upd j x) t)
  else Raise IndexError.

Definition new_transitions (n s p : nat) : res mat :=
  t <- set_row s (-10000) (zeros n n) ;;
  set_col p (-10000) t.

Definition new_model (n s p : nat) : res BiLSTM_CRF :=
  t <- new_transitions n s p ;;
  Ok {| n_tag := n; START := s; STOP := p; transitions := t |}.

(** ** All the paths of the forward algorithm *)

(** The sequences of [L] tags below [n], each once. *)
Fixpoint all_seqs (n L : nat) : list (list nat) :=
  match L with
  | O => [[]]
  | S L' => flat_map (fun t => map (cons t) (all_seqs n L')) (seq 0 n)
  end.

(** The sum, over every tag the walk can start from and every sequence of
    tags, of the exponential of the start score plus the score of the
    walk. *)
Definition path_sum (self : BiLSTM_CRF) (fv : vec) (feats : mat) : R :=
  sum (map (fun prev =>
              sum (map (fun tags =>
                          exp (nth prev fv 0 + walk self prev feats tags))
                       (all_seqs (n_tag self) (length feats))))
           (seq 0 (n_tag self))).

(** An emission matrix with [c] added to every score of position [t], for
    the [t]-th entry [c] of [cs]. *)
Definition shift_rows (feats : mat) (cs : vec) : mat :=
  zipWith (fun row c => map (fun x => x + c) row) feats cs.

(** ** Facts on lists of reals *)

Lemma argmax_list_lt (v : vec) : v <> [] -> (argmax_list v < length v)%nat.
Proof.
  induction v as [|x v IH]; [congruence|]. intros _.
  destruct v as [|y v]; [simpl; lia|].
  change (argmax_list (x :: y :: v))
    with (let k := argmax_list (y :: v) in
          if Rlt_dec x (nth k (y :: v) 0) then S k else O).
  cbv zeta. assert (H : (argmax_list (y :: v) < length (y :: v))%nat)
    by (apply IH; congruence).
  destruct (Rlt_dec _ _); simpl length in *; lia.
Qed.

Lemma argmax_list_max (v : vec) (j : nat) :
  (j < length v)%nat -> nth j v 0 <= nth (argmax_list v) v 0.
Proof.
  revert j. induction v as [|x v IH]; intros j Hj; [simpl in Hj; lia|].
  destruct v as [|y v].
  - simpl in Hj. assert (j = O) by lia. subst. simpl. lra.
  - change (argmax_list (x :: y :: v))
      with (let k := argmax_list (y :: v) in
            if Rlt_dec x (nth k (y :: v) 0) then S k else O).
    cbv zeta. destruct (Rlt_dec _ _) as [Hlt|Hge].
    + destruct j as [|j].
      * change (x <= nth (argmax_list (y :: v)) (y :: v) 0). lra.
      * change (nth j (y :: v) 0 <= nth (argmax_list (y :: v)) (y :: v) 0).
        apply IH. simpl in *; lia.
    + destruct j as [|j].
      * simpl. lra.
      * change (nth j (y :: v) 0 <= x).
        assert (nth j (y :: v) 0 <= nth (argmax_list (y :: v)) (y :: v) 0)
          by (apply IH; simpl in *; lia).
        lra.
Qed.

Lemma max_list_argmax (v : vec) : max_list v = nth (argmax_list v) v 0.
Proof.
  induction v as [|x v IH]; [reflexivity|].
  destruct v as [|y v]; [reflexivity|].
  change (max_list (x :: y :: v)) with (Rmax x (max_list (y :: v))).
  change (argmax_list (x :: y :: v))
    with (let k := argmax_list (y :: v) in
          if Rlt_dec x (nth k (y :: v) 0) then S k else O).
  cbv zeta. rewrite IH.
  destruct (Rlt_dec _ _) as [Hlt|Hge].
  - rewrite Rmax_right by lra. reflexivity.
  - rewrite Rmax_left by lra. reflexivity.
Qed.

Lemma max_list_upper (v : vec) (x : R) : In x v -> x <= max_list v.
Proof.
  intros Hin. apply In_nth with (d := 0) in Hin.
  destruct Hin as [j [Hj <-]]. rewrite max_list_argmax.
  now apply argmax_list_max.
Qed.

Lemma max_list_In (v : vec) : v <> [] -> In (max_list v) v.
Proof.
  intros Hv. rewrite max_list_argmax. apply nth_In.
  now apply argmax_list_lt.
Qed.

Lemma zipWith_repeat_r (f : R -> R -> R) (v : vec) (m : R) :
  zipWith f v (repeat m (length v)) = map (fun x => f x m) v.
Proof. induction v as [|x v IH]; simpl; [reflexivity|now rewrite IH]. Qed.

Lemma sum_exp_pos (v : vec) : v <> [] -> 0 < sum (map exp v).
Proof.
  induction v as [|x v IH]; [congruence|]. intros _.
  simpl. pose proof (exp_pos x) as Hx.
  destruct v as [|y v]; [simpl; lra|].
  assert (0 < sum (map exp (y :: v))) by (apply IH; congruence). lra.
Qed.

Lemma sum_exp_shift (v : vec) (m : R) :
  sum (map (fun x => exp (x - m)) v) = exp (- m) * sum (map exp v).
Proof.
  induction v as [|x v IH]; simpl; [ring|].
  rewrite IH. unfold Rminus. rewrite exp_plus. ring.
Qed.

(** The shifted form of log-sum-exp is the plain one, whatever the shift. *)
Lemma shifted_lse (v : vec) (m : R) :
  v <> [] ->
  m + ln (sum (map (fun x => exp (x - m)) v)) = ln (sum (map exp v)).
Proof.
  intros Hv. rewrite sum_exp_shift.
  rewrite ln_mult by (try apply exp_pos; now apply sum_exp_pos).
  rewrite ln_exp. ring.
Qed.

Lemma argmax_row (v : vec) (rest : mat) :
  v <> [] -> argmax (v :: rest) = Ok (argmax_list v).
Proof. destruct v; [congruence|reflexivity]. Qed.

Lemma log_sum_exp_row (v : vec) :
  v <> [] ->
  log_sum_exp [v]
  = Ok (max_list v + ln (sum (map (fun x => exp (x - max_list v)) v))).
Proof.
  intros Hv. unfold log_sum_exp. rewrite argmax_row by assumption.
  unfold bind at 1. change (nth 0 [v] []) with v.
  rewrite <- max_list_argmax.
  set (m := max_list v).
  unfold bmat. cbn [length Nat.eqb mapM2 bind].
  unfold bvec. rewrite repeat_length, Nat.eqb_refl.
  cbn [bind]. rewrite zipWith_repeat_r.
  unfold sum_all. cbn [map sum]. rewrite map_map, Rplus_0_r. reflexivity.
Qed.

(** ** log_sum_exp *)



(** An empty reduction dimension is refused by [torch.max]. *)
Lemma log_sum_exp_empty : log_sum_exp [[]] = Raise IndexError.
Proof. reflexivity. Qed.

(** ** The two embeddings of log-sum-exp *)

Lemma log_sum_exp_lse_of_row (row : vec) : log_sum_exp [row] = lse_of_row row.
Proof.
  destruct row as [|x row]; [reflexivity|].
  rewrite log_sum_exp_row by discriminate.
  unfold lse_of_row, shifted. now rewrite map_map.
Qed.

Lemma mapM_ext {A B : Type} (f g : A -> res B) (l : list A) :
  (forall a, f a = g a) -> mapM f l = mapM g l.
Proof.
  intros H. induction l as [|a l IH]; simpl; [reflexivity|].
  now rewrite H, IH.
Qed.

Lemma mapM_length {A B : Type} (f : A -> res B) (l : list A) (r : list B) :
  mapM f l = Ok r -> length r = length l.
Proof.
  revert r. induction l as [|a l IH]; simpl; intros r H.
  - now inversion H.
  - destruct (f a); simpl in H; [|discriminate].
    destruct (mapM f l) eqn:E; simpl in H; [|discriminate].
    inversion H. simpl. f_equal. now apply IH.
Qed.

Lemma bvec_scalar (f : R -> R -> R) (row : vec) (m : R) :
  bvec f row [m] = Ok (map (fun x => f x m) row).
Proof.
  unfold bvec. simpl length.
  destruct (length row =? 1)%nat eqn:E.
  - apply Nat.eqb_eq in E. destruct row as [|x [|y row]]; try discriminate.
    reflexivity.
  - reflexivity.
Qed.

Lemma max_dim1_cons (row : vec) (t : mat) :
  row <> [] ->
  max_dim1 (row :: t) = (ms <- max_dim1 t ;; Ok (max_list row :: ms)).
Proof. destruct row; [congruence|reflexivity]. Qed.

Lemma inline_rows (t : mat) :
  (max_tag_var <- max_dim1 t ;;
   d <- mapM2 (bvec Rminus) t (map (fun m => [m]) max_tag_var) ;;
   Ok (zipWith Rplus max_tag_var (map (fun row => ln (sum (map exp row))) d)))
  = mapM lse_of_row t.
Proof.
  induction t as [|row t IH]; [reflexivity|].
  cbn [mapM]. rewrite <- IH. clear IH.
  destruct row as [|x row]; [reflexivity|].
  rewrite max_dim1_cons by discriminate.
  cbn [lse_of_row bind].
  set (r := x :: row).
  destruct (max_dim1 t) as [ms|e]; cbn [bind]; [|reflexivity].
  cbn [map mapM2]. rewrite bvec_scalar. cbn [bind].
  destruct (mapM2 _ t _) as [d|e]; cbn [bind]; reflexivity.
Qed.

Lemma inline_lse_of_row (tag_var : mat) :
  inline_log_sum_exp tag_var
  = (rows <- mapM lse_of_row tag_var ;; Ok [rows]).
Proof.
  rewrite <- inline_rows. unfold inline_log_sum_exp.
  destruct (max_dim1 tag_var) as [ms|e] eqn:E; cbn [bind]; [|reflexivity].
  apply mapM_length in E.
  unfold bmat. rewrite length_map, E, Nat.eqb_refl.
  destruct (mapM2 _ _ _); reflexivity.
Qed.

(** C10: the log-sum-exp written out inside the loop of [forward_alg]
    returns, for every score matrix, the row of the values [log_sum_exp]
    returns on each of its rows, and raises where [log_sum_exp] raises. *)
Theorem inline_log_sum_exp_agrees (tag_var : mat) :
  inline_log_sum_exp tag_var
  = (rows <- mapM (fun row => log_sum_exp [row]) tag_var ;; Ok [rows]).
Proof.
  rewrite (mapM_ext _ lse_of_row) by apply log_sum_exp_lse_of_row.
  apply inline_lse_of_row.
Qed.

(** ** Shapes and broadcasting *)

Lemma mapM_ok {A B : Type} (f : A -> res B) (g : A -> B) (l : list A) :
  (forall a, In a l -> f a = Ok (g a)) -> mapM f l = Ok (map g l).
Proof.
  induction l as [|a l IH]; intros H; [reflexivity|].
  cbn [mapM map]. rewrite H by (now left).
  rewrite IH by (intros; apply H; now right). reflexivity.
Qed.

Lemma mapM2_ok {A B C : Type} (f : A -> B -> res C) (g : A -> B -> C)
    (u : list A) (v : list B) :
  (forall a b, In a u -> In b v -> f a b = Ok (g a b)) ->
  mapM2 f u v = Ok (zipWith g u v).
Proof.
  revert v. induction u as [|a u IH]; intros v H; [reflexivity|].
  destruct v as [|b v]; [reflexivity|].
  cbn [mapM2 zipWith]. rewrite H by (now left).
  rewrite IH by (intros; apply H; now right). reflexivity.
Qed.

Lemma length_zipWith {A B C : Type} (f : A -> B -> C) (u : list A) (v : list B) :
  length (zipWith f u v) = Nat.min (length u) (length v).
Proof.
  revert v. induction u as [|a u IH]; intros [|b v]; simpl; auto.
Qed.

Lemma nth_zipWith {A B C : Type} (f : A -> B -> C) (u : list A) (v : list B)
    (i : nat) (da : A) (db : B) (dc : C) :
  (i < length u)%nat -> (i < length v)%nat ->
  nth i (zipWith f u v) dc = f (nth i u da) (nth i v db).
Proof.
  revert v i. induction u as [|a u IH]; intros [|b v] i Hu Hv;
    simpl in *; try lia.
  destruct i; [reflexivity|]. apply IH; lia.
Qed.

Lemma nth_map_lt {A B : Type} (g : A -> B) (l : list A) (i : nat) (d : B) (d' : A) :
  (i < length l)%nat -> nth i (map g l) d = g (nth i l d').
Proof.
  revert i. induction l as [|a l IH]; intros [|i] H; simpl in *; try lia.
  - reflexivity.
  - apply IH. lia.
Qed.

Lemma bvec_same (f : R -> R -> R) (u v : vec) :
  length u = length v -> bvec f u v = Ok (zipWith f u v).
Proof. intros H. unfold bvec. now rewrite H, Nat.eqb_refl. Qed.

Lemma wf_two (self : BiLSTM_CRF) : wf self -> (2 <= n_tag self)%nat.
Proof. intros [H1 H2 H3 _ _]. lia. Qed.

Lemma wf_row_length (self : BiLSTM_CRF) (i : nat) :
  wf self -> (i < n_tag self)%nat ->
  length (nth i (transitions self) []) = n_tag self.
Proof.
  intros W Hi. pose proof (wf_cols self W) as Hc.
  rewrite Forall_forall in Hc. apply Hc, nth_In.
  now rewrite (wf_rows self W).
Qed.

(** [forward_var + self.transitions] for a 1 x n_tag [forward_var]. *)
Lemma bmat_row_transitions (self : BiLSTM_CRF) (fv : vec) :
  wf self -> length fv = n_tag self ->
  bmat Rplus [fv] (transitions self)
  = Ok (map (zipWith Rplus fv) (transitions self)).
Proof.
  intros W Hfv. pose proof (wf_two self W) as H2.
  unfold bmat. rewrite (wf_rows self W). cbn [length nth].
  destruct (1 =? n_tag self)%nat eqn:E; [apply Nat.eqb_eq in E; lia|].
  cbn [Nat.eqb]. apply mapM_ok. intros row Hin.
  apply bvec_same. pose proof (wf_cols self W) as Hc.
  rewrite Forall_forall in Hc. rewrite Hfv. symmetry. now apply Hc.
Qed.

(** [... + emit_score] for an emission row of n_tag entries. *)
Lemma bmat_emit_full (s : mat) (feat : vec) :
  length feat = length s ->
  bmat Rplus s (map (fun x => [x]) feat)
  = Ok (zipWith (fun row e => map (fun x => x + e) row) s feat).
Proof.
  intros H. unfold bmat. rewrite length_map, H, Nat.eqb_refl.
  revert feat H. induction s as [|row s IH]; intros [|e feat] H;
    simpl in H; try lia; [reflexivity|].
  cbn [map mapM2 zipWith]. rewrite bvec_scalar. cbn [bind].
  rewrite IH by lia. reflexivity.
Qed.

(** [... + emit_score] for an emission row of one entry: it is broadcast
    to every tag. *)
Lemma bmat_emit_one (s : mat) (e : R) :
  (2 <= length s)%nat ->
  bmat Rplus s [[e]] = Ok (map (map (fun x => x + e)) s).
Proof.
  intros H. unfold bmat. cbn [length nth].
  destruct (length s =? 1)%nat eqn:E; [apply Nat.eqb_eq in E; lia|].
  cbn [Nat.eqb]. apply mapM_ok. intros row _. apply bvec_scalar.
Qed.

(** [... + emit_score] for any other emission row: the shapes do not
    broadcast. *)
Lemma bmat_emit_mismatch (s : mat) (feat : vec) :
  (2 <= length s)%nat -> length feat <> length s -> length feat <> 1%nat ->
  bmat Rplus s (map (fun x => [x]) feat) = Raise RuntimeError.
Proof.
  intros H2 Hn H1. unfold bmat. rewrite length_map.
  destruct (length s =? length feat)%nat eqn:E1;
    [apply Nat.eqb_eq in E1; lia|].
  destruct (length s =? 1)%nat eqn:E2; [apply Nat.eqb_eq in E2; lia|].
  destruct (length feat =? 1)%nat eqn:E3; [apply Nat.eqb_eq in E3; lia|].
  reflexivity.
Qed.

Lemma upd_length {A : Type} (i : nat) (x : A) (v : list A) :
  length (upd i x v) = length v.
Proof.
  revert i. induction v as [|y v IH]; intros [|i]; simpl; auto.
Qed.

Lemma nth_upd_same {A : Type} (i : nat) (x d : A) (v : list A) :
  (i < length v)%nat -> nth i (upd i x v) d = x.
Proof.
  revert i. induction v as [|y v IH]; intros [|i] H; simpl in *; try lia.
  - reflexivity.
  - apply IH. lia.
Qed.

Lemma nth_upd_other {A : Type} (i j : nat) (x d : A) (v : list A) :
  i <> j -> nth j (upd i x v) d = nth j v d.
Proof.
  revert i j. induction v as [|y v IH]; intros [|i] [|j] H; simpl;
    try reflexivity; try congruence.
  apply IH. congruence.
Qed.

Lemma init_vvars_length (self : BiLSTM_CRF) :
  length (init_vvars_repaired self) = n_tag self.
Proof. unfold init_vvars_repaired. now rewrite upd_length, repeat_length. Qed.

Lemma init_alphas_ok (self : BiLSTM_CRF) :
  wf self ->
  init_alphas (n_tag self) (START self) = Ok [init_vvars_repaired self].
Proof.
  intros W. unfold init_alphas, setitem. rewrite repeat_length.
  destruct (Nat.ltb_spec (START self) (n_tag self)) as [_|H];
    [reflexivity|].
  pose proof (wf_start self W). lia.
Qed.

(** ** forward_alg_repaired: what it computes and when it raises *)

Lemma mapM_lse_of_row (t : mat) :
  Forall (fun row => row <> []) t -> mapM lse_of_row t = Ok (map shifted t).
Proof.
  intros H. apply mapM_ok. intros row Hin.
  rewrite Forall_forall in H. specialize (H row Hin).
  destruct row; [congruence|reflexivity].
Qed.

Lemma tag_var_of_length (self : BiLSTM_CRF) (fv feat : vec) :
  wf self -> length feat = n_tag self ->
  length (tag_var_of self fv feat) = n_tag self.
Proof.
  intros W Hf. unfold tag_var_of.
  rewrite length_zipWith, length_map, (wf_rows self W), Hf. lia.
Qed.

Lemma tag_var_of_nth (self : BiLSTM_CRF) (fv feat : vec) (i : nat) :
  wf self -> length feat = n_tag self -> (i < n_tag self)%nat ->
  nth i (tag_var_of self fv feat) []
  = map (fun x => x + nth i feat 0)
        (zipWith Rplus fv (nth i (transitions self) [])).
Proof.
  intros W Hf Hi. unfold tag_var_of.
  rewrite (nth_zipWith _ _ _ _ [] 0)
    by (rewrite ?length_map, ?(wf_rows self W); lia).
  f_equal. apply nth_map_lt. rewrite (wf_rows self W). lia.
Qed.

Lemma tag_var_of_rows (self : BiLSTM_CRF) (fv feat : vec) :
  wf self -> length fv = n_tag self -> length feat = n_tag self ->
  Forall (fun row => length row = n_tag self) (tag_var_of self fv feat).
Proof.
  intros W Hfv Hf. apply Forall_forall. intros row Hin.
  apply In_nth with (d := []) in Hin. destruct Hin as [i [Hi <-]].
  rewrite tag_var_of_length in Hi by assumption.
  rewrite tag_var_of_nth by assumption.
  rewrite length_map, length_zipWith, Hfv, wf_row_length by assumption. lia.
Qed.

Lemma forward_step_ok (self : BiLSTM_CRF) (fv feat : vec) :
  wf self -> length fv = n_tag self -> length feat = n_tag self ->
  forward_step self [fv] feat = Ok [alpha_step self fv feat].
Proof.
  intros W Hfv Hf. unfold forward_step.
  rewrite bmat_row_transitions by assumption. cbn [bind].
  rewrite bmat_emit_full by (now rewrite length_map, (wf_rows self W)).
  cbn [bind]. rewrite inline_lse_of_row.
  fold (tag_var_of self fv feat).
  rewrite mapM_lse_of_row; [reflexivity|].
  pose proof (tag_var_of_rows self fv feat W Hfv Hf) as Hr.
  pose proof (wf_two self W).
  eapply Forall_impl; [|exact Hr]. intros row Hl Hn. subst. simpl in Hl. lia.
Qed.

Lemma alpha_step_length (self : BiLSTM_CRF) (fv feat : vec) :
  wf self -> length feat = n_tag self ->
  length (alpha_step self fv feat) = n_tag self.
Proof.
  intros W Hf. unfold alpha_step. rewrite length_map.
  now apply tag_var_of_length.
Qed.

Lemma forward_loop_ok (self : BiLSTM_CRF) (feats : mat) (fv : vec) :
  wf self -> length fv = n_tag self ->
  Forall (fun row => length row = n_tag self) feats ->
  forward_loop self [fv] feats = Ok [alphas self fv feats].
Proof.
  intros W. revert fv. induction feats as [|feat rest IH]; intros fv Hfv HF;
    [reflexivity|].
  inversion HF as [|? ? Hf Hrest]; subst.
  cbn [forward_loop alphas]. rewrite forward_step_ok by assumption.
  cbn [bind]. apply IH; [|assumption]. now apply alpha_step_length.
Qed.

Lemma alphas_length (self : BiLSTM_CRF) (feats : mat) (fv : vec) :
  wf self -> length fv = n_tag self ->
  Forall (fun row => length row = n_tag self) feats ->
  length (alphas self fv feats) = n_tag self.
Proof.
  intros W. revert fv. induction feats as [|feat rest IH]; intros fv Hfv HF;
    [assumption|].
  inversion HF; subst. cbn [alphas]. apply IH; [|assumption].
  now apply alpha_step_length.
Qed.

(** The tail of [forward_alg_repaired]: add the row of [transitions] into STOP and
    collapse with [log_sum_exp]. *)
Lemma terminal_ok (self : BiLSTM_CRF) (fv : vec) :
  wf self -> length fv = n_tag self ->
  (t <- bmat Rplus [fv] [nth (STOP self) (transitions self) []] ;;
   log_sum_exp [concat t])
  = Ok (ln (sum (map exp
         (zipWith Rplus fv (nth (STOP self) (transitions self) []))))).
Proof.
  intros W Hfv. pose proof (wf_two self W) as H2.
  unfold bmat. cbn [length Nat.eqb mapM2].
  rewrite bvec_same
    by (now rewrite Hfv, wf_row_length by (try apply W; assumption)).
  cbn [bind concat]. rewrite app_nil_r.
  set (tv := zipWith _ _ _).
  assert (Htv : tv <> []).
  { intros E. assert (L : length tv = n_tag self).
    { unfold tv. rewrite length_zipWith, Hfv, wf_row_length
        by (try apply W; assumption). lia. }
    rewrite E in L. simpl in L. lia. }
  rewrite log_sum_exp_row by assumption. now rewrite shifted_lse.
Qed.

Lemma forward_alg_ok (self : BiLSTM_CRF) (feats : mat) :
  wf self ->
  Forall (fun row => length row = n_tag self) feats ->
  forward_alg_repaired self feats
  = Ok (ln (sum (map exp
         (zipWith Rplus (alphas self (init_vvars_repaired self) feats)
                        (nth (STOP self) (transitions self) []))))).
Proof.
  intros W HF. unfold forward_alg_repaired.
  rewrite init_alphas_ok by assumption. cbn [bind]. unfold forward_alg_from.
  rewrite forward_loop_ok by (auto using init_vvars_length).
  cbn [bind]. apply terminal_ok; [assumption|].
  apply alphas_length; auto using init_vvars_length.
Qed.

Lemma demo_wf : wf demo.
Proof.
  split; simpl; try lia. repeat constructor.
Qed.

Lemma quad_wf : wf quad.
Proof.
  split; simpl; try lia. repeat constructor.
Qed.

Lemma forward_step_mismatch (self : BiLSTM_CRF) (fv feat : vec) :
  wf self -> length fv = n_tag self ->
  length feat <> n_tag self -> length feat <> 1%nat ->
  forward_step self [fv] feat = Raise RuntimeError.
Proof.
  intros W Hfv Hn H1. pose proof (wf_two self W) as H2.
  unfold forward_step. rewrite bmat_row_transitions by assumption.
  cbn [bind]. rewrite bmat_emit_mismatch; [reflexivity|..];
    rewrite ?length_map, ?(wf_rows self W); assumption.
Qed.

(** The methods as written raise on every input. *)
Lemma forward_alg_raises (self : BiLSTM_CRF) (feats : mat) :
  forward_alg self feats = Raise AttributeError.
Proof. reflexivity. Qed.




(** The recursion that [forward_alg] spells out, with [size_tag] read as
    [n_tag], raises when the first emission row has neither n_tag entries
    nor one entry; with no emission row it returns the log-sum-exp of the
    initial scores plus the row of [transitions] into STOP. *)
Lemma forward_alg_shape_errors (self : BiLSTM_CRF) (feats : mat) :
  wf self ->
  (forall feat rest, feats = feat :: rest ->
     length feat <> n_tag self -> length feat <> 1%nat ->
     forward_alg_repaired self feats = Raise RuntimeError)
  /\ (feats = [] ->
      forward_alg_repaired self feats
      = Ok (ln (sum (map exp
             (zipWith Rplus (init_vvars_repaired self)
                            (nth (STOP self) (transitions self) [])))))).
Proof.
  intros W. split.
  - intros feat rest -> Hn H1. unfold forward_alg_repaired.
    rewrite init_alphas_ok by assumption. cbn [bind].
    unfold forward_alg_from. cbn [forward_loop].
    rewrite forward_step_mismatch;
      [reflexivity|assumption| |assumption|assumption].
    apply init_vvars_length.
  - intros ->. now rewrite forward_alg_ok by (auto; constructor).
Qed.

Lemma forward_alg_shape_errors_witness :
  wf demo /\ forward_alg_repaired demo [[1; 2]] = Raise RuntimeError.
Proof.
  split; [exact demo_wf|].
  apply (proj1 (forward_alg_shape_errors demo [[1; 2]] demo_wf) [1; 2] []);
    [reflexivity|simpl; lia|simpl; lia].
Defined.

(** With no emission row [forward_alg_repaired] returns. *)
Lemma forward_alg_empty_returns :
  wf demo
  /\ forward_alg_repaired demo []
     = Ok (ln (sum (map exp [0 + 0; -10000 + 0; -10000 + -10000]))).
Proof.
  split; [exact demo_wf|].
  rewrite forward_alg_ok by (auto using demo_wf). reflexivity.
Qed.

(** ** score_sentences *)

Lemma norm_index_ok (n : nat) (i : Z) :
  (0 <= i < Z.of_nat n)%Z -> norm_index n i = Ok (Z.to_nat i).
Proof.
  intros H. unfold norm_index.
  replace (0 <=? i)%Z with true by (symmetry; apply Z.leb_le; lia).
  replace (i <? Z.of_nat n)%Z with true by (symmetry; apply Z.ltb_lt; lia).
  reflexivity.
Qed.

Lemma norm_index_nat (n k : nat) :
  (k < n)%nat -> norm_index n (Z.of_nat k) = Ok k.
Proof.
  intros H. rewrite norm_index_ok by lia. now rewrite Nat2Z.id.
Qed.

Lemma norm_index_out (n : nat) (i : Z) :
  (i < - Z.of_nat n \/ Z.of_nat n <= i)%Z -> norm_index n i = Raise IndexError.
Proof.
  intros H. unfold norm_index.
  destruct ((0 <=? i) && (i <? Z.of_nat n))%Z eqn:E1.
  { apply andb_true_iff in E1. destruct E1 as [A B].
    apply Z.leb_le in A. apply Z.ltb_lt in B. lia. }
  destruct ((- Z.of_nat n <=? i) && (i <? 0))%Z eqn:E2; [|reflexivity].
  apply andb_true_iff in E2. destruct E2 as [A B].
  apply Z.leb_le in A. apply Z.ltb_lt in B. lia.
Qed.

Lemma norm_index_wrap (n : nat) (i : Z) :
  (- Z.of_nat n <= i)%Z -> norm_index n i = norm_index n (wrap n i).
Proof.
  intros H. unfold wrap. destruct (i <? 0)%Z eqn:E; [|reflexivity].
  apply Z.ltb_lt in E. rewrite (norm_index_ok n (i + Z.of_nat n)) by lia.
  unfold norm_index.
  replace (0 <=? i)%Z with false by (symmetry; apply Z.leb_gt; lia).
  cbn [andb].
  replace (- Z.of_nat n <=? i)%Z with true by (symmetry; apply Z.leb_le; lia).
  replace (i <? 0)%Z with true by (symmetry; apply Z.ltb_lt; lia).
  reflexivity.
Qed.

Lemma norm_index_error (n : nat) (i : Z) (e : exn) :
  norm_index n i = Raise e -> e = IndexError.
Proof.
  unfold norm_index. destruct (_ && _); [discriminate|].
  destruct (_ && _); [discriminate|]. now inversion 1.
Qed.

(** Every pair of the two index tensors of [transitions[pad_stop_tags,
    pad_start_tags]], for a gold sequence given by tag numbers. *)
Lemma transitions_lookup (self : BiLSTM_CRF) (tags : list nat) (prev : nat) :
  wf self -> (prev < n_tag self)%nat ->
  Forall (fun t => (t < n_tag self)%nat) tags ->
  index2 (transitions self)
         (map Z.of_nat tags ++ [Z.of_nat (STOP self)])
         (Z.of_nat prev :: map Z.of_nat tags)
  = Ok (map (fun ft => nth (fst ft) (nth (snd ft) (transitions self) []) 0)
            (pairs (prev :: tags ++ [STOP self]))).
Proof.
  intros W Hp Ht. unfold index2, bidx.
  replace (length (map Z.of_nat tags ++ [Z.of_nat (STOP self)])
           =? length (Z.of_nat prev :: map Z.of_nat tags))%nat with true
    by (symmetry; apply Nat.eqb_eq; rewrite length_app; simpl; lia).
  cbn [bind]. rewrite (wf_rows self W).
  rewrite (wf_row_length self 0 W) by (pose proof (wf_two self W); lia).
  revert prev Hp. induction Ht as [|t ts Hlt Hts IH]; intros prev Hp.
  - cbn [map app combine mapM fst snd pairs tl].
    rewrite !norm_index_nat by (try apply W; assumption). reflexivity.
  - cbn [map app combine mapM fst snd].
    rewrite !norm_index_nat by assumption. cbn [bind].
    rewrite IH by assumption. reflexivity.
Qed.

(** Every pair of the two index tensors of [feats[r, tags]]; the rows of
    [feats] are numbered from [k] on within a larger tensor [F]. *)
Lemma feats_lookup (F feats : mat) (n k : nat) (tags : list nat) :
  (forall i, (i < length feats)%nat -> nth (k + i) F [] = nth i feats []) ->
  (k + length feats <= length F)%nat ->
  length tags = length feats ->
  Forall (fun t => (t < n)%nat) tags ->
  mapM (fun p => i <- norm_index (length F) (fst p) ;;
                 j <- norm_index n (snd p) ;;
                 Ok (nth j (nth i F []) 0))
       (combine (map Z.of_nat (seq k (length feats))) (map Z.of_nat tags))
  = Ok (zipWith (fun row t => nth t row 0) feats tags).
Proof.
  revert k tags. induction feats as [|feat fs IH]; intros k tags HF Hk Hl Ht.
  - reflexivity.
  - destruct tags as [|t ts]; [discriminate|].
    inversion Ht; subst. simpl in Hk, Hl.
    cbn [length seq map combine mapM fst snd zipWith].
    rewrite !norm_index_nat by (assumption || lia). cbn [bind].
    rewrite (IH (S k) ts); try assumption; try lia.
    + specialize (HF O). rewrite Nat.add_0_r in HF.
      rewrite HF by (simpl; lia). reflexivity.
    + intros i Hi. specialize (HF (S i)).
      rewrite Nat.add_succ_r in HF. rewrite Nat.add_succ_l.
      apply HF. simpl. lia.
Qed.

Lemma gold_walk (self : BiLSTM_CRF) (feats : mat) (tags : list nat) (prev : nat) :
  length tags = length feats ->
  transition_sum self (prev :: tags ++ [STOP self]) + emission_sum feats tags
  = walk self prev feats tags.
Proof.
  revert tags prev. induction feats as [|feat fs IH]; intros [|t ts] prev Hl;
    try discriminate.
  - unfold transition_sum, emission_sum. simpl. ring.
  - simpl in Hl. cbn [walk]. rewrite <- (IH ts t) by lia.
    unfold transition_sum, emission_sum, pairs.
    cbn [app tl combine map sum fst snd zipWith]. ring.
Qed.

(** [score_sentences] on a gold sequence of tag numbers below n_tag. *)
Lemma score_sentences_ok (self : BiLSTM_CRF) (feats : mat) (tags : list nat) :
  wf self ->
  Forall (fun row => length row = n_tag self) feats ->
  length tags = length feats ->
  Forall (fun t => (t < n_tag self)%nat) tags ->
  score_sentences self feats (map Z.of_nat tags) = Ok (gold self feats tags).
Proof.
  intros W HF Hl Ht. unfold score_sentences.
  rewrite transitions_lookup by (try apply W; assumption). cbn [bind].
  unfold index2, bidx. rewrite !length_map, length_seq.
  replace (length feats =? length tags)%nat with true
    by (symmetry; apply Nat.eqb_eq; lia).
  cbn [bind].
  rewrite (feats_lookup feats feats (length (nth 0 feats [])) 0 tags).
  - reflexivity.
  - intros; reflexivity.
  - simpl; lia.
  - assumption.
  - destruct feats as [|feat fs].
    + destruct tags; [constructor|discriminate].
    + inversion HF as [|? ? Hf ?]; subst. cbn [nth]. now rewrite Hf.
Qed.

Lemma map_of_nat_to_nat (n : nat) (tags : list Z) :
  Forall (fun t => (0 <= t < Z.of_nat n)%Z) tags ->
  map Z.of_nat (map Z.to_nat tags) = tags
  /\ Forall (fun t => (t < n)%nat) (map Z.to_nat tags).
Proof.
  induction 1 as [|t ts Ht _ [IH1 IH2]]; [split; constructor|].
  cbn [map]. split.
  - rewrite IH1. f_equal. lia.
  - constructor; [lia|assumption].
Qed.

(** C4: on a gold sequence of L tag ids in [0, n_tag) and an L x n_tag
    emission matrix, [score_sentences] returns the sum of
    [transitions[to][from]] over the L+1 consecutive pairs of the sequence
    padded with START and STOP, plus the sum of [feats[t][tags[t]]]. *)
Theorem score_sentences_sum (self : BiLSTM_CRF) (feats : mat) (tags : list Z) :
  wf self ->
  Forall (fun row => length row = n_tag self) feats ->
  length tags = length feats ->
  Forall (fun t => (0 <= t < Z.of_nat (n_tag self))%Z) tags ->
  score_sentences self feats tags
  = Ok (transition_sum self (padded self (map Z.to_nat tags))
        + emission_sum feats (map Z.to_nat tags))
  /\ length (pairs (padded self (map Z.to_nat tags))) = S (length feats).
Proof.
  intros W HF Hl Ht.
  destruct (map_of_nat_to_nat _ _ Ht) as [E Hn]. split.
  - rewrite <- E at 1.
    rewrite score_sentences_ok; [reflexivity|assumption..| |assumption].
    now rewrite length_map.
  - unfold pairs, padded. cbn [tl].
    rewrite length_combine. cbn [length].
    rewrite length_app, length_map. cbn [length]. lia.
Qed.

Lemma score_sentences_sum_witness :
  score_sentences demo [[0; 1; 0]; [0; 2; 0]] [1%Z; 1%Z]
  = Ok (transition_sum demo (padded demo [1%nat; 1%nat])
        + emission_sum [[0; 1; 0]; [0; 2; 0]] [1%nat; 1%nat]).
Proof.
  apply (score_sentences_sum demo [[0; 1; 0]; [0; 2; 0]] [1%Z; 1%Z] demo_wf).
  - repeat constructor.
  - reflexivity.
  - repeat constructor; simpl; lia.
Defined.

Lemma mapM_raise {A B : Type} (f : A -> res B) (l : list A) (a : A) :
  (forall x e, f x = Raise e -> e = IndexError) ->
  In a l -> f a = Raise IndexError -> mapM f l = Raise IndexError.
Proof.
  intros Hf. induction l as [|x l IH]; intros Hin Ha; [contradiction|].
  cbn [mapM]. destruct (f x) as [b|e] eqn:E.
  - cbn [bind]. destruct Hin as [->|Hin]; [congruence|].
    now rewrite IH.
  - cbn [bind]. now rewrite (Hf x e E).
Qed.

Lemma combine_In_l {A B : Type} (l : list A) (l' : list B) (a : A) :
  (length l <= length l')%nat -> In a l -> exists b, In (a, b) (combine l l').
Proof.
  revert l'. induction l as [|x l IH]; intros [|y l'] Hl Hin;
    simpl in *; try contradiction; try lia.
  destruct Hin as [->|Hin].
  - exists y. now left.
  - destruct (IH l') as [b Hb]; [lia|assumption|]. exists b. now right.
Qed.

Lemma wrap_of_nat (n k : nat) : wrap n (Z.of_nat k) = Z.of_nat k.
Proof.
  unfold wrap. destruct (Z.of_nat k <? 0)%Z eqn:E; [|reflexivity].
  apply Z.ltb_lt in E. lia.
Qed.

Lemma index2_wrap (t : mat) (I J : list Z) :
  length I = length J ->
  Forall (fun i => (- Z.of_nat (length t) <= i)%Z) I ->
  Forall (fun j => (- Z.of_nat (length (nth 0 t [])) <= j)%Z) J ->
  index2 t I J
  = index2 t (map (wrap (length t)) I) (map (wrap (length (nth 0 t []))) J).
Proof.
  intros Hl HI HJ. unfold index2, bidx.
  rewrite !length_map, Hl, Nat.eqb_refl. cbn [bind].
  revert J Hl HJ. induction HI as [|i I Hi _ IH]; intros [|j J] Hl HJ;
    try discriminate; [reflexivity|].
  inversion HJ; subst. cbn [map combine mapM fst snd].
  rewrite <- !norm_index_wrap by assumption.
  rewrite IH by (simpl in Hl; auto; lia). reflexivity.
Qed.

(** C6, as the code has it: a tag id at or above n_tag, or below -n_tag,
    makes [score_sentences] raise IndexError; an id in [-n_tag, 0) is not
    refused: it is counted from the end, and the score is that of the
    sequence with n_tag added to every negative id. *)
Theorem score_sentences_index (self : BiLSTM_CRF) (feats : mat) (tags : list Z) :
  wf self ->
  (forall t, In t tags ->
     (t < - Z.of_nat (n_tag self) \/ Z.of_nat (n_tag self) <= t)%Z ->
     score_sentences self feats tags = Raise IndexError)
  /\ (Forall (fun row => length row = n_tag self) feats ->
      length tags = length feats ->
      Forall (fun t => (- Z.of_nat (n_tag self) <= t)%Z) tags ->
      score_sentences self feats tags
      = score_sentences self feats (map (wrap (n_tag self)) tags)).
Proof.
  intros W. pose proof (wf_two self W) as H2. split.
  - intros t Hin Hout. unfold score_sentences, index2 at 1, bidx.
    replace (length (tags ++ [Z.of_nat (STOP self)])
             =? length (Z.of_nat (START self) :: tags))%nat with true
      by (symmetry; apply Nat.eqb_eq; rewrite length_app; simpl; lia).
    cbn [bind].
    destruct (combine_In_l (tags ++ [Z.of_nat (STOP self)])
                (Z.of_nat (START self) :: tags) t) as [b Hb].
    { rewrite length_app. simpl. lia. }
    { apply in_or_app. now left. }
    erewrite mapM_raise; [reflexivity| |exact Hb|].
    + intros x e Hx. destruct (norm_index _ (fst x)) eqn:E1; cbn [bind] in Hx.
      * destruct (norm_index _ (snd x)) eqn:E3; cbn [bind] in Hx;
          [discriminate|]. inversion Hx; subst.
        now apply norm_index_error in E3.
      * inversion Hx; subst. now apply norm_index_error in E1.
    + cbn [fst]. rewrite (wf_rows self W), norm_index_out by assumption.
      reflexivity.
  - intros HF Hl Ht. unfold score_sentences.
    rewrite (index2_wrap (transitions self)).
    + rewrite (wf_rows self W), (wf_row_length self 0 W) by lia.
      rewrite map_app. cbn [map]. rewrite !wrap_of_nat.
      destruct (index2 (transitions self) _ _); cbn [bind]; [|reflexivity].
      destruct feats as [|feat fs].
      * destruct tags; [reflexivity|discriminate].
      * rewrite (index2_wrap (feat :: fs)).
        -- inversion HF as [|? ? Hf ?]; subst. cbn [nth]. rewrite Hf.
           replace (map (wrap (length (feat :: fs)))
                        (map Z.of_nat (seq 0 (length (feat :: fs)))))
             with (map Z.of_nat (seq 0 (length (feat :: fs)))).
           ++ reflexivity.
           ++ rewrite map_map. apply map_ext. intros k.
              now rewrite wrap_of_nat.
        -- now rewrite length_map, length_seq.
        -- apply Forall_forall. intros i Hi. apply in_map_iff in Hi.
           destruct Hi as [k [<- _]]. lia.
        -- inversion HF as [|? ? Hf ?]; subst. cbn [nth]. now rewrite Hf.
    + rewrite length_app. simpl. lia.
    + rewrite (wf_rows self W). apply Forall_app. split; [assumption|].
      constructor; [lia|constructor].
    + rewrite (wf_row_length self 0 W) by lia.
      constructor; [lia|assumption].
Qed.

Lemma score_sentences_index_witness :
  score_sentences demo [[1; 2; 3]] [3%Z] = Raise IndexError.
Proof.
  apply (proj1 (score_sentences_index demo [[1; 2; 3]] [3%Z] demo_wf) 3%Z).
  - now left.
  - right. simpl. lia.
Defined.

(** C6 fails as stated: the id -1 is accepted and read as the last tag. *)
Lemma score_sentences_accepts_negative :
  wf demo
  /\ score_sentences demo [[1; 2; 3]] [(-1)%Z]
     = Ok (0 + (-10000 + 0) + (3 + 0)).
Proof. split; [exact demo_wf|reflexivity]. Qed.

(** ** The partition function dominates every path *)

Lemma ln_le (x y : R) : 0 < x -> x <= y -> ln x <= ln y.
Proof.
  intros Hx [Hlt | ->]; [|lra]. left. now apply ln_increasing.
Qed.

Lemma sum_exp_nonneg (v : vec) : 0 <= sum (map exp v).
Proof.
  induction v as [|x v IH]; simpl; [lra|].
  pose proof (exp_pos x). lra.
Qed.

Lemma lse_ge_nth (v : vec) (i : nat) :
  (i < length v)%nat -> nth i v 0 <= ln (sum (map exp v)).
Proof.
  intros Hi. rewrite <- (ln_exp (nth i v 0)).
  apply ln_le; [apply exp_pos|].
  revert i Hi. induction v as [|x v IH]; intros [|i] Hi; simpl in *; try lia.
  - pose proof (sum_exp_nonneg v). lra.
  - pose proof (exp_pos x). specialize (IH i ltac:(lia)). lra.
Qed.

Lemma shifted_eq (v : vec) : v <> [] -> shifted v = ln (sum (map exp v)).
Proof.
  intros Hv. unfold shifted. rewrite map_map. now apply shifted_lse.
Qed.

Lemma alpha_step_ge (self : BiLSTM_CRF) (fv feat : vec) (t prev : nat) :
  wf self -> length fv = n_tag self -> length feat = n_tag self ->
  (t < n_tag self)%nat -> (prev < n_tag self)%nat ->
  nth prev fv 0 + nth prev (nth t (transitions self) []) 0 + nth t feat 0
  <= nth t (alpha_step self fv feat) 0.
Proof.
  intros W Hfv Hf Ht Hp. unfold alpha_step.
  rewrite (nth_map_lt shifted _ _ 0 [])
    by (now rewrite tag_var_of_length).
  rewrite tag_var_of_nth by assumption.
  set (row := map _ _).
  assert (Hlen : length row = n_tag self).
  { unfold row. rewrite length_map, length_zipWith, Hfv, wf_row_length
      by assumption. lia. }
  assert (Hrow : nth prev row 0
                 = nth prev fv 0 + nth prev (nth t (transitions self) []) 0
                   + nth t feat 0).
  { unfold row. rewrite (nth_map_lt _ _ _ 0 0)
      by (rewrite length_zipWith, Hfv, wf_row_length by assumption; lia).
    f_equal. apply nth_zipWith; rewrite ?Hfv, ?wf_row_length by assumption;
      lia. }
  rewrite <- Hrow, shifted_eq.
  - apply lse_ge_nth. lia.
  - intros E. rewrite E in Hlen. simpl in Hlen. lia.
Qed.

Lemma alphas_dominate (self : BiLSTM_CRF) (feats : mat) :
  wf self ->
  Forall (fun row => length row = n_tag self) feats ->
  forall (fv : vec) (prev : nat) (tags : list nat),
    length fv = n_tag self -> (prev < n_tag self)%nat ->
    length tags = length feats ->
    Forall (fun t => (t < n_tag self)%nat) tags ->
    nth prev fv 0 + walk self prev feats tags
    <= ln (sum (map exp
            (zipWith Rplus (alphas self fv feats)
                           (nth (STOP self) (transitions self) [])))).
Proof.
  intros W HF. induction HF as [|feat fs Hf _ IH];
    intros fv prev tags Hfv Hp Hl Ht.
  - destruct tags; [|discriminate]. cbn [walk alphas].
    assert (Hs : length (nth (STOP self) (transitions self) []) = n_tag self)
      by (apply wf_row_length; [assumption|apply W]).
    rewrite <- (nth_zipWith Rplus fv _ prev 0 0 0) by lia.
    apply lse_ge_nth. rewrite length_zipWith. lia.
  - destruct tags as [|t ts]; [discriminate|].
    inversion Ht as [|? ? Htl Hts]; subst. simpl in Hl.
    cbn [walk alphas].
    pose proof (alpha_step_ge self fv feat t prev W Hfv Hf Htl Hp) as Hstep.
    specialize (IH (alpha_step self fv feat) t ts
                   (alpha_step_length self fv feat W Hf) Htl
                   ltac:(lia) Hts).
    lra.
Qed.

(** C2: [forward_alg] as written returns no log partition function, it
    raises at line 242, which reads [self.size_tag].  With [size_tag] read
    as [n_tag], on an L x n_tag emission matrix, the log partition function
    it returns is at least the score [score_sentences] returns for any
    gold sequence of L tag ids in [0, n_tag). *)
Theorem partition_dominates (self : BiLSTM_CRF) (feats : mat) (tags : list Z) :
  forward_alg self feats = Raise AttributeError
  /\ (wf self ->
      Forall (fun row => length row = n_tag self) feats ->
      length tags = length feats ->
      Forall (fun t => (0 <= t < Z.of_nat (n_tag self))%Z) tags ->
      exists z g,
        forward_alg_repaired self feats = Ok z
        /\ score_sentences self feats tags = Ok g
        /\ g <= z).
Proof.
  split; [apply forward_alg_raises|].
  intros W HF Hl Ht.
  destruct (map_of_nat_to_nat _ _ Ht) as [E Hn].
  eexists. exists (gold self feats (map Z.to_nat tags)).
  split; [now apply forward_alg_ok|]. split.
  - rewrite <- E at 1. apply score_sentences_ok; try assumption.
    now rewrite length_map.
  - unfold gold, padded. rewrite gold_walk by (now rewrite length_map).
    pose proof (alphas_dominate self feats W HF (init_vvars_repaired self)
                  (START self) (map Z.to_nat tags)
                  (init_vvars_length self) (wf_start self W)
                  ltac:(now rewrite length_map) Hn) as H.
    unfold init_vvars_repaired in H at 1.
    rewrite nth_upd_same in H
      by (rewrite repeat_length; apply W).
    lra.
Qed.

Lemma partition_dominates_witness :
  forward_alg quad quad_feats = Raise AttributeError
  /\ exists z g,
       forward_alg_repaired quad quad_feats = Ok z
       /\ score_sentences quad quad_feats [1%Z; 2%Z] = Ok g
       /\ g <= z.
Proof.
  split; [apply (partition_dominates quad quad_feats [1%Z; 2%Z])|].
  apply (proj2 (partition_dominates quad quad_feats [1%Z; 2%Z]) quad_wf).
  - repeat constructor.
  - reflexivity.
  - repeat constructor; simpl; lia.
Defined.

(** ** viterbi_decode_repaired: the loop in closed form *)

Lemma zipWith_repeat_l {A B C : Type} (f : A -> B -> C) (a : A) (n : nat)
    (l : list B) :
  (length l <= n)%nat -> zipWith f (repeat a n) l = map (f a) l.
Proof.
  revert n. induction l as [|b l IH]; intros [|n] H; simpl in *;
    try reflexivity; try lia.
  f_equal. apply IH. lia.
Qed.

Lemma zipWith_map_r {A B C : Type} (f : A -> B -> C) (g : A -> B) (l : list A) :
  zipWith f l (map g l) = map (fun x => f x (g x)) l.
Proof. induction l as [|a l IH]; simpl; [reflexivity|now rewrite IH]. Qed.

Lemma next_of_length (self : BiLSTM_CRF) (fv : vec) :
  wf self -> length (next_of self fv) = n_tag self.
Proof. intros W. unfold next_of. now rewrite length_map, (wf_rows self W). Qed.

Lemma next_of_nth (self : BiLSTM_CRF) (fv : vec) (i : nat) :
  wf self -> (i < n_tag self)%nat ->
  nth i (next_of self fv) [] = zipWith Rplus fv (nth i (transitions self) []).
Proof.
  intros W Hi. unfold next_of. apply nth_map_lt.
  now rewrite (wf_rows self W).
Qed.

Lemma next_of_rows (self : BiLSTM_CRF) (fv : vec) :
  wf self -> length fv = n_tag self ->
  Forall (fun row => length row = n_tag self) (next_of self fv).
Proof.
  intros W Hfv. apply Forall_forall. intros row Hin.
  apply In_nth with (d := []) in Hin. destruct Hin as [i [Hi <-]].
  rewrite next_of_length in Hi by assumption.
  rewrite next_of_nth by assumption.
  rewrite length_zipWith, Hfv, wf_row_length by assumption. lia.
Qed.

Lemma viterbi_step_ok (self : BiLSTM_CRF) (fv feat : vec) :
  wf self -> length fv = n_tag self -> length feat = n_tag self ->
  viterbi_step_repaired self fv feat = Ok (delta_step self fv feat, bptrs_of self fv).
Proof.
  intros W Hfv Hf. pose proof (wf_two self W) as H2.
  unfold viterbi_step_repaired, expand. rewrite Hfv, Nat.eqb_refl. cbn [bind].
  unfold bmat. rewrite repeat_length, (wf_rows self W), Nat.eqb_refl.
  rewrite (mapM2_ok _ (zipWith Rplus)).
  2:{ intros a b Ha Hb. apply repeat_spec in Ha. subst a.
      apply bvec_same. pose proof (wf_cols self W) as Hc.
      rewrite Forall_forall in Hc. rewrite (Hc b Hb). assumption. }
  rewrite zipWith_repeat_l by (rewrite (wf_rows self W); lia).
  fold (next_of self fv). cbn [bind].
  unfold argmax_dim1. rewrite (mapM_ok _ argmax_list).
  2:{ intros row Hin. pose proof (next_of_rows self fv W Hfv) as Hr.
      rewrite Forall_forall in Hr. specialize (Hr row Hin).
      destruct row; [simpl in Hr; lia|reflexivity]. }
  cbn [bind]. rewrite zipWith_map_r.
  rewrite (map_ext _ max_list)
    by (intros row; symmetry; apply max_list_argmax).
  rewrite bvec_same
    by (now rewrite length_map, next_of_length, Hf).
  reflexivity.
Qed.

Lemma delta_step_length (self : BiLSTM_CRF) (fv feat : vec) :
  wf self -> length feat = n_tag self ->
  length (delta_step self fv feat) = n_tag self.
Proof.
  intros W Hf. unfold delta_step.
  rewrite length_zipWith, length_map, next_of_length, Hf by assumption. lia.
Qed.

Lemma viterbi_loop_ok (self : BiLSTM_CRF) (feats : mat) :
  wf self ->
  Forall (fun row => length row = n_tag self) feats ->
  forall (fv : vec) (acc : list (list nat)),
    length fv = n_tag self ->
    viterbi_loop_repaired self fv acc feats
    = Ok (deltas self fv feats, acc ++ bps_of self fv feats).
Proof.
  intros W HF. induction HF as [|feat rest Hf _ IH]; intros fv acc Hfv.
  - cbn [viterbi_loop_repaired deltas bps_of]. now rewrite app_nil_r.
  - cbn [viterbi_loop_repaired deltas bps_of].
    rewrite viterbi_step_ok by assumption. cbn [bind].
    rewrite IH by (now apply delta_step_length).
    now rewrite <- app_assoc.
Qed.

Lemma deltas_length (self : BiLSTM_CRF) (feats : mat) :
  wf self ->
  Forall (fun row => length row = n_tag self) feats ->
  forall fv : vec, length fv = n_tag self ->
    length (deltas self fv feats) = n_tag self.
Proof.
  intros W HF. induction HF as [|feat rest Hf _ IH]; intros fv Hfv;
    [assumption|].
  cbn [deltas]. apply IH. now apply delta_step_length.
Qed.

Lemma follow_back (bps : list (list nat)) (b : nat) (path : list nat) :
  follow bps b path = path ++ tl (back bps b).
Proof.
  revert b path. induction bps as [|bp rest IH]; intros b path.
  - cbn [follow back tl]. now rewrite app_nil_r.
  - cbn [follow back tl]. rewrite IH, <- app_assoc.
    f_equal. destruct rest; reflexivity.
Qed.

Lemma terminal_of_length (self : BiLSTM_CRF) (fv : vec) :
  wf self -> length fv = n_tag self ->
  length (terminal_of self fv) = n_tag self.
Proof.
  intros W Hfv. unfold terminal_of.
  rewrite !upd_length, length_zipWith, Hfv, wf_row_length
    by (try apply W; assumption). lia.
Qed.

(** [viterbi_decode_repaired] on an emission matrix with at least one row, all rows
    of n_tag entries. *)
Lemma viterbi_decode_ok (self : BiLSTM_CRF) (feats : mat) :
  wf self -> feats <> [] ->
  Forall (fun row => length row = n_tag self) feats ->
  let terminal_var := terminal_of self (deltas self (init_vvars_repaired self) feats) in
  let best := argmax_list terminal_var in
  let chain := back (rev (bps_of self (init_vvars_repaired self) feats)) best in
  viterbi_decode_repaired self feats
  = if (last chain O =? START self)%nat
    then Ok (nth best terminal_var 0, rev (removelast chain))
    else Raise AssertionError.
Proof.
  intros W Hne HF. cbv zeta. unfold viterbi_decode_repaired, viterbi_from_repaired.
  destruct feats as [|feat rest]; [congruence|].
  set (feats := feat :: rest) in *.
  rewrite viterbi_loop_ok by (auto using init_vvars_length).
  cbn [bind app].
  set (fv := deltas self (init_vvars_repaired self) feats).
  assert (Hfv : length fv = n_tag self)
    by (apply deltas_length; auto using init_vvars_length).
  assert (Hs : length (nth (STOP self) (transitions self) []) = n_tag self)
    by (apply wf_row_length; [assumption|apply W]).
  rewrite bvec_same by lia. cbn [bind].
  unfold setitem.
  assert (Hz : length (zipWith Rplus fv (nth (STOP self) (transitions self) []))
               = n_tag self)
    by (rewrite length_zipWith; lia).
  replace (STOP self <? length _)%nat with true
    by (symmetry; apply Nat.ltb_lt; rewrite Hz; apply W).
  cbn [bind].
  replace (START self <? length _)%nat with true
    by (symmetry; apply Nat.ltb_lt; rewrite upd_length, Hz; apply W).
  cbn [bind]. fold (terminal_of self fv).
  rewrite argmax_row.
  2:{ intros E. pose proof (terminal_of_length self fv W Hfv) as Hl.
      rewrite E in Hl. pose proof (wf_two self W). simpl in Hl. lia. }
  cbn [bind]. rewrite follow_back.
  change ([argmax_list (terminal_of self fv)] ++ ?l)
    with (argmax_list (terminal_of self fv) :: l).
  replace (argmax_list (terminal_of self fv)
           :: tl (back (rev (bps_of self (init_vvars_repaired self) feats))
                       (argmax_list (terminal_of self fv))))
    with (back (rev (bps_of self (init_vvars_repaired self) feats))
               (argmax_list (terminal_of self fv)))
    by (destruct (rev _); reflexivity).
  reflexivity.
Qed.

(** ** Integer scores: the real-valued decoder is the image of [ZRun] *)

Lemma zipWith_IZR (u v : list Z) :
  zipWith Rplus (map IZR u) (map IZR v) = map IZR (zipWith Z.add u v).
Proof.
  revert v. induction u as [|a u IH]; intros [|b v]; simpl; try reflexivity.
  now rewrite IH, plus_IZR.
Qed.

Lemma upd_IZR (i : nat) (x : Z) (v : list Z) :
  upd i (IZR x) (map IZR v) = map IZR (upd i x v).
Proof.
  revert i. induction v as [|y v IH]; intros [|i]; simpl; try reflexivity.
  now rewrite IH.
Qed.

Lemma nth_IZR (k : nat) (v : list Z) : nth k (map IZR v) 0 = IZR (nth k v 0%Z).
Proof. apply (map_nth IZR v 0%Z k). Qed.

Lemma argmax_list_IZR (v : list Z) : argmax_list (map IZR v) = ZRun.zargmax v.
Proof.
  induction v as [|x v IH]; [reflexivity|].
  destruct v as [|y v]; [reflexivity|].
  change (argmax_list (map IZR (x :: y :: v)))
    with (let k := argmax_list (map IZR (y :: v)) in
          if Rlt_dec (IZR x) (nth k (map IZR (y :: v)) 0) then S k else O).
  change (ZRun.zargmax (x :: y :: v))
    with (let k := ZRun.zargmax (y :: v) in
          if (x <? nth k (y :: v) 0)%Z then S k else O).
  cbv zeta. rewrite IH, nth_IZR.
  destruct (Rlt_dec _ _) as [H|H]; destruct (Z.ltb_spec x
    (nth (ZRun.zargmax (y :: v)) (y :: v) 0%Z)) as [H'|H']; try reflexivity.
  - apply lt_IZR in H. lia.
  - apply IZR_lt in H'. contradiction.
Qed.

Lemma max_list_IZR (v : list Z) : max_list (map IZR v) = IZR (ZRun.zmax v).
Proof.
  rewrite max_list_argmax, argmax_list_IZR. apply nth_IZR.
Qed.

Lemma next_of_IZR (m : ZRun.model) (fv : list Z) :
  next_of (ZRun.inject m) (map IZR fv) = map (map IZR) (ZRun.znext m fv).
Proof.
  unfold next_of, ZRun.znext. cbn [transitions ZRun.inject].
  rewrite !map_map. apply map_ext. intros row. apply zipWith_IZR.
Qed.

Lemma delta_step_IZR (m : ZRun.model) (fv feat : list Z) :
  delta_step (ZRun.inject m) (map IZR fv) (map IZR feat)
  = map IZR (ZRun.zdelta_step m fv feat).
Proof.
  unfold delta_step, ZRun.zdelta_step. rewrite next_of_IZR, <- zipWith_IZR.
  f_equal. rewrite !map_map. apply map_ext. intros row. apply max_list_IZR.
Qed.

Lemma bptrs_of_IZR (m : ZRun.model) (fv : list Z) :
  bptrs_of (ZRun.inject m) (map IZR fv) = ZRun.zbptrs m fv.
Proof.
  unfold bptrs_of, ZRun.zbptrs. rewrite next_of_IZR, map_map.
  apply map_ext. intros row. apply argmax_list_IZR.
Qed.

Lemma deltas_IZR (m : ZRun.model) (feats : list (list Z)) (fv : list Z) :
  deltas (ZRun.inject m) (map IZR fv) (map (map IZR) feats)
  = map IZR (ZRun.zdeltas m fv feats).
Proof.
  revert fv. induction feats as [|feat rest IH]; intros fv; [reflexivity|].
  cbn [map deltas ZRun.zdeltas]. now rewrite delta_step_IZR, IH.
Qed.

Lemma bps_of_IZR (m : ZRun.model) (feats : list (list Z)) (fv : list Z) :
  bps_of (ZRun.inject m) (map IZR fv) (map (map IZR) feats)
  = ZRun.zbps m fv feats.
Proof.
  revert fv. induction feats as [|feat rest IH]; intros fv; [reflexivity|].
  cbn [map bps_of ZRun.zbps]. now rewrite bptrs_of_IZR, delta_step_IZR, IH.
Qed.

Lemma repeat_IZR (x : Z) (n : nat) : repeat (IZR x) n = map IZR (repeat x n).
Proof. induction n as [|n IH]; simpl; [reflexivity|now rewrite IH]. Qed.

Lemma init_vvars_IZR (m : ZRun.model) :
  init_vvars_repaired (ZRun.inject m) = map IZR (ZRun.zinit m).
Proof.
  unfold init_vvars_repaired, ZRun.zinit. cbn [START n_tag ZRun.inject].
  now rewrite repeat_IZR, upd_IZR.
Qed.

Lemma terminal_of_IZR (m : ZRun.model) (fv : list Z) :
  terminal_of (ZRun.inject m) (map IZR fv) = map IZR (ZRun.zterminal m fv).
Proof.
  unfold terminal_of, ZRun.zterminal. cbn [START STOP transitions ZRun.inject].
  replace (nth (ZRun.z_STOP m) (map (map IZR) (ZRun.z_transitions m)) [])
    with (map IZR (nth (ZRun.z_STOP m) (ZRun.z_transitions m) []))
    by (symmetry; apply (map_nth (map IZR) (ZRun.z_transitions m) [])).
  now rewrite zipWith_IZR, !upd_IZR.
Qed.

Lemma zwf_wf (m : ZRun.model) : ZRun.zwf m = true -> wf (ZRun.inject m).
Proof.
  unfold ZRun.zwf. intros H.
  repeat (apply andb_true_iff in H; destruct H as [H ?]).
  split; cbn [START STOP n_tag transitions ZRun.inject].
  - now apply Nat.ltb_lt.
  - now apply Nat.ltb_lt.
  - intros E. rewrite E, Nat.eqb_refl in *. discriminate.
  - rewrite length_map. now apply Nat.eqb_eq.
  - apply Forall_forall. intros row Hin. apply in_map_iff in Hin.
    destruct Hin as [zrow [<- Hin]]. rewrite length_map.
    rewrite forallb_forall in H0. now apply Nat.eqb_eq, H0.
Qed.

(** On integer scores [viterbi_decode_repaired] returns what [ZRun.zdecode]
    computes. *)
Lemma viterbi_decode_IZR (m : ZRun.model) (feats : list (list Z)) :
  ZRun.zwf m = true -> feats <> [] ->
  forallb (fun row => (length row =? ZRun.z_n_tag m)%nat) feats = true ->
  viterbi_decode_repaired (ZRun.inject m) (map (map IZR) feats)
  = match ZRun.zdecode m feats with
    | Ok (score, path) => Ok (IZR score, path)
    | Raise e => Raise e
    end.
Proof.
  intros W Hne HF. apply zwf_wf in W.
  rewrite viterbi_decode_ok; [|assumption| |].
  - cbv zeta. rewrite init_vvars_IZR, deltas_IZR, bps_of_IZR, terminal_of_IZR.
    rewrite argmax_list_IZR, nth_IZR. unfold ZRun.zdecode.
    cbn [START ZRun.inject].
    destruct (_ =? _)%nat; reflexivity.
  - destruct feats; [congruence|discriminate].
  - apply Forall_forall. intros row Hin. apply in_map_iff in Hin.
    destruct Hin as [zrow [<- Hin]]. rewrite length_map.
    rewrite forallb_forall in HF. now apply Nat.eqb_eq, HF.
Qed.

(** Evaluates a decoder run on integer scores. *)
Ltac run_decoder m feats :=
  change (viterbi_decode_repaired _ _)
    with (viterbi_decode_repaired (ZRun.inject m) (map (map IZR) feats));
  rewrite viterbi_decode_IZR by (reflexivity || discriminate);
  let r := fresh "r" in
  set (r := ZRun.zdecode m feats); vm_compute in r; subst r; cbv iota.

Lemma viterbi_decode_as_written_raises (self : BiLSTM_CRF) (feats : mat) :
  viterbi_decode self feats = Raise AttributeError.
Proof. reflexivity. Qed.

(** C9: in the scenario of the specification the method as written raises
    (line 296 reads [self.tagset_size]), where the path [O, O] with score
    13 is expected; the decoder the method spells out, with its broken
    statements repaired, returns exactly that path and score, on the
    transition matrix as the scenario words it and on the one the
    constructor builds. *)
Theorem viterbi_decode_scenario :
  viterbi_decode scenario scenario_feats = Raise AttributeError
  /\ viterbi_decode_repaired scenario scenario_feats = Ok (13, [1%nat; 1%nat])
  /\ viterbi_decode_repaired scenario_ctor scenario_feats = Ok (13, [1%nat; 1%nat]).
Proof.
  split; [reflexivity|]. split.
  - run_decoder scenario_z [[0; 1; 0]; [0; 2; 0]]%Z. reflexivity.
  - run_decoder scenario_ctor_z [[0; 1; 0]; [0; 2; 0]]%Z. reflexivity.
Qed.

(** ** viterbi_decode_repaired: the recursion is an exact maximisation *)

Lemma back_nonempty (bps : list (list nat)) (i : nat) : back bps i <> [].
Proof. destruct bps; discriminate. Qed.

Lemma last_cons_nonempty {A : Type} (a d : A) (l : list A) :
  l <> [] -> last (a :: l) d = last l d.
Proof. destruct l; [congruence|reflexivity]. Qed.

Lemma back_app (l : list (list nat)) (bp : list nat) (i : nat) :
  back (l ++ [bp]) i = back l i ++ [nth (last (back l i) O) bp O].
Proof.
  revert i. induction l as [|b l IH]; intros i; [reflexivity|].
  cbn [app back]. rewrite IH.
  rewrite last_cons_nonempty by apply back_nonempty. reflexivity.
Qed.

Lemma hd_rev {A : Type} (l : list A) (d : A) : hd d (rev l) = last l d.
Proof.
  induction l as [|a l IH] using rev_ind; [reflexivity|].
  now rewrite rev_unit, last_last.
Qed.

Lemma tl_rev {A : Type} (l : list A) : tl (rev l) = rev (removelast l).
Proof.
  induction l as [|a l IH] using rev_ind; [reflexivity|].
  now rewrite rev_unit, removelast_last.
Qed.

Lemma fchain_back (bps : list (list nat)) (best : nat) :
  rev (back (rev bps) best) = fchain bps best.
Proof.
  induction bps as [|bp rest IH]; [reflexivity|].
  cbn [rev fchain]. rewrite back_app, rev_unit, <- IH.
  now rewrite hd_rev.
Qed.

Lemma back_last_removelast (bps : list (list nat)) (best : nat) :
  last (back (rev bps) best) O = hd O (fchain bps best)
  /\ rev (removelast (back (rev bps) best)) = tl (fchain bps best).
Proof.
  rewrite <- fchain_back. split; [now rewrite hd_rev|now rewrite tl_rev].
Qed.

Lemma delta_step_nth (self : BiLSTM_CRF) (fv feat : vec) (i : nat) :
  wf self -> length fv = n_tag self -> length feat = n_tag self ->
  (i < n_tag self)%nat ->
  nth i (delta_step self fv feat) 0
  = max_list (zipWith Rplus fv (nth i (transitions self) [])) + nth i feat 0.
Proof.
  intros W Hfv Hf Hi. unfold delta_step.
  rewrite (nth_zipWith _ _ _ _ 0 0)
    by (rewrite ?length_map, ?next_of_length by assumption; lia).
  f_equal. rewrite (nth_map_lt max_list _ _ 0 [])
    by (now rewrite next_of_length).
  now rewrite next_of_nth.
Qed.

Lemma bptrs_of_nth (self : BiLSTM_CRF) (fv : vec) (i : nat) :
  wf self -> (i < n_tag self)%nat ->
  nth i (bptrs_of self fv) O
  = argmax_list (zipWith Rplus fv (nth i (transitions self) [])).
Proof.
  intros W Hi. unfold bptrs_of.
  rewrite (nth_map_lt argmax_list _ _ O [])
    by (now rewrite next_of_length).
  now rewrite next_of_nth.
Qed.

Lemma plus_row_length (self : BiLSTM_CRF) (fv : vec) (i : nat) :
  wf self -> length fv = n_tag self -> (i < n_tag self)%nat ->
  length (zipWith Rplus fv (nth i (transitions self) [])) = n_tag self.
Proof.
  intros W Hfv Hi.
  rewrite length_zipWith, Hfv, wf_row_length by assumption. lia.
Qed.

Lemma plus_row_nth (self : BiLSTM_CRF) (fv : vec) (i j : nat) :
  wf self -> length fv = n_tag self ->
  (i < n_tag self)%nat -> (j < n_tag self)%nat ->
  nth j (zipWith Rplus fv (nth i (transitions self) [])) 0
  = nth j fv 0 + nth j (nth i (transitions self) []) 0.
Proof.
  intros W Hfv Hi Hj.
  apply nth_zipWith; rewrite ?Hfv, ?wf_row_length by assumption; lia.
Qed.

(** The back pointer of a tag is a tag, and the new viterbi variable is
    reached through it. *)
Lemma delta_step_attained (self : BiLSTM_CRF) (fv feat : vec) (i : nat) :
  wf self -> length fv = n_tag self -> length feat = n_tag self ->
  (i < n_tag self)%nat ->
  let b := nth i (bptrs_of self fv) O in
  (b < n_tag self)%nat
  /\ nth i (delta_step self fv feat) 0
     = nth b fv 0 + nth b (nth i (transitions self) []) 0 + nth i feat 0.
Proof.
  intros W Hfv Hf Hi. cbv zeta. pose proof (wf_two self W) as H2.
  rewrite bptrs_of_nth, delta_step_nth by assumption.
  set (row := zipWith Rplus fv (nth i (transitions self) [])).
  assert (Hl : length row = n_tag self) by (now apply plus_row_length).
  assert (Hb : (argmax_list row < n_tag self)%nat).
  { rewrite <- Hl. apply argmax_list_lt. intros E. rewrite E in Hl.
    simpl in Hl. lia. }
  split; [assumption|].
  rewrite max_list_argmax. unfold row at 2.
  now rewrite plus_row_nth.
Qed.

(** The new viterbi variable is at least the score through any tag. *)
Lemma delta_step_ge (self : BiLSTM_CRF) (fv feat : vec) (i j : nat) :
  wf self -> length fv = n_tag self -> length feat = n_tag self ->
  (i < n_tag self)%nat -> (j < n_tag self)%nat ->
  nth j fv 0 + nth j (nth i (transitions self) []) 0 + nth i feat 0
  <= nth i (delta_step self fv feat) 0.
Proof.
  intros W Hfv Hf Hi Hj. rewrite delta_step_nth by assumption.
  rewrite <- plus_row_nth by assumption.
  rewrite max_list_argmax.
  pose proof (argmax_list_max (zipWith Rplus fv (nth i (transitions self) []))
                j ltac:(rewrite plus_row_length by assumption; lia)).
  lra.
Qed.

Lemma last_lt (n prev : nat) (tags : list nat) :
  (prev < n)%nat -> Forall (fun t => (t < n)%nat) tags ->
  (last (prev :: tags) O < n)%nat.
Proof.
  intros Hp Ht. revert prev Hp. induction Ht as [|t ts Htl _ IH];
    intros prev Hp; [assumption|].
  rewrite last_cons_nonempty by discriminate. now apply IH.
Qed.

(** No path scores more than the viterbi variable of its last tag. *)
Lemma deltas_dominate (self : BiLSTM_CRF) (feats : mat) :
  wf self ->
  Forall (fun row => length row = n_tag self) feats ->
  forall (fv : vec) (prev : nat) (tags : list nat),
    length fv = n_tag self -> (prev < n_tag self)%nat ->
    length tags = length feats ->
    Forall (fun t => (t < n_tag self)%nat) tags ->
    nth prev fv 0 + walk self prev feats tags
    <= nth (last (prev :: tags) O) (deltas self fv feats) 0
       + nth (last (prev :: tags) O) (nth (STOP self) (transitions self) []) 0.
Proof.
  intros W HF. induction HF as [|feat fs Hf _ IH];
    intros fv prev tags Hfv Hp Hl Ht.
  - destruct tags; [|discriminate]. cbn [walk deltas last]. lra.
  - destruct tags as [|t ts]; [discriminate|].
    inversion Ht as [|? ? Htl Hts]; subst. simpl in Hl.
    rewrite last_cons_nonempty by discriminate.
    cbn [walk deltas].
    pose proof (delta_step_ge self fv feat t prev W Hfv Hf Htl Hp) as Hstep.
    specialize (IH (delta_step self fv feat) t ts
                   (delta_step_length self fv feat W Hf) Htl
                   ltac:(lia) Hts).
    lra.
Qed.

(** The viterbi variable of a tag is the score of the path the back
    pointers give from it. *)
Lemma fchain_attains (self : BiLSTM_CRF) (feats : mat) :
  wf self ->
  Forall (fun row => length row = n_tag self) feats ->
  forall (fv : vec) (best : nat),
    length fv = n_tag self -> (best < n_tag self)%nat ->
    exists prev path,
      fchain (bps_of self fv feats) best = prev :: path
      /\ length path = length feats
      /\ (prev < n_tag self)%nat
      /\ Forall (fun t => (t < n_tag self)%nat) path
      /\ last (prev :: path) O = best
      /\ nth best (deltas self fv feats) 0
         + nth best (nth (STOP self) (transitions self) []) 0
         = nth prev fv 0 + walk self prev feats path.
Proof.
  intros W HF. induction HF as [|feat fs Hf _ IH]; intros fv best Hfv Hb.
  - exists best, []. cbn [bps_of fchain deltas walk last length].
    repeat split; auto.
  - destruct (IH (delta_step self fv feat) best
                 (delta_step_length self fv feat W Hf) Hb)
      as [t0 [path' [Hc [Hlen [Ht0 [Hpath [Hlast Hval]]]]]]].
    destruct (delta_step_attained self fv feat t0 W Hfv Hf Ht0) as [Hbl Hbv].
    exists (nth t0 (bptrs_of self fv) O), (t0 :: path').
    cbn [bps_of fchain deltas walk length]. rewrite Hc. cbn [hd].
    split; [reflexivity|]. split; [lia|]. split; [assumption|].
    split; [now constructor|]. split.
    + rewrite last_cons_nonempty by discriminate. assumption.
    + rewrite Hval, Hbv. ring.
Qed.

(** ** viterbi_decode_repaired on scores of bounded magnitude *)

Section Bounded.

Variable self : BiLSTM_CRF.
Variable B : R.
Hypothesis W : wf self.
Hypothesis Sen : sentinels self.
Hypothesis B_nonneg : 0 <= B.
Hypothesis B_trans :
  forall i j, (i < n_tag self)%nat -> (j < n_tag self)%nat ->
    i <> START self -> j <> STOP self ->
    - B <= nth j (nth i (transitions self) []) 0 <= B.

Lemma trans_le (i j : nat) :
  (i < n_tag self)%nat -> (j < n_tag self)%nat ->
  nth j (nth i (transitions self) []) 0 <= B.
Proof.
  intros Hi Hj.
  destruct (Nat.eq_dec i (START self)) as [Ei|Ei];
    [rewrite Sen by auto; lra|].
  destruct (Nat.eq_dec j (STOP self)) as [Ej|Ej];
    [rewrite Sen by auto; lra|].
  now apply B_trans.
Qed.

Lemma emit_bounds (feat : vec) (t : nat) :
  Forall (fun x => - B <= x <= B) feat -> (t < length feat)%nat ->
  - B <= nth t feat 0 <= B.
Proof.
  intros HE Ht. rewrite Forall_forall in HE. apply HE. now apply nth_In.
Qed.

Lemma walk_upper (feats : mat) :
  Forall (fun row => length row = n_tag self) feats ->
  Forall (Forall (fun x => - B <= x <= B)) feats ->
  forall (prev : nat) (tags : list nat),
    (prev < n_tag self)%nat -> length tags = length feats ->
    Forall (fun t => (t < n_tag self)%nat) tags ->
    walk self prev feats tags <= (2 * INR (length feats) + 1) * B.
Proof.
  intros HF HE. induction HF as [|feat fs Hf _ IH]; intros prev tags Hp Hl Ht.
  - destruct tags; [|discriminate]. cbn [walk length INR].
    pose proof (trans_le (STOP self) prev (wf_stop self W) Hp). lra.
  - destruct tags as [|t ts]; [discriminate|].
    inversion Ht as [|? ? Htl Hts]; subst.
    inversion HE as [|? ? He HEs]; subst. simpl in Hl.
    cbn [walk]. change (length (feat :: fs)) with (S (length fs)).
    rewrite S_INR.
    pose proof (trans_le t prev Htl Hp).
    pose proof (emit_bounds feat t He ltac:(lia)).
    specialize (IH HEs t ts Htl ltac:(lia) Hts). lra.
Qed.

Lemma walk_lower (feats : mat) :
  Forall (fun row => length row = n_tag self) feats ->
  Forall (Forall (fun x => - B <= x <= B)) feats ->
  forall (prev : nat) (tags : list nat),
    (prev < n_tag self)%nat -> prev <> STOP self ->
    length tags = length feats ->
    Forall (real_tag self) tags ->
    - ((2 * INR (length feats) + 1) * B) <= walk self prev feats tags.
Proof.
  intros HF HE. induction HF as [|feat fs Hf _ IH];
    intros prev tags Hp Hps Hl Ht.
  - destruct tags; [|discriminate]. cbn [walk length INR].
    pose proof (B_trans (STOP self) prev (wf_stop self W) Hp
                  (not_eq_sym (wf_distinct self W)) Hps). lra.
  - destruct tags as [|t ts]; [discriminate|].
    inversion Ht as [|? ? [Htl [Hts Htp]] Hrest]; subst.
    inversion HE as [|? ? He HEs]; subst. simpl in Hl.
    cbn [walk]. change (length (feat :: fs)) with (S (length fs)).
    rewrite S_INR.
    pose proof (B_trans t prev Htl Hp Hts Hps).
    pose proof (emit_bounds feat t He ltac:(lia)).
    specialize (IH HEs t ts Htl Htp ltac:(lia) Hrest). lra.
Qed.

(** A path through a sentinel pays -10000 at least once. *)
Lemma walk_penalty (feats : mat) :
  Forall (fun row => length row = n_tag self) feats ->
  Forall (Forall (fun x => - B <= x <= B)) feats ->
  forall (prev : nat) (tags : list nat),
    (prev < n_tag self)%nat -> length tags = length feats ->
    Forall (fun t => (t < n_tag self)%nat) tags ->
    prev = STOP self \/ Exists (sentinel self) tags ->
    walk self prev feats tags <= -10000 + 2 * INR (length feats) * B.
Proof.
  intros HF HE. induction HF as [|feat fs Hf HFs IH];
    intros prev tags Hp Hl Ht Hbad.
  - destruct tags; [|discriminate]. cbn [walk length INR].
    destruct Hbad as [->|Hex]; [|inversion Hex].
    rewrite Sen by (auto; apply W). lra.
  - destruct tags as [|t ts]; [discriminate|].
    inversion Ht as [|? ? Htl Hts]; subst.
    inversion HE as [|? ? He HEs]; subst. simpl in Hl.
    cbn [walk]. change (length (feat :: fs)) with (S (length fs)).
    rewrite S_INR.
    pose proof (emit_bounds feat t He ltac:(lia)) as Hemit.
    assert (Hnow : prev = STOP self \/ t = START self
                   \/ (t = STOP self \/ Exists (sentinel self) ts)).
    { destruct Hbad as [?|Hex]; [now left|].
      inversion Hex as [? ? [Hs|Hs]|]; subst; auto. }
    destruct Hnow as [Hnow|[Hnow|Hlater]].
    + rewrite (Sen t prev Htl Hp) by auto.
      pose proof (walk_upper fs HFs HEs t ts Htl
                    ltac:(lia) Hts). lra.
    + rewrite (Sen t prev Htl Hp) by auto.
      pose proof (walk_upper fs HFs HEs t ts Htl
                    ltac:(lia) Hts). lra.
    + pose proof (trans_le t prev Htl Hp).
      specialize (IH HEs t ts Htl ltac:(lia) Hts Hlater). lra.
Qed.

Lemma terminal_sentinel (fv : vec) (i : nat) :
  length fv = n_tag self -> sentinel self i ->
  nth i (terminal_of self fv) 0 = -10000.
Proof.
  intros Hfv Hi. unfold terminal_of.
  assert (Hz : length (zipWith Rplus fv
                         (nth (STOP self) (transitions self) []))
               = n_tag self)
    by (apply plus_row_length; [assumption..|apply W]).
  destruct (Nat.eq_dec i (START self)) as [->|Hne].
  - apply nth_upd_same. rewrite upd_length, Hz. apply W.
  - destruct Hi as [Hi|Hi]; [contradiction|]. subst i.
    rewrite nth_upd_other by auto.
    apply nth_upd_same. rewrite Hz. apply W.
Qed.

Lemma terminal_real (fv : vec) (i : nat) :
  length fv = n_tag self -> real_tag self i ->
  nth i (terminal_of self fv) 0
  = nth i fv 0 + nth i (nth (STOP self) (transitions self) []) 0.
Proof.
  intros Hfv [Hi [Hs Hp]]. unfold terminal_of.
  rewrite !nth_upd_other by auto.
  apply plus_row_nth; [assumption..|apply W|assumption].
Qed.

Lemma init_vvars_nth (i : nat) :
  (i < n_tag self)%nat ->
  nth i (init_vvars_repaired self) 0 = if Nat.eq_dec i (START self) then 0 else -10000.
Proof.
  intros Hi. unfold init_vvars_repaired. destruct (Nat.eq_dec i (START self)) as [->|Hne].
  - apply nth_upd_same. now rewrite repeat_length.
  - rewrite nth_upd_other by auto. now apply nth_repeat_lt.
Qed.

Lemma last_In_tail (a : nat) (tags : list nat) :
  tags <> [] -> In (last (a :: tags) O) tags.
Proof.
  intros Hne. rewrite last_cons_nonempty by assumption.
  destruct (exists_last Hne) as [l [x ->]].
  rewrite last_last. apply in_or_app. right. now left.
Qed.

Lemma no_sentinel_real (tags : list nat) :
  Forall (fun t => (t < n_tag self)%nat) tags ->
  ~ Exists (sentinel self) tags -> Forall (real_tag self) tags.
Proof.
  induction 1 as [|t ts Ht _ IH]; intros Hno; [constructor|].
  constructor.
  - repeat split; [assumption|..]; intros E; apply Hno; left;
      [now left|now right].
  - apply IH. intros Hex. apply Hno. now right.
Qed.

Lemma sentinel_dec (t : nat) : {sentinel self t} + {~ sentinel self t}.
Proof.
  unfold sentinel. destruct (Nat.eq_dec t (START self));
    [left; now left|].
  destruct (Nat.eq_dec t (STOP self)); [left; now right|].
  right. intros [?|?]; contradiction.
Qed.

Variable feats : mat.
Hypothesis feats_rows : Forall (fun row => length row = n_tag self) feats.
Hypothesis feats_nonempty : feats <> [].

(** Whatever the scores, no gold sequence of real tags scores more than
    the best entry of [terminal_var]. *)
Lemma gold_le_terminal (tags : list nat) :
  length tags = length feats -> Forall (real_tag self) tags ->
  let terminal_var := terminal_of self (deltas self (init_vvars_repaired self) feats) in
  gold self feats tags <= nth (argmax_list terminal_var) terminal_var 0.
Proof.
  intros Hl Ht. cbv zeta.
  set (d := deltas self (init_vvars_repaired self) feats).
  assert (Hd : length d = n_tag self)
    by (apply deltas_length; auto using init_vvars_length).
  assert (Hlt : Forall (fun t => (t < n_tag self)%nat) tags)
    by (eapply Forall_impl; [|exact Ht]; now intros t [? _]).
  assert (Hne : tags <> []).
  { intros ->. destruct feats; [congruence|discriminate]. }
  pose proof (last_In_tail (START self) tags Hne) as Hin.
  rewrite Forall_forall in Ht. pose proof (Ht _ Hin) as Hreal.
  pose proof (deltas_dominate self feats W feats_rows (init_vvars_repaired self)
                (START self) tags (init_vvars_length self)
                (wf_start self W) Hl Hlt) as Hdom.
  rewrite init_vvars_nth in Hdom by apply W.
  destruct (Nat.eq_dec (START self) (START self)); [|congruence].
  fold d in Hdom. rewrite <- terminal_real in Hdom by assumption.
  unfold gold, padded. rewrite gold_walk by assumption.
  pose proof (argmax_list_max (terminal_of self d)
                (last (START self :: tags) O)) as Hmax.
  rewrite terminal_of_length in Hmax by assumption.
  specialize (Hmax (proj1 Hreal)). lra.
Qed.

Hypothesis feats_bounded : Forall (Forall (fun x => - B <= x <= B)) feats.
Hypothesis budget : (4 * INR (length feats) + 2) * B < 10000.

Variable r : nat.
Hypothesis r_real : real_tag self r.

(** On bounded scores the decoder returns a sequence of real tags, its
    gold score, and no sequence of real tags scores more. *)
Lemma decode_bounded :
  exists path,
    viterbi_decode_repaired self feats = Ok (gold self feats path, path)
    /\ length path = length feats
    /\ Forall (real_tag self) path
    /\ (forall tags, length tags = length feats ->
          Forall (real_tag self) tags ->
          gold self feats tags <= gold self feats path).
Proof.
  assert (HL : 0 <= INR (length feats)) by apply pos_INR.
  assert (Hhalf : (2 * INR (length feats) + 1) * B < 5000) by lra.
  set (d := deltas self (init_vvars_repaired self) feats).
  set (term := terminal_of self d).
  set (best := argmax_list term).
  assert (Hd : length d = n_tag self)
    by (apply deltas_length; auto using init_vvars_length).
  assert (Hterm : length term = n_tag self)
    by (now apply terminal_of_length).
  assert (Hbest : (best < n_tag self)%nat).
  { rewrite <- Hterm. apply argmax_list_lt. intros E. rewrite E in Hterm.
    pose proof (wf_two self W). simpl in Hterm. lia. }
  (* the all-r sequence keeps the best terminal score above -10000 *)
  assert (Hfloor : - ((2 * INR (length feats) + 1) * B) <= nth best term 0).
  { pose proof (gold_le_terminal (repeat r (length feats))
                  (repeat_length _ _)
                  ltac:(apply Forall_forall; intros x Hx;
                        apply repeat_spec in Hx; now subst)) as Hg.
    cbv zeta in Hg. fold d term best in Hg.
    unfold gold, padded in Hg.
    rewrite gold_walk in Hg by apply repeat_length.
    pose proof (walk_lower feats feats_rows feats_bounded (START self)
                  (repeat r (length feats)) (wf_start self W)
                  (wf_distinct self W) (repeat_length _ _)
                  ltac:(apply Forall_forall; intros x Hx;
                        apply repeat_spec in Hx; now subst)).
    lra. }
  assert (Hbreal : real_tag self best).
  { destruct (sentinel_dec best) as [Hs|Hs].
    - pose proof (terminal_sentinel d best Hd Hs) as E.
      fold term in E. lra.
    - repeat split; [assumption|..]; intros E; apply Hs;
        [now left|now right]. }
  destruct (fchain_attains self feats W feats_rows (init_vvars_repaired self) best
              (init_vvars_length self) Hbest)
    as [prev [path [Hc [Hlen [Hprev [Hpath [Hlast Hval]]]]]]].
  fold d in Hval. rewrite <- terminal_real in Hval by assumption.
  fold term in Hval.
  pose proof (walk_upper feats feats_rows feats_bounded prev path Hprev
                Hlen Hpath) as Hup.
  rewrite init_vvars_nth in Hval by assumption.
  destruct (Nat.eq_dec prev (START self)) as [->|Hne]; [|lra].
  assert (Hreal : Forall (real_tag self) path).
  { apply no_sentinel_real; [assumption|]. intros Hex.
    pose proof (walk_penalty feats feats_rows feats_bounded (START self)
                  path (wf_start self W) Hlen Hpath (or_intror Hex)).
    lra. }
  assert (Hscore : nth best term 0 = gold self feats path).
  { unfold gold, padded. rewrite gold_walk by assumption. lra. }
  exists path. split; [|split; [assumption|split; [assumption|]]].
  - rewrite viterbi_decode_ok by assumption. cbv zeta.
    fold d term best.
    destruct (back_last_removelast (bps_of self (init_vvars_repaired self) feats) best)
      as [-> ->].
    rewrite Hc. cbn [hd tl]. rewrite Nat.eqb_refl. now rewrite Hscore.
  - intros tags Hl Ht. rewrite <- Hscore.
    now apply gold_le_terminal.
Qed.

End Bounded.

Lemma real_tag_lt (self : BiLSTM_CRF) (tags : list nat) :
  Forall (real_tag self) tags -> Forall (fun t => (t < n_tag self)%nat) tags.
Proof. intros H. eapply Forall_impl; [|exact H]. now intros t [? _]. Qed.

Lemma demo_sentinels : sentinels demo.
Proof.
  intros i j Hi Hj H. simpl in Hi, Hj.
  destruct i as [|[|[|i]]]; try lia;
    destruct j as [|[|[|j]]]; try lia; try reflexivity;
    simpl in H; destruct H; discriminate.
Qed.

Lemma demo_bounded : bounded demo [[0; 1; 0]; [0; 2; 0]] 2.
Proof.
  split; [lra|]. split.
  - intros i j Hi Hj Hs Hp. simpl in Hi, Hj, Hs, Hp.
    destruct i as [|[|[|i]]]; try lia; try congruence;
      destruct j as [|[|[|j]]]; try lia; try congruence; simpl; lra.
  - repeat constructor; lra.
Qed.

Lemma demo_real_tag : real_tag demo 1.
Proof. repeat split; simpl; lia. Qed.

Lemma demo_budget : (4 * INR (length [[0; 1; 0]; [0; 2; 0]]) + 2) * 2 < 10000.
Proof. simpl. lra. Qed.

(** The decoder that [viterbi_decode] spells out: whenever it returns, its
    score is at least the gold score [score_sentences] gives to any
    sequence of L real tags; and when the emission scores and the
    transition scores that are not pinned to -10000 lie within [-B, B] with
    (4 L + 2) B < 10000, and some tag is neither START nor STOP, it returns
    a path of L real tags whose gold score is the returned score. *)
Lemma viterbi_decode_optimal (self : BiLSTM_CRF) (feats : mat) :
  wf self -> feats <> [] ->
  Forall (fun row => length row = n_tag self) feats ->
  (forall score path tags,
     viterbi_decode_repaired self feats = Ok (score, path) ->
     length tags = length feats ->
     Forall (real_tag self) tags ->
     exists g, score_sentences self feats (map Z.of_nat tags) = Ok g
               /\ g <= score)
  /\ (forall B r,
        sentinels self -> bounded self feats B ->
        (4 * INR (length feats) + 2) * B < 10000 ->
        real_tag self r ->
        exists score path,
          viterbi_decode_repaired self feats = Ok (score, path)
          /\ length path = length feats
          /\ Forall (real_tag self) path
          /\ score_sentences self feats (map Z.of_nat path) = Ok score).
Proof.
  intros W Hne HF. split.
  - intros score path tags Hdec Hl Ht.
    exists (gold self feats tags). split.
    + apply score_sentences_ok; auto using real_tag_lt.
    + rewrite viterbi_decode_ok in Hdec by assumption. cbv zeta in Hdec.
      destruct (_ =? _)%nat; [|discriminate].
      inversion Hdec; subst. now apply gold_le_terminal.
  - intros B r Sen [HB [HA HE]] Hbud Hr.
    destruct (decode_bounded self B W Sen HB HA feats HF Hne HE Hbud r Hr)
      as [path [Hdec [Hlen [Hreal _]]]].
    exists (gold self feats path), path.
    repeat split; try assumption.
    apply score_sentences_ok; auto using real_tag_lt.
Qed.

Lemma viterbi_decode_optimal_witness :
  exists score path,
    viterbi_decode_repaired demo [[0; 1; 0]; [0; 2; 0]] = Ok (score, path)
    /\ length path = 2%nat
    /\ Forall (real_tag demo) path
    /\ score_sentences demo [[0; 1; 0]; [0; 2; 0]] (map Z.of_nat path)
       = Ok score.
Proof.
  apply (proj2 (viterbi_decode_optimal demo [[0; 1; 0]; [0; 2; 0]] demo_wf
                  ltac:(discriminate) ltac:(repeat constructor))
               2 1%nat demo_sentinels demo_bounded demo_budget demo_real_tag).
Defined.

(** With an emission score of -20000 for the only real tag the repaired
    decoder returns -10000 and the path START, while the only sequence of
    one real tag scores -20000: the sentinels are kept out of the path by
    the finite score -10000 only. *)
Lemma viterbi_decode_not_optimal :
  wf demo /\ sentinels demo
  /\ viterbi_decode_repaired demo [[0; -20000; 0]] = Ok (-10000, [0%nat])
  /\ score_sentences demo [[0; -20000; 0]] [1%Z]
     = Ok (0 + (0 + 0) + (-20000 + 0))
  /\ (forall t, real_tag demo t -> t = 1%nat).
Proof.
  split; [exact demo_wf|]. split; [exact demo_sentinels|]. split; [|split].
  - run_decoder demo_z [[0; -20000; 0]]%Z. reflexivity.
  - reflexivity.
  - intros t [Ht [Hs Hp]]. simpl in *. lia.
Qed.

(** The decoder that [viterbi_decode] spells out: whenever it returns, the
    traceback has ended on START and the path has one tag per emission row;
    when moreover the scores lie within [-B, B] with (4 L + 2) B < 10000 and
    some tag is neither START nor STOP, it does return, and the path
    contains neither START nor STOP. *)
Lemma viterbi_decode_path (self : BiLSTM_CRF) (feats : mat) :
  wf self -> feats <> [] ->
  Forall (fun row => length row = n_tag self) feats ->
  (forall score path,
     viterbi_decode_repaired self feats = Ok (score, path) ->
     length path = length feats)
  /\ (forall B r,
        sentinels self -> bounded self feats B ->
        (4 * INR (length feats) + 2) * B < 10000 ->
        real_tag self r ->
        exists score path,
          viterbi_decode_repaired self feats = Ok (score, path)
          /\ length path = length feats
          /\ ~ In (START self) path
          /\ ~ In (STOP self) path).
Proof.
  intros W Hne HF. split.
  - intros score path. rewrite viterbi_decode_ok by assumption. cbv zeta.
    set (term := terminal_of self _).
    set (best := argmax_list term).
    assert (Hl : length term = n_tag self)
      by (apply terminal_of_length;
          auto using deltas_length, init_vvars_length).
    assert (Hbest : (best < n_tag self)%nat).
    { rewrite <- Hl. apply argmax_list_lt. intros E. rewrite E in Hl.
      pose proof (wf_two self W). simpl in Hl. lia. }
    destruct (back_last_removelast (bps_of self (init_vvars_repaired self) feats) best)
      as [-> ->].
    destruct (fchain_attains self feats W HF (init_vvars_repaired self) best
                (init_vvars_length self) Hbest)
      as [prev [p [-> [Hlen _]]]].
    cbn [hd tl]. destruct (_ =? _)%nat; [|discriminate].
    intros E. inversion E; subst. assumption.
  - intros B r Sen [HB [HA HE]] Hbud Hr.
    destruct (decode_bounded self B W Sen HB HA feats HF Hne HE Hbud r Hr)
      as [path [Hdec [Hlen [Hreal _]]]].
    exists (gold self feats path), path.
    rewrite Forall_forall in Hreal.
    repeat split; try assumption.
    + intros Hin. destruct (Hreal _ Hin) as [_ [Hs _]]. congruence.
    + intros Hin. destruct (Hreal _ Hin) as [_ [_ Hp]]. congruence.
Qed.

Lemma viterbi_decode_path_witness :
  exists score path,
    viterbi_decode_repaired demo [[0; 1; 0]; [0; 2; 0]] = Ok (score, path)
    /\ length path = 2%nat
    /\ ~ In (START demo) path
    /\ ~ In (STOP demo) path.
Proof.
  apply (proj2 (viterbi_decode_path demo [[0; 1; 0]; [0; 2; 0]] demo_wf
                  ltac:(discriminate) ltac:(repeat constructor))
               2 1%nat demo_sentinels demo_bounded demo_budget demo_real_tag).
Defined.

(** With emission scores of -20000 for the real tag the path the repaired
    decoder returns is STOP, START. *)
Lemma viterbi_decode_returns_sentinels :
  wf demo /\ sentinels demo
  /\ viterbi_decode_repaired demo [[0; -20000; 0]; [0; -20000; 0]]
     = Ok (-10000, [2%nat; 0%nat])
  /\ In (START demo) [2%nat; 0%nat]
  /\ In (STOP demo) [2%nat; 0%nat].
Proof.
  split; [exact demo_wf|]. split; [exact demo_sentinels|]. split; [|split].
  - run_decoder demo_z [[0; -20000; 0]; [0; -20000; 0]]%Z. reflexivity.
  - right. now left.
  - now left.
Qed.

(** The assertion of line 331 fails where a transition between real tags
    outweighs the -10000 of the initial scores. *)
Lemma viterbi_decode_assertion_fails :
  viterbi_decode_repaired steep [[0; 0; 0]] = Raise AssertionError.
Proof. run_decoder steep_z [[0; 0; 0]]%Z. reflexivity. Qed.

Lemma steep_wf : wf steep.
Proof.
  split; simpl; try lia. repeat constructor.
Qed.

Lemma steep_sentinels : sentinels steep.
Proof.
  intros i j Hi Hj H. simpl in Hi, Hj.
  destruct i as [|[|[|i]]]; try lia;
    destruct j as [|[|[|j]]]; try lia; try reflexivity;
    simpl in H; destruct H; discriminate.
Qed.

Lemma quad_sentinels : sentinels quad.
Proof.
  intros i j Hi Hj H. simpl in Hi, Hj.
  destruct i as [|[|[|[|i]]]]; try lia;
    destruct j as [|[|[|[|j]]]]; try lia; try reflexivity;
    simpl in H; destruct H; discriminate.
Qed.

(** ** The in-place writes touch fresh tensors only *)

Lemma firstn_upd {A : Type} (n a : nat) (x : A) (l : list A) :
  (n <= a)%nat -> firstn n (upd a x l) = firstn n l.
Proof.
  revert n a. induction l as [|y l IH]; intros [|n] [|a] H; simpl;
    try reflexivity; try lia.
  f_equal. apply IH. lia.
Qed.

Lemma firstn_nth_error {A : Type} (n a : nat) (l l' : list A) :
  firstn n l' = firstn n l -> (a < n)%nat -> nth_error l' a = nth_error l a.
Proof.
  revert a l l'. induction n as [|n IH]; intros a l l' H Ha; [lia|].
  destruct l as [|x l], l' as [|x' l']; simpl in H; try discriminate;
    [reflexivity|].
  inversion H; subst. destruct a as [|a]; [reflexivity|].
  simpl. apply IH; [assumption|lia].
Qed.

Lemma preserves_lift {A : Type} (n : nat) (r : res A) :
  Store.preserves n (Store.lift r) (fun _ => True).
Proof. intros h Hn. cbn. auto. Qed.

Lemma preserves_get (n a : nat) :
  Store.preserves n (Store.get a) (fun _ => True).
Proof. intros h Hn. cbn. auto. Qed.

Lemma preserves_new (n : nat) (c : Store.cell) :
  Store.preserves n (Store.new c) (fun a => (n <= a)%nat).
Proof.
  intros h Hn. cbn. rewrite length_app. cbn. repeat split.
  - rewrite firstn_app. replace (n - length h)%nat with O by lia.
    cbn [firstn]. now rewrite app_nil_r.
  - lia.
  - intros a E. inversion E; subst. assumption.
Qed.

Lemma preserves_setitem1 (n a i : nat) (x : R) :
  (n <= a)%nat -> Store.preserves n (Store.setitem1 a i x) (fun _ => True).
Proof.
  intros Ha h Hn. unfold Store.setitem1.
  destruct (nth a h (Store.T1 [])) as [v|m];
    destruct (_ <? _)%nat; cbn; rewrite ?upd_length, ?firstn_upd by assumption;
    auto.
Qed.

Lemma preserves_setitem2 (n a i j : nat) (x : R) :
  (n <= a)%nat -> Store.preserves n (Store.setitem2 a i j x) (fun _ => True).
Proof.
  intros Ha h Hn. unfold Store.setitem2.
  destruct (nth a h (Store.T1 [])) as [v|m]; [cbn; auto|].
  destruct (_ && _); cbn; rewrite ?upd_length, ?firstn_upd by assumption;
    auto.
Qed.

Lemma preserves_bind {A B : Type} (n : nat) (c : Store.M A)
    (k : A -> Store.M B) (Q : A -> Prop) (Q' : B -> Prop) :
  Store.preserves n c Q ->
  (forall a, Q a -> Store.preserves n (k a) Q') ->
  Store.preserves n (Store.mbind c k) Q'.
Proof.
  intros Hc Hk h Hn. unfold Store.mbind.
  destruct (Hc h Hn) as [Hf [Hl Hq]].
  destruct (c h) as [[a|e] h'] eqn:E; cbn [fst snd] in *.
  - destruct (Hk a (Hq a eq_refl) h' ltac:(lia)) as [Hf' [Hl' Hq']].
    repeat split; [congruence|lia|assumption].
  - repeat split; [assumption|assumption|discriminate].
Qed.

(** One statement of a method: the rule of the operation, then the rest. *)
Ltac frame_step :=
  first
    [ eapply preserves_bind;
      [ first [ apply preserves_new
              | apply preserves_setitem1; assumption
              | apply preserves_setitem2; assumption
              | apply preserves_get
              | apply preserves_lift ]
      | intros ]
    | apply preserves_lift ].

Lemma forward_alg_preserves (n : nat) (s : Store.module_ref) (feats : nat) :
  Store.preserves n (Store.forward_alg_repaired_st s feats) (fun _ => True).
Proof. unfold Store.forward_alg_repaired_st, Store.forward_alg_from_st. repeat frame_step. Qed.

Lemma score_sentences_preserves (n : nat) (s : Store.module_ref) (feats : nat)
    (tags : list Z) :
  Store.preserves n (Store.score_sentences_st s feats tags) (fun _ => True).
Proof. unfold Store.score_sentences_st. repeat frame_step. Qed.

Lemma viterbi_decode_preserves (n : nat) (s : Store.module_ref) (feats : nat) :
  Store.preserves n (Store.viterbi_decode_repaired_st s feats) (fun _ => True).
Proof.
  unfold Store.viterbi_decode_repaired_st, Store.viterbi_from_repaired_st. repeat frame_step.
Qed.

Lemma forward_alg_as_written_preserves (n : nat) (s : Store.module_ref)
    (feats : nat) :
  Store.preserves n (Store.forward_alg_st s feats) (fun _ => True).
Proof.
  unfold Store.forward_alg_st, Store.forward_alg_from_st. repeat frame_step.
Qed.

Lemma viterbi_decode_as_written_preserves (n : nat) (s : Store.module_ref)
    (feats : nat) :
  Store.preserves n (Store.viterbi_decode_st s feats) (fun _ => True).
Proof. unfold Store.viterbi_decode_st. repeat frame_step. Qed.

Lemma preserves_cell {A : Type} (c : Store.M A) (h : Store.heap) (a : nat) :
  Store.preserves (length h) c (fun _ => True) ->
  (a < length h)%nat ->
  nth_error (snd (c h)) a = nth_error h a.
Proof.
  intros Hc Ha. destruct (Hc h (le_n _)) as [Hf _].
  eapply firstn_nth_error; [exact Hf|assumption].
Qed.

(** C8: whatever the store and the arguments, after a call of
    [forward_alg], [score_sentences] or [viterbi_decode] (the methods as
    written, and [forward_alg] and [viterbi_decode] with their broken
    statements repaired) the tensors [self.transitions] and [feats] hold
    what they held before, whether the call returns or raises. *)
Theorem inputs_unchanged (s : Store.module_ref) (feats : nat) (tags : list Z)
    (h : Store.heap) :
  (Store.r_transitions s < length h)%nat -> (feats < length h)%nat ->
  let unchanged (h' : Store.heap) :=
    nth_error h' (Store.r_transitions s) = nth_error h (Store.r_transitions s)
    /\ nth_error h' feats = nth_error h feats in
  unchanged (snd (Store.forward_alg_st s feats h))
  /\ unchanged (snd (Store.score_sentences_st s feats tags h))
  /\ unchanged (snd (Store.viterbi_decode_st s feats h))
  /\ unchanged (snd (Store.forward_alg_repaired_st s feats h))
  /\ unchanged (snd (Store.viterbi_decode_repaired_st s feats h)).
Proof.
  intros Ht Hf. cbv zeta.
  repeat split; apply preserves_cell;
    auto using forward_alg_preserves, score_sentences_preserves,
               viterbi_decode_preserves, viterbi_decode_as_written_preserves,
               forward_alg_as_written_preserves.
Qed.

Lemma inputs_unchanged_witness :
  let s := {| Store.r_n_tag := 3; Store.r_START := 0; Store.r_STOP := 2;
              Store.r_transitions := 0 |} in
  let h := [Store.T2 (transitions demo); Store.T2 scenario_feats] in
  nth_error (snd (Store.viterbi_decode_repaired_st s 1 h)) 0
  = Some (Store.T2 (transitions demo))
  /\ nth_error (snd (Store.viterbi_decode_repaired_st s 1 h)) 1
     = Some (Store.T2 scenario_feats).
Proof.
  cbv zeta.
  apply (inputs_unchanged
           {| Store.r_n_tag := 3; Store.r_START := 0; Store.r_STOP := 2;
              Store.r_transitions := 0 |} 1 []
           [Store.T2 (transitions demo); Store.T2 scenario_feats]);
    simpl; lia.
Defined.

(** ** The methods on the store return what the methods on values return *)

Lemma upd_app_length {A : Type} (h : list A) (c c' : A) :
  upd (length h) c' (h ++ [c]) = h ++ [c'].
Proof. induction h as [|x h IH]; simpl; [reflexivity|now rewrite IH]. Qed.

Lemma run_new {B : Type} (c : Store.cell) (k : nat -> Store.M B)
    (h : Store.heap) :
  Store.mbind (Store.new c) k h = k (length h) (h ++ [c]).
Proof. reflexivity. Qed.

Lemma run_get {B : Type} (a : nat) (k : Store.cell -> Store.M B)
    (h : Store.heap) :
  Store.mbind (Store.get a) k h = k (nth a h (Store.T1 [])) h.
Proof. reflexivity. Qed.

Lemma run_lift {A B : Type} (r : res A) (k : A -> Store.M B) (h : Store.heap) :
  Store.mbind (Store.lift r) k h
  = match r with
    | Ok a => k a h
    | Raise e => (Raise e, h)
    end.
Proof. unfold Store.mbind, Store.lift. destruct r; reflexivity. Qed.

Lemma run_init {B : Type} (n START : nat) (k : unit -> Store.M B)
    (h : Store.heap) :
  (START < n)%nat ->
  Store.mbind (Store.setitem2 (length h) 0 START 0) k
              (h ++ [Store.T2 [repeat (-10000) n]])
  = k tt (h ++ [Store.T2 [upd START 0 (repeat (-10000) n)]]).
Proof.
  intros Hs. unfold Store.mbind, Store.setitem2.
  rewrite nth_middle. cbn [length nth].
  change (0 <? 1)%nat with true. cbn [andb upd].
  rewrite repeat_length.
  replace (START <? n)%nat with true by (symmetry; now apply Nat.ltb_lt).
  now rewrite upd_app_length.
Qed.

Lemma run_setitem1_vec {B : Type} (i : nat) (x : R) (v : vec)
    (k : unit -> Store.M B) (h : Store.heap) :
  Store.mbind (Store.setitem1 (length h) i x) k (h ++ [Store.T1 v])
  = if (i <? length v)%nat
    then k tt (h ++ [Store.T1 (upd i x v)])
    else (Raise IndexError, h ++ [Store.T1 v]).
Proof.
  unfold Store.mbind, Store.setitem1. rewrite nth_middle.
  destruct (i <? length v)%nat; [|reflexivity].
  now rewrite upd_app_length.
Qed.

Lemma run_setitem1_row {B : Type} (i : nat) (x : R) (v : vec)
    (k : unit -> Store.M B) (h : Store.heap) :
  Store.mbind (Store.setitem1 (length h) i x) k (h ++ [Store.T2 [v]])
  = match i with
    | O => k tt (h ++ [Store.T2 [map (fun _ => x) v]])
    | S _ => (Raise IndexError, h ++ [Store.T2 [v]])
    end.
Proof.
  unfold Store.mbind, Store.setitem1. rewrite nth_middle.
  destruct i as [|i]; cbn [length nth upd].
  - change (0 <? 1)%nat with true. cbv iota. now rewrite upd_app_length.
  - change (S i <? 1)%nat with false. reflexivity.
Qed.

Lemma forward_alg_st_agrees (s : Store.module_ref) (feats : nat)
    (h : Store.heap) (A F : mat) :
  (Store.r_transitions s < length h)%nat -> (feats < length h)%nat ->
  nth (Store.r_transitions s) h (Store.T1 []) = Store.T2 A ->
  nth feats h (Store.T1 []) = Store.T2 F ->
  (Store.r_START s < Store.r_n_tag s)%nat ->
  fst (Store.forward_alg_repaired_st s feats h) = forward_alg_repaired (Store.self_of s A) F.
Proof.
  intros Ht Hf HA HF Hs. unfold Store.forward_alg_repaired_st, Store.forward_alg_from_st.
  rewrite run_new, run_init by assumption.
  rewrite run_get, nth_middle, run_new, run_get.
  rewrite length_app. cbn [length].
  replace (length h + 1)%nat with (length (h ++ [Store.T2
            [upd (Store.r_START s) 0 (repeat (-10000) (Store.r_n_tag s))]]))
    by (rewrite length_app; reflexivity).
  rewrite nth_middle, !run_get.
  rewrite !app_nth1 by (rewrite ?length_app; cbn [length]; lia).
  rewrite HA, HF.
  unfold forward_alg_repaired, init_alphas, setitem. rewrite repeat_length.
  cbn [START n_tag Store.self_of].
  rewrite (proj2 (Nat.ltb_lt _ _) Hs). reflexivity.
Qed.

Lemma score_sentences_st_agrees (s : Store.module_ref) (feats : nat)
    (tags : list Z) (h : Store.heap) (A F : mat) :
  nth (Store.r_transitions s) h (Store.T1 []) = Store.T2 A ->
  nth feats h (Store.T1 []) = Store.T2 F ->
  fst (Store.score_sentences_st s feats tags h)
  = score_sentences (Store.self_of s A) F tags.
Proof.
  intros HA HF. unfold Store.score_sentences_st.
  rewrite !run_get, HA, HF. reflexivity.
Qed.

Lemma viterbi_decode_st_agrees (s : Store.module_ref) (feats : nat)
    (h : Store.heap) (A F : mat) :
  (Store.r_transitions s < length h)%nat -> (feats < length h)%nat ->
  nth (Store.r_transitions s) h (Store.T1 []) = Store.T2 A ->
  nth feats h (Store.T1 []) = Store.T2 F ->
  wf (Store.self_of s A) ->
  fst (Store.viterbi_decode_repaired_st s feats h) = viterbi_decode_repaired (Store.self_of s A) F.
Proof.
  intros Ht Hf HA HF W. unfold Store.viterbi_decode_repaired_st.
  pose proof (wf_start _ W) as Hs. cbn [START n_tag Store.self_of] in Hs.
  rewrite run_new, run_init by assumption.
  rewrite run_get, nth_middle. unfold Store.viterbi_from_repaired_st.
  rewrite !run_get.
  rewrite !app_nth1 by lia. rewrite HA, HF.
  cbn [Store.rows concat]. rewrite app_nil_r.
  set (self := Store.self_of s A) in *.
  change (upd (Store.r_START s) 0 (repeat (-10000) (Store.r_n_tag s)))
    with (init_vvars_repaired self).
  rewrite run_lift. destruct F as [|feat rest].
  - (* no emission row: terminal_var is 2-D *)
    unfold viterbi_decode_repaired. cbn [viterbi_loop_repaired fst snd viterbi_from_repaired].
    rewrite run_lift.
    rewrite bvec_same
      by (rewrite init_vvars_length, wf_row_length
            by (try apply W; assumption); reflexivity).
    rewrite run_new, run_setitem1_row.
    pose proof (wf_distinct _ W) as Hd.
    destruct (STOP self) as [|p] eqn:Ep; [|reflexivity].
    rewrite run_setitem1_row.
    destruct (START self) as [|q] eqn:Eq; [congruence|reflexivity].
  - set (feats' := feat :: rest).
    change (viterbi_decode_repaired self feats')
      with (' (forward_var, backpointers) <-
              viterbi_loop_repaired self (init_vvars_repaired self) [] feats' ;;
            terminal_var <-
              bvec Rplus forward_var (nth (STOP self) (transitions self) []) ;;
            terminal_var <- setitem (STOP self) (-10000) terminal_var ;;
            terminal_var <- setitem (START self) (-10000) terminal_var ;;
            best_tag_id <- argmax [terminal_var] ;;
            let path_score := nth best_tag_id terminal_var 0 in
            let best_path :=
              follow (rev backpointers) best_tag_id [best_tag_id] in
            let start := last best_path O in
            let best_path := removelast best_path in
            if (start =? START self)%nat
            then Ok (path_score, rev best_path)
            else Raise AssertionError).
    destruct (viterbi_loop_repaired self (init_vvars_repaired self) [] feats')
      as [[fv bps]|e]; [|reflexivity].
    cbn [bind fst snd]. rewrite run_lift.
    destruct (bvec Rplus fv (nth (STOP self) (transitions self) []))
      as [tv|e]; [|reflexivity].
    cbn [bind]. rewrite run_new, run_setitem1_vec.
    unfold setitem.
    destruct (STOP self <? length tv)%nat; [|reflexivity].
    cbn [bind]. rewrite run_setitem1_vec.
    rewrite upd_length.
    destruct (START self <? length tv)%nat; [|reflexivity].
    cbn [bind]. rewrite run_get, nth_middle.
    reflexivity.
Qed.

(** ** forward_alg_repaired on emission rows of one entry *)

Lemma zipWith_repeat_bcast {A B C : Type} (f : A -> B -> C) (b : B) (n : nat)
    (l : list A) :
  (length l <= n)%nat -> zipWith f l (repeat b n) = map (fun a => f a b) l.
Proof.
  revert n. induction l as [|a l IH]; intros [|n] H; simpl in *;
    try reflexivity; try lia.
  f_equal. apply IH. lia.
Qed.

(** An emission row of one entry is broadcast to every tag: the round of
    the loop is that of the row with this entry for every tag. *)
Lemma forward_step_one (self : BiLSTM_CRF) (fv : vec) (e : R) :
  wf self -> length fv = n_tag self ->
  forward_step self [fv] [e]
  = forward_step self [fv] (repeat e (n_tag self)).
Proof.
  intros W Hfv. pose proof (wf_two self W) as H2.
  unfold forward_step. rewrite bmat_row_transitions by assumption.
  cbn [bind map]. rewrite bmat_emit_one
    by (now rewrite length_map, (wf_rows self W)).
  rewrite bmat_emit_full
    by (now rewrite repeat_length, length_map, (wf_rows self W)).
  rewrite zipWith_repeat_bcast
    by (rewrite length_map, (wf_rows self W); lia).
  reflexivity.
Qed.

(** ** viterbi_decode as written *)


(** No pass of the loop of [viterbi_decode] (lines 304-314) completes,
    whatever [self.tagset_size] is made to hold: it raises, and where the
    shapes agree ([tagset_size] is the tag count and [forward_var] has one
    score per tag) the exception is the TypeError of line 309, whose
    constructor call has a keyword the constructor does not take. *)
Theorem viterbi_step_raises (tagset_size : nat) (self : BiLSTM_CRF)
    (forward_var feat : vec) :
  (exists e, viterbi_step tagset_size self forward_var feat = Raise e)
  /\ (wf self -> tagset_size = n_tag self ->
      length forward_var = n_tag self ->
      viterbi_step tagset_size self forward_var feat = Raise TypeError).
Proof.
  split.
  - unfold viterbi_step.
    destruct (expand forward_var tagset_size) as [e|x];
      [|eexists; reflexivity].
    cbn [bind].
    destruct (bmat Rplus e (transitions self)) as [t|x];
      [|eexists; reflexivity].
    cbn [bind].
    destruct (argmax_dim1 t) as [b|x]; eexists; reflexivity.
  - intros W -> Hfv. pose proof (wf_two self W) as H2.
    unfold viterbi_step, expand. rewrite Hfv, Nat.eqb_refl. cbn [bind].
    unfold bmat. rewrite repeat_length, (wf_rows self W), Nat.eqb_refl.
    rewrite (mapM2_ok _ (zipWith Rplus)).
    2:{ intros a b Ha Hb. apply repeat_spec in Ha. subst a.
        apply bvec_same. pose proof (wf_cols self W) as Hc.
        rewrite Forall_forall in Hc. rewrite (Hc b Hb). assumption. }
    rewrite zipWith_repeat_l by (rewrite (wf_rows self W); lia).
    fold (next_of self forward_var). cbn [bind].
    unfold argmax_dim1. rewrite (mapM_ok _ argmax_list).
    2:{ intros row Hin.
        pose proof (next_of_rows self forward_var W Hfv) as Hr.
        rewrite Forall_forall in Hr. specialize (Hr row Hin).
        destruct row; [simpl in Hr; lia|reflexivity]. }
    reflexivity.
Qed.

Lemma viterbi_step_raises_witness :
  viterbi_step 4 quad [0; -10000; -10000; -10000] [0; 1; 2; 0]
  = Raise TypeError.
Proof.
  apply (proj2 (viterbi_step_raises 4 quad [0; -10000; -10000; -10000]
                  [0; 1; 2; 0]) quad_wf); reflexivity.
Defined.

(** ** The constructor establishes what the methods rely on *)

Lemma nth_upd {A : Type} (i j : nat) (x d : A) (v : list A) :
  (i < length v)%nat ->
  nth j (upd i x v) d = if Nat.eq_dec j i then x else nth j v d.
Proof.
  intros Hi. destruct (Nat.eq_dec j i) as [->|Hne].
  - now apply nth_upd_same.
  - apply nth_upd_other. congruence.
Qed.

Lemma zeros_nth (r c i : nat) :
  (i < r)%nat -> nth i (zeros r c) [] = repeat 0 c.
Proof. intros Hi. unfold zeros. now apply nth_repeat_lt. Qed.

Lemma new_transitions_ok (n s p : nat) :
  (s < n)%nat -> (p < n)%nat ->
  new_transitions n s p
  = Ok (map (upd p (-10000)) (upd s (repeat (-10000) n) (zeros n n))).
Proof.
  intros Hs Hp. unfold new_transitions, set_row.
  replace (s <? length (zeros n n))%nat with true
    by (symmetry; apply Nat.ltb_lt; unfold zeros; now rewrite repeat_length).
  cbn [bind]. rewrite zeros_nth by assumption.
  replace (map (fun _ : R => -10000) (repeat 0 n)) with (repeat (-10000) n)
    by (clear; induction n; simpl; congruence).
  unfold set_col.
  rewrite nth_upd by (unfold zeros; rewrite repeat_length; lia).
  replace (p <? length _)%nat with true; [reflexivity|].
  symmetry. apply Nat.ltb_lt.
  destruct (Nat.eq_dec 0 s); rewrite ?zeros_nth by lia;
    now rewrite repeat_length.
Qed.

Lemma new_transitions_entry (n s p i j : nat) :
  (s < n)%nat -> (p < n)%nat -> (i < n)%nat -> (j < n)%nat ->
  nth j (nth i (map (upd p (-10000))
                    (upd s (repeat (-10000) n) (zeros n n))) []) 0
  = if Nat.eq_dec j p then -10000
    else if Nat.eq_dec i s then -10000 else 0.
Proof.
  intros Hs Hp Hi Hj.
  assert (Hz : length (zeros n n) = n) by (unfold zeros; apply repeat_length).
  rewrite (nth_map_lt _ _ _ [] []) by (rewrite upd_length; lia).
  rewrite (nth_upd s i) by lia.
  assert (Hrow : length (if Nat.eq_dec i s then repeat (-10000) n
                         else nth i (zeros n n) []) = n).
  { destruct (Nat.eq_dec i s); rewrite ?zeros_nth by lia;
      apply repeat_length. }
  rewrite nth_upd by lia.
  destruct (Nat.eq_dec j p); [reflexivity|].
  destruct (Nat.eq_dec i s).
  - now apply nth_repeat_lt.
  - rewrite zeros_nth by lia. now apply nth_repeat_lt.
Qed.

Lemma new_model_returns (n s p : nat) :
  (s < n)%nat -> (p < n)%nat ->
  exists self,
    new_model n s p = Ok self
    /\ n_tag self = n /\ START self = s /\ STOP self = p
    /\ length (transitions self) = n
    /\ Forall (fun row => length row = n) (transitions self)
    /\ sentinels self
    /\ (forall i j, (i < n)%nat -> (j < n)%nat -> i <> s -> j <> p ->
          nth j (nth i (transitions self) []) 0 = 0)
    /\ (s <> p -> wf self).
Proof.
  intros Hs Hp. unfold new_model. rewrite new_transitions_ok by assumption.
  cbn [bind]. eexists. split; [reflexivity|].
  cbn [n_tag START STOP transitions].
  assert (Hlen : length (map (upd p (-10000))
                   (upd s (repeat (-10000) n) (zeros n n))) = n)
    by (unfold zeros; now rewrite length_map, upd_length, repeat_length).
  assert (Hrows : Forall (fun row => length row = n)
                    (map (upd p (-10000))
                       (upd s (repeat (-10000) n) (zeros n n)))).
  { apply Forall_forall. intros row Hin.
    apply In_nth with (d := []) in Hin. destruct Hin as [i [Hi <-]].
    rewrite Hlen in Hi.
    rewrite (nth_map_lt _ _ _ [] [])
      by (unfold zeros; rewrite upd_length, repeat_length; lia).
    rewrite upd_length,
      (nth_upd s i) by (unfold zeros; rewrite repeat_length; lia).
    destruct (Nat.eq_dec i s); rewrite ?zeros_nth by lia;
      apply repeat_length. }
  repeat split; try assumption.
  - intros i j Hi Hj Hor. cbn [n_tag START STOP transitions] in *.
    rewrite new_transitions_entry by assumption.
    destruct (Nat.eq_dec j p); [reflexivity|].
    destruct (Nat.eq_dec i s); [reflexivity|].
    destruct Hor; contradiction.
  - intros i j Hi Hj Hi' Hj'. rewrite new_transitions_entry by assumption.
    destruct (Nat.eq_dec j p); [contradiction|].
    destruct (Nat.eq_dec i s); [contradiction|reflexivity].
Qed.

(** The constructor returns exactly when both sentinel indices are below
    the tag count; the model it returns has a square transition tensor with
    -10000 on the row into START and on the column out of STOP and 0
    everywhere else, so that it is well formed once the two indices
    differ. *)
Theorem new_model_spec (n s p : nat) :
  ((n <= s)%nat \/ (n <= p)%nat -> new_model n s p = Raise IndexError)
  /\ ((s < n)%nat -> (p < n)%nat ->
      exists self,
        new_model n s p = Ok self
        /\ n_tag self = n /\ START self = s /\ STOP self = p
        /\ length (transitions self) = n
        /\ Forall (fun row => length row = n) (transitions self)
        /\ sentinels self
        /\ (forall i j, (i < n)%nat -> (j < n)%nat -> i <> s -> j <> p ->
              nth j (nth i (transitions self) []) 0 = 0)
        /\ (s <> p -> wf self)).
Proof.
  split.
  - intros H. unfold new_model.
    destruct (Nat.lt_ge_cases s n) as [Hs|Hs].
    + destruct H as [H|H]; [lia|].
      unfold new_transitions, set_row.
      replace (s <? length (zeros n n))%nat with true
        by (symmetry; apply Nat.ltb_lt; unfold zeros;
            now rewrite repeat_length).
      cbn [bind]. unfold set_col.
      replace (p <? length _)%nat with false; [reflexivity|].
      symmetry. apply Nat.ltb_ge.
      rewrite nth_upd by (unfold zeros; rewrite repeat_length; lia).
      destruct (Nat.eq_dec 0 s);
        rewrite ?length_map, ?zeros_nth, ?repeat_length by lia; assumption.
    + unfold new_transitions, set_row.
      replace (s <? length (zeros n n))%nat with false; [reflexivity|].
      symmetry. apply Nat.ltb_ge. unfold zeros. now rewrite repeat_length.
  - apply new_model_returns.
Qed.

Lemma new_model_spec_witness :
  exists self, new_model 3 0 2 = Ok self /\ sentinels self /\ wf self.
Proof.
  destruct (proj2 (new_model_spec 3 0 2) ltac:(lia) ltac:(lia))
    as [self [H1 [_ [_ [_ [_ [_ [H2 [_ H3]]]]]]]]].
  exists self. split; [exact H1|]. split; [exact H2|].
  apply H3. discriminate.
Defined.

(** ** The helper argmax *)

Lemma argmax_list_first (v : vec) (j : nat) :
  (j < argmax_list v)%nat -> nth j v 0 < nth (argmax_list v) v 0.
Proof.
  revert j. induction v as [|x v IH]; intros j Hj; [simpl in Hj; lia|].
  destruct v as [|y v]; [simpl in Hj; lia|].
  change (argmax_list (x :: y :: v))
    with (let k := argmax_list (y :: v) in
          if Rlt_dec x (nth k (y :: v) 0) then S k else O) in *.
  cbv zeta in *. destruct (Rlt_dec _ _) as [Hlt|Hge]; [|lia].
  destruct j as [|j].
  - exact Hlt.
  - change (nth j (y :: v) 0 < nth (argmax_list (y :: v)) (y :: v) 0).
    apply IH. lia.
Qed.

(** [argmax] looks at the first row only: on a non-empty first row it
    returns the first index of a maximal entry of that row, whatever the
    other rows. *)
Theorem argmax_first_maximum (row : vec) (rest : mat) :
  row <> [] ->
  exists k,
    argmax (row :: rest) = Ok k
    /\ (k < length row)%nat
    /\ (forall j, (j < length row)%nat -> nth j row 0 <= nth k row 0)
    /\ (forall j, (j < k)%nat -> nth j row 0 < nth k row 0).
Proof.
  intros Hne. exists (argmax_list row). split; [now apply argmax_row|].
  split; [now apply argmax_list_lt|]. split.
  - intros j Hj. now apply argmax_list_max.
  - apply argmax_list_first.
Qed.

Lemma argmax_first_maximum_witness :
  exists k, argmax [[1; 3; 3]; [9; 0; 0]] = Ok k /\ (k < 3)%nat.
Proof.
  destruct (argmax_first_maximum [1; 3; 3] [[9; 0; 0]] ltac:(discriminate))
    as [k [H1 [H2 _]]].
  exists k. split; [exact H1|exact H2].
Defined.

(** ** log_sum_exp: bounds and shifts *)

Lemma sum_map_le (f g : R -> R) (v : vec) :
  (forall x, In x v -> f x <= g x) -> sum (map f v) <= sum (map g v).
Proof.
  induction v as [|x v IH]; intros H; simpl; [lra|].
  pose proof (H x (or_introl eq_refl)).
  specialize (IH (fun y Hy => H y (or_intror Hy))). lra.
Qed.

Lemma sum_map_const (c : R) (v : vec) :
  sum (map (fun _ => c) v) = INR (length v) * c.
Proof.
  induction v as [|x v IH]; [simpl; ring|].
  change (length (x :: v)) with (S (length v)). rewrite S_INR.
  simpl. rewrite IH. ring.
Qed.

Lemma sum_map_nonneg {A : Type} (f : A -> R) (l : list A) :
  (forall a, 0 <= f a) -> 0 <= sum (map f l).
Proof.
  intros Hf. induction l as [|a l IH]; simpl; [lra|].
  pose proof (Hf a). lra.
Qed.

Lemma sum_map_ge_term (f : R -> R) (v : vec) (y : R) :
  (forall x, 0 <= f x) -> In y v -> f y <= sum (map f v).
Proof.
  intros Hf. induction v as [|x v IH]; intros Hin; [contradiction|].
  simpl. destruct Hin as [->|Hin].
  - pose proof (sum_map_nonneg f v Hf). lra.
  - specialize (IH Hin). pose proof (Hf x). lra.
Qed.

(** On a non-empty vector [log_sum_exp] lies between the maximum of the
    vector and that maximum plus the logarithm of the length. *)
Theorem log_sum_exp_bounds (v : vec) :
  v <> [] ->
  exists z,
    log_sum_exp [v] = Ok z
    /\ max_list v <= z <= max_list v + ln (INR (length v)).
Proof.
  intros Hne. eexists. split; [now apply log_sum_exp_row|].
  set (m := max_list v).
  set (S1 := sum (map (fun x => exp (x - m)) v)).
  assert (Hlo : 1 <= S1).
  { rewrite <- exp_0. replace 0 with (m - m) by ring.
    apply (sum_map_ge_term (fun x => exp (x - m)) v m).
    - intros x. left. apply exp_pos.
    - now apply max_list_In. }
  assert (Hhi : S1 <= INR (length v)).
  { replace (INR (length v)) with (INR (length v) * 1) by ring.
    rewrite <- (sum_map_const 1 v). apply sum_map_le.
    intros x Hin. rewrite <- exp_0.
    pose proof (max_list_upper v x Hin) as Hx. fold m in Hx.
    destruct (Req_dec (x - m) 0) as [->|Hneq]; [lra|].
    left. apply exp_increasing. lra. }
  split.
  - pose proof (ln_le 1 S1 ltac:(lra) Hlo) as H. rewrite ln_1 in H. lra.
  - pose proof (ln_le S1 (INR (length v)) ltac:(lra) Hhi). lra.
Qed.

Lemma log_sum_exp_bounds_witness :
  exists z,
    log_sum_exp [[1; 2]] = Ok z
    /\ max_list [1; 2] <= z <= max_list [1; 2] + ln (INR 2).
Proof. apply (log_sum_exp_bounds [1; 2]). discriminate. Defined.

Lemma lse_shift (v : vec) (c : R) :
  v <> [] ->
  ln (sum (map exp (map (fun x => x + c) v))) = ln (sum (map exp v)) + c.
Proof.
  intros Hne. rewrite map_map.
  replace (sum (map (fun x => exp (x + c)) v)) with (exp c * sum (map exp v)).
  - rewrite ln_mult by (try apply exp_pos; now apply sum_exp_pos).
    rewrite ln_exp. ring.
  - clear Hne. induction v as [|x v IH]; simpl; [ring|].
    rewrite <- IH, exp_plus. ring.
Qed.

(** Adding a constant to every entry of a non-empty vector adds it to
    [log_sum_exp]. *)
Theorem log_sum_exp_shift (v : vec) (c : R) :
  v <> [] ->
  exists z,
    log_sum_exp [v] = Ok z
    /\ log_sum_exp [map (fun x => x + c) v] = Ok (z + c).
Proof.
  intros Hne. exists (ln (sum (map exp v))).
  assert (Hne' : map (fun x => x + c) v <> [])
    by (destruct v; [congruence|discriminate]).
  rewrite !log_sum_exp_row, !shifted_lse by assumption.
  split; [reflexivity|]. now rewrite lse_shift.
Qed.

Lemma log_sum_exp_shift_witness :
  exists z,
    log_sum_exp [[1; 2]] = Ok z
    /\ log_sum_exp [map (fun x => x + 5) [1; 2]] = Ok (z + 5).
Proof. apply (log_sum_exp_shift [1; 2] 5). discriminate. Defined.

(** ** forward_alg_repaired sums over every path *)

Lemma sum_app (u v : vec) : sum (u ++ v) = sum u + sum v.
Proof. induction u as [|x u IH]; simpl; [ring|rewrite IH; ring]. Qed.

Lemma sum_flat_map {A B : Type} (f : B -> R) (g : A -> list B) (l : list A) :
  sum (map f (flat_map g l)) = sum (map (fun a => sum (map f (g a))) l).
Proof.
  induction l as [|a l IH]; [reflexivity|].
  cbn [flat_map map sum]. now rewrite map_app, sum_app, IH.
Qed.

Lemma sum_ext_in {A : Type} (f g : A -> R) (l : list A) :
  (forall a, In a l -> f a = g a) -> sum (map f l) = sum (map g l).
Proof.
  intros H. induction l as [|a l IH]; [reflexivity|].
  cbn [map sum]. rewrite (H a) by (now left).
  rewrite IH by (intros; apply H; now right). reflexivity.
Qed.

Lemma sum_map_plus {A : Type} (f g : A -> R) (l : list A) :
  sum (map (fun a => f a + g a) l) = sum (map f l) + sum (map g l).
Proof. induction l as [|a l IH]; simpl; [ring|rewrite IH; ring]. Qed.

Lemma sum_swap {A B : Type} (f : A -> B -> R) (la : list A) (lb : list B) :
  sum (map (fun a => sum (map (f a) lb)) la)
  = sum (map (fun b => sum (map (fun a => f a b) la)) lb).
Proof.
  induction la as [|a la IH].
  - cbn [map sum]. induction lb as [|b lb IHb]; simpl; [reflexivity|].
    rewrite <- IHb. ring.
  - cbn [map sum]. rewrite IH, <- sum_map_plus. reflexivity.
Qed.

Lemma sum_scal_r {A : Type} (f : A -> R) (c : R) (l : list A) :
  sum (map (fun a => f a * c) l) = sum (map f l) * c.
Proof. induction l as [|a l IH]; simpl; [ring|rewrite IH; ring]. Qed.

Lemma sum_seq_nth (v : vec) :
  sum v = sum (map (fun i => nth i v 0) (seq 0 (length v))).
Proof.
  induction v as [|x v IH]; [reflexivity|].
  cbn [length seq map sum nth]. rewrite <- seq_shift, map_map.
  cbn [nth]. now rewrite <- IH.
Qed.

(** The sum of the exponentials of a row of scores, entry by entry. *)
Lemma sum_exp_seq (u w : vec) (n : nat) (c : R) :
  length u = n -> length w = n ->
  sum (map exp (map (fun x => x + c) (zipWith Rplus u w)))
  = sum (map (fun i => exp (nth i u 0 + nth i w 0 + c)) (seq 0 n)).
Proof.
  intros Hu Hw. rewrite map_map, sum_seq_nth.
  rewrite length_map, length_zipWith, Hu, Hw, Nat.min_id.
  apply sum_ext_in. intros i Hi. apply in_seq in Hi.
  rewrite (nth_map_lt _ _ _ 0 0) by (rewrite length_zipWith; lia).
  now rewrite (nth_zipWith _ _ _ _ 0 0) by lia.
Qed.

Lemma alpha_step_exp (self : BiLSTM_CRF) (fv feat : vec) (t : nat) :
  wf self -> length fv = n_tag self -> length feat = n_tag self ->
  (t < n_tag self)%nat ->
  exp (nth t (alpha_step self fv feat) 0)
  = sum (map (fun prev =>
                exp (nth prev fv 0
                     + nth prev (nth t (transitions self) []) 0
                     + nth t feat 0))
             (seq 0 (n_tag self))).
Proof.
  intros W Hfv Hf Ht. pose proof (wf_two self W) as H2.
  unfold alpha_step.
  rewrite (nth_map_lt shifted _ _ 0 []) by (now rewrite tag_var_of_length).
  rewrite tag_var_of_nth by assumption.
  assert (Hr : length (nth t (transitions self) []) = n_tag self)
    by (now apply wf_row_length).
  set (row := map _ _).
  assert (Hne : row <> []).
  { intros E. apply (f_equal (@length R)) in E. unfold row in E.
    rewrite length_map, length_zipWith, Hfv, Hr in E. simpl in E. lia. }
  rewrite shifted_eq, exp_ln by (try apply sum_exp_pos; assumption).
  unfold row. now apply sum_exp_seq.
Qed.

Lemma path_sum_cons (self : BiLSTM_CRF) (fv feat : vec) (fs : mat) :
  path_sum self fv (feat :: fs)
  = sum (map (fun t =>
          sum (map (fun prev =>
            sum (map (fun ts =>
                   exp (nth prev fv 0
                        + nth prev (nth t (transitions self) []) 0
                        + nth t feat 0)
                   * exp (walk self t fs ts))
                 (all_seqs (n_tag self) (length fs))))
            (seq 0 (n_tag self))))
        (seq 0 (n_tag self))).
Proof.
  unfold path_sum. cbn [length all_seqs].
  rewrite <- (sum_swap
    (fun prev t =>
       sum (map (fun ts =>
                   exp (nth prev fv 0
                        + nth prev (nth t (transitions self) []) 0
                        + nth t feat 0)
                   * exp (walk self t fs ts))
                (all_seqs (n_tag self) (length fs))))).
  apply sum_ext_in. intros prev _.
  rewrite sum_flat_map. apply sum_ext_in. intros t _.
  rewrite map_map. apply sum_ext_in. intros ts _.
  cbn [walk]. rewrite <- exp_plus. f_equal. ring.
Qed.

Lemma path_sum_alphas (self : BiLSTM_CRF) (feats : mat) :
  wf self ->
  Forall (fun row => length row = n_tag self) feats ->
  forall fv : vec, length fv = n_tag self ->
    sum (map exp (zipWith Rplus (alphas self fv feats)
                          (nth (STOP self) (transitions self) [])))
    = path_sum self fv feats.
Proof.
  intros W HF. induction HF as [|feat fs Hf _ IH]; intros fv Hfv.
  - cbn [alphas]. unfold path_sum. cbn [length all_seqs map sum walk].
    pose proof (sum_exp_seq fv (nth (STOP self) (transitions self) [])
                  (n_tag self) 0 Hfv
                  (wf_row_length self _ W (wf_stop self W))) as H.
    rewrite (map_ext (fun x => x + 0) (fun x => x)), map_id in H
      by (intros; ring).
    rewrite H. apply sum_ext_in. intros i _.
    rewrite !Rplus_0_r. reflexivity.
  - cbn [alphas]. rewrite IH by (now apply alpha_step_length).
    rewrite path_sum_cons. unfold path_sum.
    apply sum_ext_in. intros t Ht. apply in_seq in Ht.
    rewrite (sum_ext_in _ (fun prev =>
               exp (nth prev fv 0 + nth prev (nth t (transitions self) []) 0
                    + nth t feat 0)
               * sum (map (fun ts => exp (walk self t fs ts))
                          (all_seqs (n_tag self) (length fs))))).
    2:{ intros prev _. rewrite Rmult_comm, <- sum_scal_r.
        apply sum_ext_in. intros ts _. ring. }
    rewrite sum_scal_r, <- alpha_step_exp by (assumption || lia).
    rewrite Rmult_comm, <- sum_scal_r.
    apply sum_ext_in. intros ts _. rewrite exp_plus. ring.
Qed.

Lemma all_seqs_In (n L : nat) (tags : list nat) :
  In tags (all_seqs n L)
  <-> length tags = L /\ Forall (fun t => (t < n)%nat) tags.
Proof.
  revert tags. induction L as [|L IH]; intros tags; cbn [all_seqs].
  - split.
    + intros [<-|[]]. split; constructor.
    + intros [Hl _]. destruct tags; [now left|discriminate].
  - rewrite in_flat_map. split.
    + intros [t [Ht Hin]]. apply in_seq in Ht. apply in_map_iff in Hin.
      destruct Hin as [ts [<- Hts]]. apply IH in Hts. destruct Hts.
      split; [simpl; lia|constructor; [lia|assumption]].
    + intros [Hl HF]. destruct tags as [|t ts]; [discriminate|].
      inversion HF; subst. exists t. split; [apply in_seq; lia|].
      apply in_map. apply IH. split; [simpl in Hl; lia|assumption].
Qed.

Lemma all_seqs_NoDup (n L : nat) : NoDup (all_seqs n L).
Proof.
  induction L as [|L IH]; cbn [all_seqs].
  - constructor; [intros []|constructor].
  - pose proof (seq_NoDup n 0) as Hs.
    induction Hs as [|t l Hnot _ IHl]; [constructor|].
    cbn [flat_map]. apply NoDup_app.
    + apply NoDup_map_NoDup_ForallPairs; [|assumption].
      intros x y _ _ E. now inversion E.
    + assumption.
    + intros a Ha Hb. apply in_map_iff in Ha. destruct Ha as [ts [<- _]].
      apply in_flat_map in Hb. destruct Hb as [t' [Ht' Hin]].
      apply in_map_iff in Hin. destruct Hin as [ts' [E _]].
      inversion E; subst. contradiction.
Qed.

(** On an L x n_tag emission matrix [forward_alg_repaired] returns the logarithm of
    the sum, over every tag the walk can start from and every sequence of
    L tags below n_tag, of the exponential of the initial score of the
    start tag plus the score of the walk through the sequence into STOP;
    the sequences summed over are exactly those, each once. *)
Theorem forward_alg_path_sum (self : BiLSTM_CRF) (feats : mat) :
  wf self ->
  Forall (fun row => length row = n_tag self) feats ->
  forward_alg_repaired self feats = Ok (ln (path_sum self (init_vvars_repaired self) feats))
  /\ (forall tags,
        In tags (all_seqs (n_tag self) (length feats))
        <-> length tags = length feats
            /\ Forall (fun t => (t < n_tag self)%nat) tags)
  /\ NoDup (all_seqs (n_tag self) (length feats)).
Proof.
  intros W HF. split; [|split].
  - rewrite forward_alg_ok by assumption.
    now rewrite path_sum_alphas by (auto using init_vvars_length).
  - intros tags. apply all_seqs_In.
  - apply all_seqs_NoDup.
Qed.

Lemma forward_alg_path_sum_witness :
  forward_alg_repaired demo scenario_feats
  = Ok (ln (path_sum demo (init_vvars_repaired demo) scenario_feats)).
Proof.
  apply (forward_alg_path_sum demo scenario_feats demo_wf).
  repeat constructor.
Defined.

(** ** The partition function is strictly above every path *)

Lemma exp_lt_sum (v : vec) (i : nat) :
  (i < length v)%nat -> (2 <= length v)%nat ->
  exp (nth i v 0) < sum (map exp v).
Proof.
  revert i. induction v as [|x v IH]; intros i Hi H2; [simpl in Hi; lia|].
  cbn [map sum]. destruct i as [|i]; cbn [nth].
  - assert (0 < sum (map exp v)).
    { apply sum_exp_pos. intros E. subst. simpl in H2. lia. }
    lra.
  - pose proof (exp_pos x).
    assert (exp (nth i v 0) <= sum (map exp v)).
    { apply (sum_map_ge_term exp v).
      - intros y. left. apply exp_pos.
      - apply nth_In. simpl in Hi. lia. }
    lra.
Qed.

Lemma lse_gt_nth (v : vec) (i : nat) :
  (i < length v)%nat -> (2 <= length v)%nat ->
  nth i v 0 < ln (sum (map exp v)).
Proof.
  intros Hi H2. rewrite <- (ln_exp (nth i v 0)) at 1.
  apply ln_increasing; [apply exp_pos|now apply exp_lt_sum].
Qed.

(** No walk scores more than the forward variable of its last tag. *)
Lemma alphas_dominate_entry (self : BiLSTM_CRF) (feats : mat) :
  wf self ->
  Forall (fun row => length row = n_tag self) feats ->
  forall (fv : vec) (prev : nat) (tags : list nat),
    length fv = n_tag self -> (prev < n_tag self)%nat ->
    length tags = length feats ->
    Forall (fun t => (t < n_tag self)%nat) tags ->
    nth prev fv 0 + walk self prev feats tags
    <= nth (last (prev :: tags) O) (alphas self fv feats) 0
       + nth (last (prev :: tags) O) (nth (STOP self) (transitions self) []) 0.
Proof.
  intros W HF. induction HF as [|feat fs Hf _ IH];
    intros fv prev tags Hfv Hp Hl Ht.
  - destruct tags; [|discriminate]. cbn [walk alphas last]. lra.
  - destruct tags as [|t ts]; [discriminate|].
    inversion Ht as [|? ? Htl Hts]; subst. simpl in Hl.
    rewrite last_cons_nonempty by discriminate.
    cbn [walk alphas].
    pose proof (alpha_step_ge self fv feat t prev W Hfv Hf Htl Hp) as Hstep.
    specialize (IH (alpha_step self fv feat) t ts
                   (alpha_step_length self fv feat W Hf) Htl
                   ltac:(lia) Hts).
    lra.
Qed.

Lemma partition_strict (self : BiLSTM_CRF) (feats : mat) (tags : list nat) :
  wf self ->
  Forall (fun row => length row = n_tag self) feats ->
  length tags = length feats ->
  Forall (fun t => (t < n_tag self)%nat) tags ->
  gold self feats tags
  < ln (sum (map exp
         (zipWith Rplus (alphas self (init_vvars_repaired self) feats)
                        (nth (STOP self) (transitions self) [])))).
Proof.
  intros W HF Hl Ht. pose proof (wf_two self W) as H2.
  unfold gold, padded. rewrite gold_walk by assumption.
  pose proof (alphas_dominate_entry self feats W HF (init_vvars_repaired self)
                (START self) tags (init_vvars_length self)
                (wf_start self W) Hl Ht) as Hdom.
  rewrite init_vvars_nth in Hdom by (assumption || apply W).
  destruct (Nat.eq_dec (START self) (START self)); [|congruence].
  set (l := last (START self :: tags) O) in *.
  assert (Hlt : (l < n_tag self)%nat)
    by (apply last_lt; [apply W|assumption]).
  set (a := alphas self (init_vvars_repaired self) feats) in *.
  assert (Ha : length a = n_tag self)
    by (apply alphas_length; auto using init_vvars_length).
  rewrite <- (plus_row_nth self a (STOP self) l) in Hdom
    by (assumption || apply W).
  pose proof (lse_gt_nth
                (zipWith Rplus a (nth (STOP self) (transitions self) [])) l)
    as Hgt.
  rewrite plus_row_length in Hgt by (assumption || apply W).
  specialize (Hgt Hlt H2). lra.
Qed.

(** ** Shifting the emission scores of a position *)

Lemma shift_rows_length (feats : mat) (cs : vec) :
  length cs = length feats -> length (shift_rows feats cs) = length feats.
Proof. intros H. unfold shift_rows. rewrite length_zipWith. lia. Qed.

Lemma shift_rows_rows (n : nat) (feats : mat) (cs : vec) :
  Forall (fun row => length row = n) feats ->
  Forall (fun row => length row = n) (shift_rows feats cs).
Proof.
  intros HF. revert cs. induction HF as [|feat fs Hf _ IH]; intros [|c cs];
    cbn [shift_rows zipWith]; try constructor.
  - now rewrite length_map.
  - apply IH.
Qed.

Lemma walk_shift (self : BiLSTM_CRF) (feats : mat) (cs : vec) :
  Forall (fun row => length row = n_tag self) feats ->
  length cs = length feats ->
  forall (prev : nat) (tags : list nat),
    length tags = length feats ->
    Forall (fun t => (t < n_tag self)%nat) tags ->
    walk self prev (shift_rows feats cs) tags
    = walk self prev feats tags + sum cs.
Proof.
  intros HF. revert cs. induction HF as [|feat fs Hf _ IH];
    intros [|c cs] Hc prev [|t ts] Hl Ht; try discriminate.
  - cbn [shift_rows zipWith walk sum]. ring.
  - inversion Ht; subst. simpl in Hc, Hl.
    cbn [shift_rows zipWith walk sum].
    fold (shift_rows fs cs). rewrite IH by (assumption || lia).
    rewrite (nth_map_lt _ _ _ 0 0) by lia. ring.
Qed.

Lemma sum_map_pos {A : Type} (f : A -> R) (l : list A) :
  l <> [] -> (forall a, 0 < f a) -> 0 < sum (map f l).
Proof.
  intros Hne Hf. destruct l as [|a l]; [congruence|].
  cbn [map sum]. pose proof (Hf a).
  pose proof (sum_map_nonneg f l (fun b => Rlt_le _ _ (Hf b))). lra.
Qed.

Lemma all_seqs_nonempty (n L : nat) : (0 < n)%nat -> all_seqs n L <> [].
Proof.
  intros Hn E.
  assert (H : In (repeat O L) (all_seqs n L)).
  { apply all_seqs_In. split; [apply repeat_length|].
    apply Forall_forall. intros x Hx. apply repeat_spec in Hx. lia. }
  rewrite E in H. contradiction.
Qed.

Lemma path_sum_pos (self : BiLSTM_CRF) (fv : vec) (feats : mat) :
  (0 < n_tag self)%nat -> 0 < path_sum self fv feats.
Proof.
  intros Hn. unfold path_sum. apply sum_map_pos.
  - destruct (n_tag self); [lia|discriminate].
  - intros prev. apply sum_map_pos; [now apply all_seqs_nonempty|].
    intros tags. apply exp_pos.
Qed.

Lemma path_sum_shift (self : BiLSTM_CRF) (fv : vec) (feats : mat) (cs : vec) :
  Forall (fun row => length row = n_tag self) feats ->
  length cs = length feats ->
  path_sum self fv (shift_rows feats cs)
  = path_sum self fv feats * exp (sum cs).
Proof.
  intros HF Hc. unfold path_sum. rewrite shift_rows_length by assumption.
  rewrite <- sum_scal_r. apply sum_ext_in. intros prev _.
  rewrite <- sum_scal_r. apply sum_ext_in. intros tags Hin.
  apply all_seqs_In in Hin. destruct Hin as [Hl Ht].
  rewrite walk_shift by assumption.
  rewrite <- exp_plus. f_equal. ring.
Qed.

(** Adding a constant [c_t] to every emission score of position [t] adds
    the sum of the constants both to the log partition function of
    [forward_alg_repaired] and to the gold score of [score_sentences]: their
    difference, the loss, is unchanged. *)
Theorem emission_shift (self : BiLSTM_CRF) (feats : mat) (cs : vec)
    (tags : list Z) :
  wf self ->
  Forall (fun row => length row = n_tag self) feats ->
  length cs = length feats ->
  length tags = length feats ->
  Forall (fun t => (0 <= t < Z.of_nat (n_tag self))%Z) tags ->
  exists z g,
    forward_alg_repaired self feats = Ok z
    /\ score_sentences self feats tags = Ok g
    /\ forward_alg_repaired self (shift_rows feats cs) = Ok (z + sum cs)
    /\ score_sentences self (shift_rows feats cs) tags = Ok (g + sum cs).
Proof.
  intros W HF Hc Hl Ht. pose proof (wf_two self W) as H2.
  destruct (map_of_nat_to_nat _ _ Ht) as [E Hn].
  pose proof (shift_rows_rows _ feats cs HF) as HF'.
  exists (ln (path_sum self (init_vvars_repaired self) feats)),
         (gold self feats (map Z.to_nat tags)).
  split; [|split; [|split]].
  - rewrite forward_alg_ok by assumption.
    now rewrite path_sum_alphas by (auto using init_vvars_length).
  - rewrite <- E at 1. apply score_sentences_ok; try assumption.
    now rewrite length_map.
  - rewrite forward_alg_ok by assumption.
    rewrite path_sum_alphas by (auto using init_vvars_length).
    rewrite path_sum_shift by assumption.
    rewrite ln_mult by (try apply exp_pos; apply path_sum_pos; lia).
    now rewrite ln_exp.
  - rewrite <- E at 1.
    rewrite score_sentences_ok;
      rewrite ?length_map, ?shift_rows_length; try assumption.
    f_equal. unfold gold, padded.
    rewrite !gold_walk
      by (rewrite ?length_map, ?shift_rows_length; assumption).
    apply walk_shift; rewrite ?length_map; assumption.
Qed.

Lemma emission_shift_witness :
  exists z g,
    forward_alg_repaired demo scenario_feats = Ok z
    /\ score_sentences demo scenario_feats [1%Z; 1%Z] = Ok g
    /\ forward_alg_repaired demo (shift_rows scenario_feats [3; 4]) = Ok (z + sum [3; 4])
    /\ score_sentences demo (shift_rows scenario_feats [3; 4]) [1%Z; 1%Z]
       = Ok (g + sum [3; 4]).
Proof.
  apply (emission_shift demo scenario_feats [3; 4] [1%Z; 1%Z] demo_wf).
  - repeat constructor.
  - reflexivity.
  - reflexivity.
  - repeat constructor; simpl; lia.
Defined.

(** ** Emission rows of one entry *)

Lemma forward_loop_one (self : BiLSTM_CRF) (es : vec) :
  wf self ->
  forall fv : vec, length fv = n_tag self ->
    forward_loop self [fv] (map (fun e => [e]) es)
    = forward_loop self [fv] (map (fun e => repeat e (n_tag self)) es).
Proof.
  intros W. induction es as [|e es IH]; intros fv Hfv; [reflexivity|].
  cbn [map forward_loop]. rewrite forward_step_one by assumption.
  rewrite forward_step_ok by (rewrite ?repeat_length; auto).
  cbn [bind]. apply IH. apply alpha_step_length; [assumption|].
  apply repeat_length.
Qed.

(** An emission matrix with one score per position is not refused by
    [forward_alg_repaired]: the score is taken for every tag, and the result is that
    of the L x n_tag matrix with the score of each position repeated. *)
Theorem forward_alg_one_column (self : BiLSTM_CRF) (es : vec) :
  wf self ->
  forward_alg_repaired self (map (fun e => [e]) es)
  = forward_alg_repaired self (map (fun e => repeat e (n_tag self)) es)
  /\ exists z, forward_alg_repaired self (map (fun e => [e]) es) = Ok z.
Proof.
  intros W.
  assert (E : forward_alg_repaired self (map (fun e => [e]) es)
              = forward_alg_repaired self (map (fun e => repeat e (n_tag self)) es)).
  { unfold forward_alg_repaired.
    rewrite init_alphas_ok by assumption. cbn [bind]. unfold forward_alg_from.
    now rewrite forward_loop_one by (auto using init_vvars_length). }
  split; [exact E|]. rewrite E. eexists. apply forward_alg_ok; [assumption|].
  apply Forall_forall. intros row Hin. apply in_map_iff in Hin.
  destruct Hin as [e [<- _]]. apply repeat_length.
Qed.

Lemma forward_alg_one_column_witness :
  exists z, forward_alg_repaired demo [[1]; [2]] = Ok z.
Proof. apply (forward_alg_one_column demo [1; 2] demo_wf). Defined.

(** ** score_sentences: lengths that differ *)

Lemma mapM_error {A B : Type} (f : A -> res B) (l : list A) (e : exn) :
  (forall x e', f x = Raise e' -> e' = IndexError) ->
  mapM f l = Raise e -> e = IndexError.
Proof.
  intros Hf. induction l as [|x l IH]; intros H; [discriminate|].
  cbn [mapM] in H. destruct (f x) as [b|e'] eqn:E; cbn [bind] in H.
  - destruct (mapM f l) as [bs|e'']; cbn [bind] in H; [discriminate|].
    inversion H; subst. now apply IH.
  - inversion H; subst. now apply (Hf x).
Qed.

Lemma index2_error (t : mat) (I J : list Z) (e : exn) :
  index2 t I J = Raise e -> e = IndexError.
Proof.
  unfold index2, bidx.
  destruct (length I =? length J)%nat; [|destruct (length I =? 1)%nat;
    [|destruct (length J =? 1)%nat]]; cbn [bind];
    try (intros H; now inversion H);
    apply mapM_error; intros x e' Hx;
    (destruct (norm_index _ (fst x)) eqn:E1; cbn [bind] in Hx;
     [destruct (norm_index _ (snd x)) eqn:E2; cbn [bind] in Hx;
      [discriminate|inversion Hx; subst; now apply norm_index_error in E2]
     |inversion Hx; subst; now apply norm_index_error in E1]).
Qed.

(** The only exception [score_sentences] raises is IndexError, and it
    raises it whenever the gold sequence and the emission matrix differ in
    length and neither has length 1. *)
Theorem score_sentences_lengths (self : BiLSTM_CRF) (feats : mat)
    (tags : list Z) :
  (forall e, score_sentences self feats tags = Raise e -> e = IndexError)
  /\ (length tags <> length feats ->
      length tags <> 1%nat -> length feats <> 1%nat ->
      score_sentences self feats tags = Raise IndexError).
Proof.
  split.
  - intros e. unfold score_sentences.
    destruct (index2 (transitions self) _ _) as [a|e1] eqn:E1; cbn [bind].
    + destruct (index2 feats _ _) as [b|e2] eqn:E2; cbn [bind];
        [discriminate|].
      intros H. inversion H; subst. now apply index2_error in E2.
    + intros H. inversion H; subst. now apply index2_error in E1.
  - intros Hl H1 H2. unfold score_sentences.
    destruct (index2 (transitions self) _ _) as [a|e1] eqn:E1; cbn [bind].
    + unfold index2 at 1, bidx. rewrite length_map, length_seq.
      destruct (length feats =? length tags)%nat eqn:Ea;
        [apply Nat.eqb_eq in Ea; lia|].
      destruct (length feats =? 1)%nat eqn:Eb;
        [apply Nat.eqb_eq in Eb; lia|].
      destruct (length tags =? 1)%nat eqn:Ec;
        [apply Nat.eqb_eq in Ec; lia|].
      reflexivity.
    + now rewrite (index2_error _ _ _ _ E1).
Qed.

Lemma score_sentences_lengths_witness :
  score_sentences demo scenario_feats [1%Z; 1%Z; 1%Z] = Raise IndexError.
Proof.
  apply (proj2 (score_sentences_lengths demo scenario_feats
                  [1%Z; 1%Z; 1%Z])); simpl; lia.
Defined.

Lemma map_seq_nth {A B : Type} (g : A -> B) (d : A) (l : list A) :
  map (fun k => g (nth k l d)) (seq 0 (length l)) = map g l.
Proof.
  induction l as [|a l IH]; [reflexivity|].
  cbn [length seq map nth]. rewrite <- seq_shift, map_map.
  cbn [nth]. now rewrite IH.
Qed.

(** A gold sequence of one tag id in [0, n_tag) is accepted against an
    emission matrix of any number of rows: the tag is taken for every
    position, with the two transitions START to tag and tag to STOP. *)
Theorem score_sentences_one_tag (self : BiLSTM_CRF) (feats : mat) (t : nat) :
  wf self ->
  Forall (fun row => length row = n_tag self) feats ->
  (t < n_tag self)%nat ->
  score_sentences self feats [Z.of_nat t]
  = Ok (nth (START self) (nth t (transitions self) []) 0
        + nth t (nth (STOP self) (transitions self) []) 0
        + sum (map (fun row => nth t row 0) feats)).
Proof.
  intros W HF Ht. unfold score_sentences.
  change ([Z.of_nat t] ++ [Z.of_nat (STOP self)])
    with (map Z.of_nat [t] ++ [Z.of_nat (STOP self)]).
  change (Z.of_nat (START self) :: [Z.of_nat t])
    with (Z.of_nat (START self) :: map Z.of_nat [t]).
  rewrite transitions_lookup
    by (try apply W; auto). cbn [bind].
  assert (Hps : bidx (map Z.of_nat (seq 0 (length feats))) [Z.of_nat t]
                = Ok (map (fun i => (i, Z.of_nat t))
                          (map Z.of_nat (seq 0 (length feats))))).
  { unfold bidx. rewrite length_map, length_seq. cbn [length].
    destruct (length feats =? 1)%nat eqn:E1.
    - apply Nat.eqb_eq in E1. rewrite E1. reflexivity.
    - reflexivity. }
  unfold index2. rewrite Hps. cbn [bind].
  rewrite (mapM_ok _ (fun p => nth (Z.to_nat (snd p))
                                   (nth (Z.to_nat (fst p)) feats []) 0)).
  - cbn [bind]. f_equal.
    unfold pairs. cbn [app tl combine map sum fst snd].
    rewrite !map_map. cbn [fst snd].
    rewrite (map_ext _ (fun k => nth t (nth k feats []) 0))
      by (intros k; now rewrite !Nat2Z.id).
    rewrite (map_seq_nth (fun row => nth t row 0) [] feats). ring.
  - intros p Hin. rewrite !map_map in Hin. apply in_map_iff in Hin.
    destruct Hin as [k [<- Hk]]. apply in_seq in Hk. cbn [fst snd].
    rewrite norm_index_nat by lia. cbn [bind].
    rewrite norm_index_nat; [now rewrite !Nat2Z.id|].
    destruct feats as [|feat fs]; [simpl in Hk; lia|].
    inversion HF as [|? ? Hf ?]; subst. cbn [nth]. now rewrite Hf.
Qed.

Lemma score_sentences_one_tag_witness :
  score_sentences demo scenario_feats [Z.of_nat 1]
  = Ok (nth (START demo) (nth 1 (transitions demo) []) 0
        + nth 1 (nth (STOP demo) (transitions demo) []) 0
        + sum (map (fun row => nth 1 row 0) scenario_feats)).
Proof.
  apply (score_sentences_one_tag demo scenario_feats 1 demo_wf).
  - repeat constructor.
  - simpl. lia.
Defined.

(** ** viterbi_decode_repaired: the returned score, and inputs it refuses *)

(** Whenever [viterbi_decode_repaired] returns a path that ends on a real tag, the
    returned score is the gold score [score_sentences] gives to the
    returned path, and it is strictly below the log partition function of
    [forward_alg_repaired]. *)
Theorem viterbi_decode_score (self : BiLSTM_CRF) (feats : mat)
    (score : R) (path : list nat) :
  wf self -> feats <> [] ->
  Forall (fun row => length row = n_tag self) feats ->
  viterbi_decode_repaired self feats = Ok (score, path) ->
  real_tag self (last path O) ->
  score_sentences self feats (map Z.of_nat path) = Ok score
  /\ exists z, forward_alg_repaired self feats = Ok z /\ score < z.
Proof.
  intros W Hne HF Hdec Hreal.
  rewrite viterbi_decode_ok in Hdec by assumption. cbv zeta in Hdec.
  set (d := deltas self (init_vvars_repaired self) feats) in *.
  set (term := terminal_of self d) in *.
  set (best := argmax_list term) in *.
  assert (Hd : length d = n_tag self)
    by (apply deltas_length; auto using init_vvars_length).
  assert (Hterm : length term = n_tag self) by (now apply terminal_of_length).
  assert (Hbest : (best < n_tag self)%nat).
  { rewrite <- Hterm. apply argmax_list_lt. intros E. rewrite E in Hterm.
    pose proof (wf_two self W). simpl in Hterm. lia. }
  destruct (back_last_removelast (bps_of self (init_vvars_repaired self) feats) best)
    as [E1 E2]. rewrite E1, E2 in Hdec. clear E1 E2.
  destruct (fchain_attains self feats W HF (init_vvars_repaired self) best
              (init_vvars_length self) Hbest)
    as [prev [p [Hc [Hlen [Hprev [Hp [Hlast Hval]]]]]]].
  rewrite Hc in Hdec. cbn [hd tl] in Hdec.
  destruct (prev =? START self)%nat eqn:Eq; [|discriminate].
  apply Nat.eqb_eq in Eq. subst prev.
  inversion Hdec; subst score path. clear Hdec.
  assert (Hpne : p <> []).
  { intros ->. destruct feats; [congruence|discriminate]. }
  rewrite last_cons_nonempty in Hlast by assumption.
  rewrite Hlast in Hreal.
  fold d in Hval. rewrite <- terminal_real in Hval by assumption.
  fold term in Hval.
  rewrite init_vvars_nth in Hval by apply W.
  destruct (Nat.eq_dec (START self) (START self)); [|congruence].
  assert (Hg : nth best term 0 = gold self feats p).
  { unfold gold, padded. rewrite gold_walk by assumption. lra. }
  split.
  - rewrite Hg. now apply score_sentences_ok.
  - eexists. split; [now apply forward_alg_ok|].
    rewrite Hg. now apply partition_strict.
Qed.

Lemma viterbi_decode_score_witness :
  score_sentences demo scenario_feats (map Z.of_nat [1%nat; 1%nat]) = Ok 3.
Proof.
  apply (viterbi_decode_score demo scenario_feats 3 [1%nat; 1%nat] demo_wf).
  - discriminate.
  - repeat constructor.
  - unfold scenario_feats.
    run_decoder demo_z [[0; 1; 0]; [0; 2; 0]]%Z. reflexivity.
  - repeat split; simpl; lia.
Defined.

Lemma Forall_last {A : Type} (P : A -> Prop) (l : list A) (d : A) :
  l <> [] -> Forall P l -> P (last l d).
Proof.
  induction l as [|a l IH]; intros Hne H; [congruence|].
  inversion H; subst. destruct l as [|b l]; [assumption|].
  apply IH; [discriminate|assumption].
Qed.

(** C1: [viterbi_decode] as written returns no score, it raises at line
    296, which reads [self.tagset_size] (lines 297, 300, 301 and 309 cannot
    run either).  The decoder the method spells out, with those statements
    repaired, is exact wherever it returns a path of real tags: the path
    has L tags, the returned score is the score [score_sentences] gives to
    the returned path, and no sequence of L real tags has a larger one. *)
Theorem viterbi_decode_optimum (self : BiLSTM_CRF) (feats : mat)
    (score : R) (path : list nat) :
  viterbi_decode self feats = Raise AttributeError
  /\ (wf self -> feats <> [] ->
      Forall (fun row => length row = n_tag self) feats ->
      viterbi_decode_repaired self feats = Ok (score, path) ->
      Forall (real_tag self) path ->
      length path = length feats
      /\ score_sentences self feats (map Z.of_nat path) = Ok score
      /\ (forall tags,
            length tags = length feats ->
            Forall (real_tag self) tags ->
            exists g,
              score_sentences self feats (map Z.of_nat tags) = Ok g
              /\ g <= score)).
Proof.
  split; [apply viterbi_decode_as_written_raises|].
  intros W Hne HF Hdec Hreal.
  pose proof (proj1 (viterbi_decode_path self feats W Hne HF) score path Hdec)
    as Hlen.
  split; [exact Hlen|]. split.
  - apply (viterbi_decode_score self feats score path W Hne HF Hdec).
    apply Forall_last; [|assumption].
    intros ->. destruct feats; [congruence|discriminate].
  - intros tags Hl Ht.
    exact (proj1 (viterbi_decode_optimal self feats W Hne HF)
             score path tags Hdec Hl Ht).
Qed.

Lemma quad_decoded :
  viterbi_decode_repaired quad quad_feats = Ok (9, [1%nat; 2%nat]).
Proof.
  unfold quad_feats.
  run_decoder quad_z [[0; 1; 2; 0]; [0; 3; 2; 0]]%Z. reflexivity.
Qed.

Lemma viterbi_decode_optimum_witness :
  viterbi_decode quad quad_feats = Raise AttributeError
  /\ viterbi_decode_repaired quad quad_feats = Ok (9, [1%nat; 2%nat])
  /\ score_sentences quad quad_feats [1%Z; 2%Z] = Ok 9
  /\ (forall tags,
        length tags = 2%nat ->
        Forall (real_tag quad) tags ->
        exists g,
          score_sentences quad quad_feats (map Z.of_nat tags) = Ok g
          /\ g <= 9).
Proof.
  split; [apply (viterbi_decode_optimum quad quad_feats 9 [1%nat; 2%nat])|].
  split; [exact quad_decoded|].
  apply (proj2 (viterbi_decode_optimum quad quad_feats 9 [1%nat; 2%nat])
               quad_wf).
  - discriminate.
  - repeat constructor.
  - exact quad_decoded.
  - repeat constructor; simpl; lia.
Defined.

Lemma quad_gold (tags : list nat) (g : R) :
  length tags = 2%nat -> Forall (fun t => (t < 4)%nat) tags ->
  gold quad quad_feats tags = g ->
  score_sentences quad quad_feats (map Z.of_nat tags) = Ok g.
Proof.
  intros Hl Ht <-. apply score_sentences_ok; auto using quad_wf.
  repeat constructor.
Qed.

Ltac quad_score tags :=
  apply (quad_gold tags); [reflexivity|repeat constructor; lia|];
  unfold gold, transition_sum, emission_sum, padded, pairs, quad, quad_feats;
  cbn [transitions START STOP zipWith sum map app nth combine tl fst snd];
  lra.

(** The four sequences of two real tags of [quad], and their scores: the
    largest is the score the repaired decoder returns. *)
Lemma quad_brute_force :
  score_sentences quad quad_feats [1%Z; 1%Z] = Ok 8
  /\ score_sentences quad quad_feats [1%Z; 2%Z] = Ok 9
  /\ score_sentences quad quad_feats [2%Z; 1%Z] = Ok 6
  /\ score_sentences quad quad_feats [2%Z; 2%Z] = Ok 7.
Proof.
  split; [quad_score [1; 1]%nat|].
  split; [quad_score [1; 2]%nat|].
  split; [quad_score [2; 1]%nat|quad_score [2; 2]%nat].
Qed.

(** C7: [viterbi_decode] as written returns no tag sequence, it raises at
    line 296, which reads [self.tagset_size]; the traceback and its
    assertion (line 331) are never reached.  Nor does the decoder the
    method spells out keep START and STOP out of every path: they are kept
    out by the finite score -10000 only.  With emission scores of -20000
    for the real tag it returns the path STOP, START, and with a score of
    20001 for staying on the real tag the traceback does not end on START:
    the method fails its own assertion. *)
Theorem viterbi_decode_no_path :
  (forall self feats, viterbi_decode self feats = Raise AttributeError)
  /\ (wf demo /\ sentinels demo
      /\ viterbi_decode_repaired demo [[0; -20000; 0]; [0; -20000; 0]]
         = Ok (-10000, [STOP demo; START demo]))
  /\ (wf steep /\ sentinels steep
      /\ viterbi_decode_repaired steep [[0; 0; 0]] = Raise AssertionError).
Proof.
  split; [exact viterbi_decode_as_written_raises|]. split.
  - split; [exact demo_wf|]. split; [exact demo_sentinels|].
    exact (proj1 (proj2 (proj2 viterbi_decode_returns_sentinels))).
  - split; [exact steep_wf|]. split; [exact steep_sentinels|].
    exact viterbi_decode_assertion_fails.
Qed.

Lemma viterbi_step_upto_feat (self : BiLSTM_CRF) (fv feat : vec) :
  wf self -> length fv = n_tag self ->
  viterbi_step_repaired self fv feat
  = (forward_var' <- bvec Rplus (map max_list (next_of self fv)) feat ;;
     Ok (forward_var', bptrs_of self fv)).
Proof.
  intros W Hfv. pose proof (wf_two self W) as H2.
  unfold viterbi_step_repaired, expand. rewrite Hfv, Nat.eqb_refl. cbn [bind].
  unfold bmat. rewrite repeat_length, (wf_rows self W), Nat.eqb_refl.
  rewrite (mapM2_ok _ (zipWith Rplus)).
  2:{ intros a b Ha Hb. apply repeat_spec in Ha. subst a.
      apply bvec_same. pose proof (wf_cols self W) as Hc.
      rewrite Forall_forall in Hc. rewrite (Hc b Hb). assumption. }
  rewrite zipWith_repeat_l by (rewrite (wf_rows self W); lia).
  fold (next_of self fv). cbn [bind].
  unfold argmax_dim1. rewrite (mapM_ok _ argmax_list).
  2:{ intros row Hin. pose proof (next_of_rows self fv W Hfv) as Hr.
      rewrite Forall_forall in Hr. specialize (Hr row Hin).
      destruct row; [simpl in Hr; lia|reflexivity]. }
  cbn [bind]. rewrite zipWith_map_r.
  rewrite (map_ext _ max_list)
    by (intros row; symmetry; apply max_list_argmax).
  reflexivity.
Qed.

(** [viterbi_decode_repaired] raises on an emission matrix with no row, and on one
    whose first row has neither n_tag entries nor one entry. *)
Theorem viterbi_decode_refuses (self : BiLSTM_CRF) (feats : mat) :
  wf self ->
  (feats = [] -> viterbi_decode_repaired self feats = Raise IndexError)
  /\ (forall feat rest, feats = feat :: rest ->
        length feat <> n_tag self -> length feat <> 1%nat ->
        viterbi_decode_repaired self feats = Raise RuntimeError).
Proof.
  intros W. pose proof (wf_two self W) as H2. split.
  - intros ->. reflexivity.
  - intros feat rest -> Hn H1. unfold viterbi_decode_repaired, viterbi_from_repaired.
    cbn [viterbi_loop_repaired].
    rewrite viterbi_step_upto_feat by (auto using init_vvars_length).
    unfold bvec. rewrite length_map, next_of_length by assumption.
    destruct (n_tag self =? length feat)%nat eqn:Ea;
      [apply Nat.eqb_eq in Ea; lia|].
    destruct (n_tag self =? 1)%nat eqn:Eb; [apply Nat.eqb_eq in Eb; lia|].
    destruct (length feat =? 1)%nat eqn:Ec; [apply Nat.eqb_eq in Ec; lia|].
    reflexivity.
Qed.

Lemma viterbi_decode_refuses_witness :
  viterbi_decode_repaired demo [[1; 2]] = Raise RuntimeError.
Proof.
  apply (proj2 (viterbi_decode_refuses demo [[1; 2]] demo_wf) [1; 2] []);
    [reflexivity|simpl; lia|simpl; lia].
Defined.

(** On the store, with no row in [feats]: the IndexError comes from the
    writes into the 2-D [terminal_var], one of which is out of range. *)
Theorem viterbi_decode_empty_store (s : Store.module_ref) (feats : nat)
    (h : Store.heap) (A : mat) :
  (Store.r_transitions s < length h)%nat -> (feats < length h)%nat ->
  nth (Store.r_transitions s) h (Store.T1 []) = Store.T2 A ->
  nth feats h (Store.T1 []) = Store.T2 [] ->
  wf (Store.self_of s A) ->
  fst (Store.viterbi_decode_repaired_st s feats h) = Raise IndexError
  /\ nth_error (snd (Store.viterbi_decode_repaired_st s feats h)) feats
     = Some (Store.T2 []).
Proof.
  intros Ht Hf HA HF W. split.
  - now rewrite (viterbi_decode_st_agrees s feats h A []).
  - rewrite (preserves_cell _ h feats (viterbi_decode_preserves _ s feats) Hf).
    rewrite (nth_error_nth' h (Store.T1 []) Hf). now rewrite HF.
Qed.

Lemma viterbi_decode_empty_store_witness :
  let s := {| Store.r_n_tag := 3; Store.r_START := 0; Store.r_STOP := 2;
              Store.r_transitions := 0 |} in
  let h := [Store.T2 (transitions demo); Store.T2 []] in
  fst (Store.viterbi_decode_repaired_st s 1 h) = Raise IndexError.
Proof.
  cbv zeta.
  apply (viterbi_decode_empty_store
           {| Store.r_n_tag := 3; Store.r_START := 0; Store.r_STOP := 2;
              Store.r_transitions := 0 |} 1
           [Store.T2 (transitions demo); Store.T2 []] (transitions demo)).
  - simpl. lia.
  - simpl. lia.
  - reflexivity.
  - reflexivity.
  - exact demo_wf.
Defined.

(** ** A freshly constructed model decodes exactly *)

Lemma real_tag_exists (self : BiLSTM_CRF) :
  (3 <= n_tag self)%nat -> exists r, real_tag self r.
Proof.
  intros Hn. unfold real_tag.
  destruct (Nat.eq_dec 0 (START self)) as [E0|N0];
    destruct (Nat.eq_dec 0 (STOP self)) as [F0|M0];
    destruct (Nat.eq_dec 1 (START self)) as [E1|N1];
    destruct (Nat.eq_dec 1 (STOP self)) as [F1|M1];
    try (exists 0%nat; repeat split; (lia || congruence));
    try (exists 1%nat; repeat split; (lia || congruence));
    exists 2%nat; repeat split; lia.
Qed.

(** On the model the constructor builds for at least three tags and two
    distinct sentinel indices, and on emission scores within [-B, B] with
    (4 L + 2) B < 10000, [viterbi_decode_repaired] returns a path of real tags and
    its gold score, and no sequence of L real tags has a larger gold
    score. *)
Theorem new_model_decodes (n s p : nat) (feats : mat) (B : R) :
  (3 <= n)%nat -> (s < n)%nat -> (p < n)%nat -> s <> p ->
  feats <> [] ->
  Forall (fun row => length row = n) feats ->
  Forall (Forall (fun x => - B <= x <= B)) feats ->
  0 <= B ->
  (4 * INR (length feats) + 2) * B < 10000 ->
  exists self score path,
    new_model n s p = Ok self
    /\ viterbi_decode_repaired self feats = Ok (score, path)
    /\ length path = length feats
    /\ Forall (real_tag self) path
    /\ score_sentences self feats (map Z.of_nat path) = Ok score
    /\ (forall tags, length tags = length feats ->
          Forall (real_tag self) tags ->
          exists g, score_sentences self feats (map Z.of_nat tags) = Ok g
                    /\ g <= score).
Proof.
  intros Hn Hs Hp Hsp Hne HF HE HB Hbud.
  destruct (new_model_returns n s p Hs Hp)
    as [self [Hnew [En [Es [Ep [_ [_ [Sen [Hzero Hwf]]]]]]]]].
  specialize (Hwf Hsp). subst n s p.
  destruct (real_tag_exists self Hn) as [r Hr].
  assert (HA : forall i j, (i < n_tag self)%nat -> (j < n_tag self)%nat ->
                 i <> START self -> j <> STOP self ->
                 - B <= nth j (nth i (transitions self) []) 0 <= B).
  { intros i j Hi Hj Hi' Hj'. rewrite Hzero by assumption. lra. }
  destruct (decode_bounded self B Hwf Sen HB HA feats HF Hne HE Hbud r Hr)
    as [path [Hdec [Hlen [Hreal Hopt]]]].
  exists self, (gold self feats path), path.
  repeat split; try assumption.
  - apply score_sentences_ok; auto using real_tag_lt.
  - intros tags Hl Ht. exists (gold self feats tags). split.
    + apply score_sentences_ok; auto using real_tag_lt.
    + now apply Hopt.
Qed.

Lemma new_model_decodes_witness :
  exists self score path,
    new_model 3 0 2 = Ok self
    /\ viterbi_decode_repaired self scenario_feats = Ok (score, path)
    /\ length path = 2%nat.
Proof.
  destruct (new_model_decodes 3 0 2 scenario_feats 2
              ltac:(lia) ltac:(lia) ltac:(lia) ltac:(discriminate)
              ltac:(discriminate) ltac:(repeat constructor)
              ltac:(repeat constructor; lra) ltac:(lra) demo_budget)
    as [self [score [path [H1 [H2 [H3 _]]]]]].
  exists self, score, path. repeat split; assumption.
Defined.
